(** * The per-core RPC server of [src/v/rpc/server.cc], and the audit
      back-pressure fixture of [src/v/security/audit/tests/audit_log_test.cc]

    The server is asynchronous code over seastar futures.  It is embedded as
    a labelled transition system: every continuation of [server.cc] that runs
    without suspending is one function on the server state, and an [event]
    says which continuation the reactor runs next.

    Handlers (the registered methods) are foreign code.  Their calls into
    the server are events: a handler reads from the connection's input,
    reserves memory units, calls [signal_body_parse] once, and then resolves
    with a reply buffer, which is the method contract of the RPC layer.  A
    handler that throws, and the latency histogram [_hist], are left out. *)

From stdpp Require Import prelude.

(** ** Wire data *)

(** Modelled from the spec: [rpc::header] is declared in rpc/types.h, which
    is not among the sources.  [server.cc] reads [meta], [size] and
    [correlation_id]; the other fields are the ones the spec lists. *)
Record header := Header {
  version : Z;
  flags : Z;
  meta : Z;
  size : Z;
  checksum : Z;
  correlation_id : Z
}.

(** Modelled from the spec: [rpc::netbuf], the reply buffer a method
    produces (rpc/netbuf.h is not among the sources).  Only its correlation
    id and its payload matter to [server.cc]. *)
Record netbuf := Netbuf {
  nb_correlation_id : Z;
  nb_payload : list Z
}.

Definition set_correlation_id (id : Z) (n : netbuf) : netbuf :=
  {| nb_correlation_id := id; nb_payload := nb_payload n |}.

(** [std::move(n).as_scattered()]: the scatter-gather view of the buffer. *)
Definition as_scattered (n : netbuf) : netbuf := n.

(** The input side of a connection: the bytes not yet consumed and the
    [eof()] flag of the stream. *)
Record input_stream := InputStream {
  in_buf : list Z;
  in_eof : bool
}.

(** A handler reading [k] bytes off the stream it was handed. *)
Definition read_exactly (k : nat) (i : input_stream) : input_stream :=
  {| in_buf := drop k (in_buf i);
     in_eof := in_eof i || (length (in_buf i) <? k) |}.

(** ** Services *)

(** A [method*]: the handler itself is foreign code, so the model keeps its
    identity only. *)
Inductive method := Method (name : nat).

Record service := Service {
  method_from_id : Z → option method
}.

(** The [std::find_if] of [dispatch_method_once] followed by
    [it->get()->method_from_id(method_id)]. *)
Fixpoint find_method (method_id : Z) (services : list service) : option method :=
  match services with
  | [] => None
  | srvc :: rest =>
      match method_from_id srvc method_id with
      | Some m => Some m
      | None => find_method method_id rest
      end
  end.

(** ** The probe *)

(** Modelled from the spec: [rpc::probe] (rpc/probe.h is not among the
    sources) is the set of counters the spec names: waiters-on-memory,
    header-corrupted, method-not-found, bytes-received, requests-completed. *)
Record probe := Probe {
  requests_blocked_memory : Z;
  corrupted_headers : Z;
  method_not_found_errors : Z;
  in_bytes : Z;
  requests_completed : Z
}.

Definition waiting_for_available_memory (p : probe) : probe :=
  {| requests_blocked_memory := requests_blocked_memory p + 1;
     corrupted_headers := corrupted_headers p;
     method_not_found_errors := method_not_found_errors p;
     in_bytes := in_bytes p;
     requests_completed := requests_completed p |}.

Definition header_corrupted (p : probe) : probe :=
  {| requests_blocked_memory := requests_blocked_memory p;
     corrupted_headers := corrupted_headers p + 1;
     method_not_found_errors := method_not_found_errors p;
     in_bytes := in_bytes p;
     requests_completed := requests_completed p |}.

Definition method_not_found (p : probe) : probe :=
  {| requests_blocked_memory := requests_blocked_memory p;
     corrupted_headers := corrupted_headers p;
     method_not_found_errors := method_not_found_errors p + 1;
     in_bytes := in_bytes p;
     requests_completed := requests_completed p |}.

Definition add_bytes_received (n : Z) (p : probe) : probe :=
  {| requests_blocked_memory := requests_blocked_memory p;
     corrupted_headers := corrupted_headers p;
     method_not_found_errors := method_not_found_errors p;
     in_bytes := in_bytes p + n;
     requests_completed := requests_completed p |}.

Definition request_completed (p : probe) : probe :=
  {| requests_blocked_memory := requests_blocked_memory p;
     corrupted_headers := corrupted_headers p;
     method_not_found_errors := method_not_found_errors p;
     in_bytes := in_bytes p;
     requests_completed := requests_completed p + 1 |}.

(** ** seastar collaborators: gate and semaphore *)

(** [ss::gate]: the number of fibers inside, and whether [close()] was
    called. *)
Record gate := Gate {
  g_count : nat;
  g_closed : bool
}.

Definition is_closed (g : gate) : bool := g_closed g.
Definition gate_enter (g : gate) : gate :=
  {| g_count := S (g_count g); g_closed := g_closed g |}.
Definition gate_leave (g : gate) : gate :=
  {| g_count := pred (g_count g); g_closed := g_closed g |}.
Definition gate_close (g : gate) : gate :=
  {| g_count := g_count g; g_closed := true |}.

(** [ss::semaphore]: available units and the FIFO of suspended
    acquisitions (who waits, for how many units). *)
Record semaphore := Semaphore {
  sem_count : Z;
  sem_wait_list : list (nat * Z)
}.

Definition waiters (m : semaphore) : nat := length (sem_wait_list m).

Definition may_proceed (m : semaphore) (n : Z) : bool :=
  (n <=? sem_count m)%Z && bool_decide (sem_wait_list m = []).

(** [get_units(sem, ask)] for waiter [i]: granted at once, or queued. *)
Definition get_units (m : semaphore) (i : nat) (ask : Z) : semaphore * bool :=
  if may_proceed m ask
  then ({| sem_count := sem_count m - ask; sem_wait_list := sem_wait_list m |}, true)
  else ({| sem_count := sem_count m; sem_wait_list := sem_wait_list m ++ [(i, ask)] |}, false).

(** [semaphore::signal]: after units come back, the head waiters that fit
    are granted in order.  Returns the count left, the grants made and the
    waiters that stay. *)
Fixpoint wake (count : Z) (ws : list (nat * Z)) : Z * list (nat * Z) * list (nat * Z) :=
  match ws with
  | [] => (count, [], [])
  | (i, n) :: rest =>
      if (n <=? count)%Z
      then let '(count', granted, staying) := wake (count - n) rest in
           (count', (i, n) :: granted, staying)
      else (count, [], ws)
  end.

(** ** Server state *)

Record server_configuration := ServerConfiguration {
  addrs : list Z;
  max_service_memory_per_core : Z;
  credentials : bool;
  disable_metrics : bool
}.

(** One [ss::server_socket] of [_listeners] with the accept loop that
    [start] spawned for it. *)
Record listener := Listener {
  l_addr : Z;
  l_tls : bool;
  l_aborted : bool;
  l_accepting : bool
}.

Inductive error := runtime_error | gate_closed_exception.

(** Where the [do_until] of [continous_method_dispath] stands for one
    connection, up to the [then_wrapped] that [accept] chained on it. *)
Inductive dispatch_state :=
| AtCondition
| ParsingHeader
| AwaitingBody (i : nat)
| Finished
| Failed (e : error)
| Closed.

(** Modelled from the spec: [rpc::connection] (rpc/connection.h is not among
    the sources).  [c_written] lists the views handed to [conn->write], in
    call order. *)
Record connection := Connection {
  addr : Z;
  c_input : input_stream;
  c_written : list netbuf;
  c_input_shutdown : bool;
  c_shutdown : bool;
  c_dispatch : dispatch_state
}.

Inductive reply_state :=
| Running
| Written (view : netbuf)
| Skipped (view : netbuf).

(** A [server_context_impl] ([_h], [pr]) together with the background fiber
    that [dispatch_method_once] spawns around it: the connection and the
    method it was started with, the memory units the handler holds, whether
    it is suspended in [reserve_memory], and what became of its reply. *)
Record server_context_impl := ServerContext {
  _h : header;
  pr : bool;
  ctx_conn : nat;
  ctx_method : method;
  ctx_units : Z;
  ctx_suspended : bool;
  ctx_reply : reply_state
}.

(** Calls the server makes on its collaborators, in program order. *)
Inductive call :=
| CallAbortAccept (l : nat)
| CallRequestAbort
| CallShutdownInput (c : nat)
| CallGateClose
| CallShutdown (c : nat)
| CallInvoke (i : nat)
| CallWrite (c : nat) (view : netbuf).

Inductive phase := Serving | Draining | Stopped.

Record server := Server {
  cfg : server_configuration;
  _memory : semaphore;
  _creds : bool;
  _listeners : list listener;
  _connections : list connection;
  _conn_gate : gate;
  _as : bool;
  _probe : probe;
  _services : list service;
  contexts : list server_context_impl;
  lifecycle : phase;
  calls : list call
}.

Definition set_memory (m : semaphore) (s : server) : server :=
  {| cfg := cfg s; _memory := m; _creds := _creds s;
     _listeners := _listeners s; _connections := _connections s;
     _conn_gate := _conn_gate s; _as := _as s; _probe := _probe s;
     _services := _services s; contexts := contexts s;
     lifecycle := lifecycle s; calls := calls s |}.

Definition set_listeners (ls : list listener) (s : server) : server :=
  {| cfg := cfg s; _memory := _memory s; _creds := _creds s;
     _listeners := ls; _connections := _connections s;
     _conn_gate := _conn_gate s; _as := _as s; _probe := _probe s;
     _services := _services s; contexts := contexts s;
     lifecycle := lifecycle s; calls := calls s |}.

Definition set_connections (cs : list connection) (s : server) : server :=
  {| cfg := cfg s; _memory := _memory s; _creds := _creds s;
     _listeners := _listeners s; _connections := cs;
     _conn_gate := _conn_gate s; _as := _as s; _probe := _probe s;
     _services := _services s; contexts := contexts s;
     lifecycle := lifecycle s; calls := calls s |}.

Definition set_gate (g : gate) (s : server) : server :=
  {| cfg := cfg s; _memory := _memory s; _creds := _creds s;
     _listeners := _listeners s; _connections := _connections s;
     _conn_gate := g; _as := _as s; _probe := _probe s;
     _services := _services s; contexts := contexts s;
     lifecycle := lifecycle s; calls := calls s |}.

Definition set_as (b : bool) (s : server) : server :=
  {| cfg := cfg s; _memory := _memory s; _creds := _creds s;
     _listeners := _listeners s; _connections := _connections s;
     _conn_gate := _conn_gate s; _as := b; _probe := _probe s;
     _services := _services s; contexts := contexts s;
     lifecycle := lifecycle s; calls := calls s |}.

Definition set_probe (p : probe) (s : server) : server :=
  {| cfg := cfg s; _memory := _memory s; _creds := _creds s;
     _listeners := _listeners s; _connections := _connections s;
     _conn_gate := _conn_gate s; _as := _as s; _probe := p;
     _services := _services s; contexts := contexts s;
     lifecycle := lifecycle s; calls := calls s |}.

Definition set_services (svcs : list service) (s : server) : server :=
  {| cfg := cfg s; _memory := _memory s; _creds := _creds s;
     _listeners := _listeners s; _connections := _connections s;
     _conn_gate := _conn_gate s; _as := _as s; _probe := _probe s;
     _services := svcs; contexts := contexts s;
     lifecycle := lifecycle s; calls := calls s |}.

Definition set_contexts (xs : list server_context_impl) (s : server) : server :=
  {| cfg := cfg s; _memory := _memory s; _creds := _creds s;
     _listeners := _listeners s; _connections := _connections s;
     _conn_gate := _conn_gate s; _as := _as s; _probe := _probe s;
     _services := _services s; contexts := xs;
     lifecycle := lifecycle s; calls := calls s |}.

Definition set_lifecycle (ph : phase) (s : server) : server :=
  {| cfg := cfg s; _memory := _memory s; _creds := _creds s;
     _listeners := _listeners s; _connections := _connections s;
     _conn_gate := _conn_gate s; _as := _as s; _probe := _probe s;
     _services := _services s; contexts := contexts s;
     lifecycle := ph; calls := calls s |}.

Definition record_call (k : call) (s : server) : server :=
  {| cfg := cfg s; _memory := _memory s; _creds := _creds s;
     _listeners := _listeners s; _connections := _connections s;
     _conn_gate := _conn_gate s; _as := _as s; _probe := _probe s;
     _services := _services s; contexts := contexts s;
     lifecycle := lifecycle s; calls := calls s ++ [k] |}.

(** Field updates of the records kept in lists. *)
Definition conn_set_input (i : input_stream) (c : connection) : connection :=
  {| addr := addr c; c_input := i; c_written := c_written c;
     c_input_shutdown := c_input_shutdown c; c_shutdown := c_shutdown c;
     c_dispatch := c_dispatch c |}.

Definition conn_set_dispatch (d : dispatch_state) (c : connection) : connection :=
  {| addr := addr c; c_input := c_input c; c_written := c_written c;
     c_input_shutdown := c_input_shutdown c; c_shutdown := c_shutdown c;
     c_dispatch := d |}.

Definition conn_append_written (view : netbuf) (c : connection) : connection :=
  {| addr := addr c; c_input := c_input c; c_written := c_written c ++ [view];
     c_input_shutdown := c_input_shutdown c; c_shutdown := c_shutdown c;
     c_dispatch := c_dispatch c |}.

(** Modelled from the spec: [connection::shutdown_input] makes pending reads
    resolve to EOF, so nothing more is delivered to the reader. *)
Definition conn_shutdown_input (c : connection) : connection :=
  {| addr := addr c;
     c_input := {| in_buf := []; in_eof := in_eof (c_input c) |};
     c_written := c_written c;
     c_input_shutdown := true; c_shutdown := c_shutdown c;
     c_dispatch := c_dispatch c |}.

(** Modelled from the spec: [connection::shutdown] closes both halves. *)
Definition conn_shutdown (c : connection) : connection :=
  {| addr := addr c; c_input := c_input c; c_written := c_written c;
     c_input_shutdown := c_input_shutdown c; c_shutdown := true;
     c_dispatch := c_dispatch c |}.

(** [server_context_impl::get_header]. *)
Definition get_header (x : server_context_impl) : header := _h x.

Definition ctx_set_pr (b : bool) (x : server_context_impl) : server_context_impl :=
  {| _h := _h x; pr := b; ctx_conn := ctx_conn x; ctx_method := ctx_method x;
     ctx_units := ctx_units x; ctx_suspended := ctx_suspended x;
     ctx_reply := ctx_reply x |}.

Definition ctx_set_reply (r : reply_state) (x : server_context_impl) : server_context_impl :=
  {| _h := _h x; pr := pr x; ctx_conn := ctx_conn x; ctx_method := ctx_method x;
     ctx_units := ctx_units x; ctx_suspended := ctx_suspended x;
     ctx_reply := r |}.

Definition ctx_suspend (x : server_context_impl) : server_context_impl :=
  {| _h := _h x; pr := pr x; ctx_conn := ctx_conn x; ctx_method := ctx_method x;
     ctx_units := ctx_units x; ctx_suspended := true;
     ctx_reply := ctx_reply x |}.

(** The handler of [x] receives [n] units (and resumes if it waited). *)
Definition ctx_grant (n : Z) (x : server_context_impl) : server_context_impl :=
  {| _h := _h x; pr := pr x; ctx_conn := ctx_conn x; ctx_method := ctx_method x;
     ctx_units := ctx_units x + n; ctx_suspended := false;
     ctx_reply := ctx_reply x |}.

Definition ctx_drop_units (x : server_context_impl) : server_context_impl :=
  {| _h := _h x; pr := pr x; ctx_conn := ctx_conn x; ctx_method := ctx_method x;
     ctx_units := 0; ctx_suspended := ctx_suspended x;
     ctx_reply := ctx_reply x |}.

Definition is_running (x : server_context_impl) : bool :=
  match ctx_reply x with Running => true | _ => false end.

(** The handler can take a step: it has not resolved and is not suspended
    waiting for memory units. *)
Definition runnable (x : server_context_impl) : bool :=
  is_running x && negb (ctx_suspended x).

Definition is_open (d : dispatch_state) : bool :=
  match d with Closed => false | _ => true end.

(** ** [server.cc] *)

Definition update_connection (f : connection → connection) (c : nat) (s : server) : server :=
  set_connections (alter f c (_connections s)) s.

Definition update_context (f : server_context_impl → server_context_impl)
    (i : nat) (s : server) : server :=
  set_contexts (alter f i (contexts s)) s.

(** [server::server]: the constructor. *)
Definition server_new (c : server_configuration) : server :=
  {| cfg := c;
     _memory := {| sem_count := max_service_memory_per_core c; sem_wait_list := [] |};
     _creds := credentials c;
     _listeners := []; _connections := [];
     _conn_gate := {| g_count := 0; g_closed := false |};
     _as := false;
     _probe := {| requests_blocked_memory := 0; corrupted_headers := 0;
                  method_not_found_errors := 0; in_bytes := 0;
                  requests_completed := 0 |};
     _services := []; contexts := [];
     lifecycle := Serving; calls := [] |}.

(** Modelled from the spec: [server::register_service] is defined in
    rpc/server.h, which is not among the sources; the registry is an ordered
    sequence and registration appends to it. *)
Definition register_service (srvc : service) (s : server) : server :=
  set_services (_services s ++ [srvc]) s.

(** [server::start]: one listener per configured address, each with an
    accept loop spawned under the gate.  [listens a] says whether
    [ss::engine().listen] succeeds on [a]; a failure (or a closed gate)
    throws. *)
Fixpoint start_on (listens : Z → bool) (addresses : list Z) (s : server) : option server :=
  match addresses with
  | [] => Some s
  | a :: rest =>
      if negb (listens a) then None
      else if is_closed (_conn_gate s) then None
      else
        let ss := {| l_addr := a; l_tls := _creds s;
                     l_aborted := false; l_accepting := true |} in
        start_on listens rest
          (set_gate (gate_enter (_conn_gate s))
             (set_listeners (_listeners s ++ [ss]) s))
  end.

Definition start (listens : Z → bool) (s : server) : option server :=
  start_on listens (addrs (cfg s)) s.

(** What [s.accept()] resolves with: the peer's address and the bytes the
    peer sends on the new socket. *)
Record accept_result := AcceptResult {
  remote_address : Z;
  sent : list Z
}.

Definition listener_stop (l : listener) : listener :=
  {| l_addr := l_addr l; l_tls := l_tls l;
     l_aborted := l_aborted l; l_accepting := false |}.

Definition listener_abort (l : listener) : listener :=
  {| l_addr := l_addr l; l_tls := l_tls l;
     l_aborted := true; l_accepting := l_accepting l |}.

(** The accept loop of listener [l] ends ([stop_iteration::yes] or a failed
    iteration) and its [with_gate] leaves the gate. *)
Definition accept_loop_exit (l : nat) (s : server) : server :=
  set_gate (gate_leave (_conn_gate s))
    (set_listeners (alter listener_stop l (_listeners s)) s).

(** One iteration of [server::accept]: the [then_wrapped] continuation run
    on the resolved accept future ([None]: the future failed, which happens
    once [abort_accept] was called). *)
Definition accept (l : nat) (f_cs_sa : option accept_result) (s : server) : option server :=
  lst ← _listeners s !! l;
  if negb (l_accepting lst) then None
  else if bool_decide (f_cs_sa = None) && negb (l_aborted lst) then None
  else if _as s then Some (accept_loop_exit l s)
  else
    match f_cs_sa with
    | None => Some (accept_loop_exit l s)
    | Some ar =>
        let c := length (_connections s) in
        let conn := {| addr := remote_address ar;
                       c_input := {| in_buf := sent ar; in_eof := false |};
                       c_written := [];
                       c_input_shutdown := false; c_shutdown := false;
                       c_dispatch := AtCondition |} in
        if is_closed (_conn_gate s)
        then Some (accept_loop_exit l
                     (record_call (CallShutdown c)
                        (set_connections
                           (_connections s ++ [conn_set_dispatch Closed (conn_shutdown conn)]) s)))
        else Some (set_gate (gate_enter (_conn_gate s))
                     (set_connections (_connections s ++ [conn]) s))
    end.

(** The [then_wrapped] that [accept] chains on [continous_method_dispath]:
    whatever the loop resolved with, the connection is shut down, and the
    fiber leaves the gate. *)
Definition closing_client (c : nat) (s : server) : server :=
  set_gate (gate_leave (_conn_gate s))
    (record_call (CallShutdown c)
       (update_connection (λ conn, conn_set_dispatch Closed (conn_shutdown conn)) c s)).

(** [server_context_impl::reserve_memory], called by the handler of
    context [i]. *)
Definition reserve_memory (i : nat) (ask : Z) (s : server) : server :=
  let '(m, granted) := get_units (_memory s) i ask in
  let s1 := update_context (if granted then ctx_grant ask else ctx_suspend) i
              (set_memory m s) in
  if bool_decide (waiters (_memory s1) ≠ 0)
  then set_probe (waiting_for_available_memory (_probe s1)) s1
  else s1.

(** [server_context_impl::signal_body_parse]: [pr.set_value()]. *)
Definition signal_body_parse (i : nat) (s : server) : server :=
  update_context (ctx_set_pr true) i s.

(** The handler of context [i] drops its [semaphore_units] when it
    resolves: the units go back and the waiters that now fit resume. *)
Definition return_units (i : nat) (s : server) : server :=
  match contexts s !! i with
  | None => s
  | Some ctx =>
      let '(count, granted, staying) :=
        wake (sem_count (_memory s) + ctx_units ctx) (sem_wait_list (_memory s)) in
      set_contexts
        (foldl (λ xs g, alter (ctx_grant g.2) g.1 xs)
               (alter ctx_drop_units i (contexts s)) granted)
        (set_memory {| sem_count := count; sem_wait_list := staying |} s)
  end.

Section Dispatch.

(** [sizeof(header)] and [parse_header] (rpc/types.h and
    rpc/parse_utils.h, not among the sources): the codec maps the input
    to an optional header and the input left behind. *)
Variable header_size : Z.
Variable parse_header : input_stream → option header * input_stream.

(** [server::dispatch_method_once] for the header [h] read off connection
    [c]: the state after it returns, and what the loop is left with
    (a failure, or the future of the context's promise). *)
Definition dispatch_method_once (h : header) (c : nat) (s : server)
    : server * dispatch_state :=
  let method_id := meta h in
  match find_method method_id (_services s) with
  | None =>
      (set_probe (method_not_found (_probe s)) s, Failed runtime_error)
  | Some m =>
      let s1 := set_probe
                  (add_bytes_received ((header_size + size h) `mod` 2 ^ 64)%Z (_probe s)) s in
      if is_closed (_conn_gate s1) then (s1, Failed gate_closed_exception)
      else
        let i := length (contexts s1) in
        let ctx := {| _h := h; pr := false; ctx_conn := c; ctx_method := m;
                      ctx_units := 0; ctx_suspended := false;
                      ctx_reply := Running |} in
        (record_call (CallInvoke i)
           (set_gate (gate_enter (_conn_gate s1))
              (set_contexts (contexts s1 ++ [ctx]) s1)),
         AwaitingBody i)
  end.

(** [server::continous_method_dispath] on connection [c], one reactor
    task at a time: the stop condition of [do_until], the continuation of
    [parse_header], the continuation of the body-parse future; once the
    loop has resolved, the [then_wrapped] of [accept]. *)
Definition continous_method_dispath (c : nat) (s : server) : option server :=
  conn ← _connections s !! c;
  match c_dispatch conn with
  | AtCondition =>
      if in_eof (c_input conn) || _as s
      then Some (update_connection (conn_set_dispatch Finished) c s)
      else Some (update_connection (conn_set_dispatch ParsingHeader) c s)
  | ParsingHeader =>
      let '(h, rest) := parse_header (c_input conn) in
      let s1 := update_connection (conn_set_input rest) c s in
      match h with
      | None =>
          Some (update_connection (conn_set_dispatch AtCondition) c
                  (set_probe (header_corrupted (_probe s1)) s1))
      | Some h =>
          let '(s2, d) := dispatch_method_once h c s1 in
          Some (update_connection (conn_set_dispatch d) c s2)
      end
  | AwaitingBody i =>
      ctx ← contexts s !! i;
      if pr ctx then Some (update_connection (conn_set_dispatch AtCondition) c s)
      else None
  | Finished | Failed _ => Some (closing_client c s)
  | Closed => None
  end.

End Dispatch.

(** The continuation that [dispatch_method_once] chains on the handler of
    context [i], run when the handler resolves with the reply buffer [n]:
    stamp, write or skip, then the [finally] blocks and the gate. *)
Definition reply_continuation (i : nat) (n : netbuf) (s : server) : option server :=
  ctx ← contexts s !! i;
  let n := set_correlation_id (correlation_id (get_header ctx)) n in
  let view := as_scattered n in
  let s1 :=
    if is_closed (_conn_gate s)
    then update_context (ctx_set_reply (Skipped view)) i s
    else record_call (CallWrite (ctx_conn ctx) view)
           (update_connection (conn_append_written view) (ctx_conn ctx)
              (update_context (ctx_set_reply (Written view)) i s)) in
  Some (set_gate (gate_leave (_conn_gate s1))
          (set_probe (request_completed (_probe s1)) s1)).

(** Connections still linked in [_connections]: a connection object lives
    as long as its dispatch fiber or a handler fiber holds the shared
    pointer. *)
Definition linked (s : server) (c : nat) : bool :=
  match _connections s !! c with
  | None => false
  | Some conn =>
      is_open (c_dispatch conn)
      || existsb (λ x, is_running x && (ctx_conn x =? c)) (contexts s)
  end.

Definition registry (s : server) : list nat :=
  List.filter (linked s) (seq 0 (length (_connections s))).

Definition abort_accept (s : server) (l : nat) : server :=
  record_call (CallAbortAccept l)
    (set_listeners (alter listener_abort l (_listeners s)) s).

Definition request_abort (s : server) : server :=
  record_call CallRequestAbort (set_as true s).

Definition shutdown_input (s : server) (c : nat) : server :=
  record_call (CallShutdownInput c) (update_connection conn_shutdown_input c s).

Definition shutdown (s : server) (c : nat) : server :=
  record_call (CallShutdown c) (update_connection conn_shutdown c s).

(** [server::stop], up to the point where it awaits [_conn_gate.close()]. *)
Definition stop (s : server) : server :=
  let s1 := foldl abort_accept s (seq 0 (length (_listeners s))) in
  let s2 := request_abort s1 in
  let s3 := foldl shutdown_input s2 (registry s2) in
  set_lifecycle Draining
    (record_call CallGateClose (set_gate (gate_close (_conn_gate s3)) s3)).

(** The continuation of [_conn_gate.close()] in [server::stop]; the future
    of [stop] resolves after it. *)
Definition stop_continuation (s : server) : server :=
  set_lifecycle Stopped (foldl shutdown s (registry s)).

(** [server::setup_metrics]: the gauges of the [rpc] group (registered
    services, configured memory cap, consumed memory), read off the state;
    the constructor registers them unless [disable_metrics] is set. *)
Definition setup_metrics (s : server) : nat * Z * Z :=
  (length (_services s),
   max_service_memory_per_core (cfg s),
   (max_service_memory_per_core (cfg s) - sem_count (_memory s))%Z).

Definition metrics (s : server) : option (nat * Z * Z) :=
  if disable_metrics (cfg s) then None else Some (setup_metrics s).

(** ** The reactor *)

Inductive event :=
| EvAccept (l : nat) (f_cs_sa : option accept_result)
| EvDispatch (c : nat)
| EvRead (i : nat) (k : nat)
| EvReserve (i : nat) (ask : Z)
| EvSignal (i : nat)
| EvResolve (i : nat) (n : netbuf)
| EvStop
| EvGateClosed.

Section Reactor.

Variable header_size : Z.
Variable parse_header : input_stream → option header * input_stream.

(** One task of the reactor; [None] when the task cannot run in [s].
    Handlers follow the method contract: a handler reads the body, calls
    [signal_body_parse] once, and then resolves with its reply buffer. *)
Definition step (e : event) (s : server) : option server :=
  match e with
  | EvAccept l f_cs_sa => accept l f_cs_sa s
  | EvDispatch c => continous_method_dispath header_size parse_header c s
  | EvRead i k =>
      ctx ← contexts s !! i;
      if runnable ctx && negb (pr ctx)
      then Some (update_connection
                   (λ conn, conn_set_input (read_exactly k (c_input conn)) conn)
                   (ctx_conn ctx) s)
      else None
  | EvReserve i ask =>
      ctx ← contexts s !! i;
      if runnable ctx then Some (reserve_memory i ask s) else None
  | EvSignal i =>
      ctx ← contexts s !! i;
      if runnable ctx && negb (pr ctx) then Some (signal_body_parse i s) else None
  | EvResolve i n =>
      ctx ← contexts s !! i;
      if runnable ctx && pr ctx then reply_continuation i n (return_units i s) else None
  | EvStop =>
      match lifecycle s with
      | Serving => Some (stop s)
      | _ => None
      end
  | EvGateClosed =>
      match lifecycle s with
      | Draining =>
          if bool_decide (g_count (_conn_gate s) = 0)
          then Some (stop_continuation s) else None
      | _ => None
      end
  end.

Fixpoint run (schedule : list event) (s : server) : option server :=
  match schedule with
  | [] => Some s
  | e :: rest =>
      match step e s with
      | Some s' => run rest s'
      | None => None
      end
  end.

(** States of a server that was constructed, had its services registered,
    was started, and then ran some schedule. *)
Definition reachable (s : server) : Prop :=
  ∃ c services listens schedule s0,
    start listens (foldl (λ s srvc, register_service srvc s) (server_new c) services)
      = Some s0
    ∧ run schedule s0 = Some s.

End Reactor.

(** ** A concrete deployment, to run the model on *)

Module Demo.

(** Modelled from the spec: the size of the fixed-width header of section 3
    (rpc/types.h is not among the sources), one cell per field. *)
Definition header_size : Z := 6.

(** Modelled from the spec: a header codec in the sense of section 4.A
    (rpc/parse_utils.h is not among the sources).  It reads [header_size]
    cells, checks the checksum against the other fields, and answers
    absent on a bad checksum or a short read. *)
Definition parse_header (i : input_stream) : option header * input_stream :=
  match in_buf i with
  | v :: f :: m :: sz :: ck :: cid :: rest =>
      (if bool_decide (ck = (v + f + m + sz + cid) `mod` 256)%Z
       then Some (Header v f m sz ck cid) else None,
       {| in_buf := rest; in_eof := in_eof i |})
  | _ => (None, {| in_buf := []; in_eof := true |})
  end.

(** A request frame for method [m] with one body byte. *)
Definition frame (m cid body : Z) : list Z :=
  [0; 0; m; 1; (m + 1 + cid) `mod` 256; cid; body]%Z.

Definition echo : service :=
  {| method_from_id := λ id, if bool_decide (id = 1%Z) then Some (Method 0) else None |}.

Definition shadow : service :=
  {| method_from_id := λ id, if bool_decide (id = 1%Z) then Some (Method 7) else None |}.

Definition config : server_configuration :=
  {| addrs := [9092%Z]; max_service_memory_per_core := 1024;
     credentials := false; disable_metrics := true |}.

Definition booted : server :=
  default (server_new config)
    (start (λ _, true) (register_service shadow (register_service echo (server_new config)))).

Definition client (bytes : list Z) : event :=
  EvAccept 0 (Some {| remote_address := 1; sent := bytes |}).

Definition exec (schedule : list event) (s : server) : server :=
  default s (run header_size parse_header schedule s).

(** Two requests for the echo method, correlation ids 1 and 2, and the
    reply buffers their handlers produce. *)
Definition request1 : header := Header 0 0 1 1 3 1.
Definition request2 : header := Header 0 0 1 1 4 2.
Definition reply1 : netbuf := {| nb_correlation_id := 0; nb_payload := [101%Z] |}.
Definition reply2 : netbuf := {| nb_correlation_id := 0; nb_payload := [102%Z] |}.

(** One client sends both requests; both handlers are started in arrival
    order and have signalled their bodies parsed. *)
Definition pipelined : list event :=
  [client (frame 1 1 9 ++ frame 1 2 9);
   EvDispatch 0; EvDispatch 0; EvRead 0 1; EvSignal 0;
   EvDispatch 0; EvDispatch 0; EvDispatch 0; EvRead 1 1; EvSignal 1].

(** The handler of the second request resolves first. *)
Definition overtaking : list event :=
  pipelined ++ [EvResolve 1 reply2; EvResolve 0 reply1].

(** [stop] with both handlers in flight, then the drain. *)
Definition draining : list event :=
  [EvAccept 0 None; EvResolve 1 reply2; EvResolve 0 reply1;
   EvDispatch 0; EvDispatch 0; EvDispatch 0; EvGateClosed].

(** A client whose first header has a bad checksum (and announces no
    body), followed by a well-formed request. *)
Definition garbled : list event :=
  [client ([0; 0; 1; 0; 99; 5]%Z ++ frame 1 2 9); EvDispatch 0].

(** A client asking for method 2, which no service has. *)
Definition misdirected : list event :=
  [client (frame 2 1 9); EvDispatch 0].

(** A client with one well-formed request, its header about to be read. *)
Definition arriving : list event :=
  [client (frame 1 1 9); EvDispatch 0].

End Demo.

(** ** Observations on server states *)

(** How many elements of a list satisfy a test. *)
Fixpoint countb {A} (p : A → bool) (l : list A) : nat :=
  match l with
  | [] => 0
  | x :: rest => (if p x then 1 else 0) + countb p rest
  end.

(** Who is inside [_conn_gate]: the accept loops, the dispatch fibers that
    have not yet shut their connection down, and the handler fibers that
    have not resolved. *)
Definition gate_inv (s : server) : Prop :=
  g_count (_conn_gate s)
  = countb l_accepting (_listeners s)
    + countb (λ conn, is_open (c_dispatch conn)) (_connections s)
    + countb is_running (contexts s).

(** [stop] has closed the gate; once its future has resolved the gate is
    empty. *)
Definition lifecycle_inv (s : server) : Prop :=
  (lifecycle s ≠ Serving → g_closed (_conn_gate s) = true)
  ∧ (lifecycle s = Stopped → g_count (_conn_gate s) = 0).

(** Every context belongs to a connection of the server. *)
Definition contexts_inv (s : server) : Prop :=
  ∀ i x, contexts s !! i = Some x → ctx_conn x < length (_connections s).

Definition well_formed (s : server) : Prop :=
  gate_inv s ∧ lifecycle_inv s ∧ contexts_inv s.

(** The views handed to [write] on connection [c] so far. *)
Definition written_on (c : nat) (s : server) : list netbuf :=
  default [] (c_written <$> _connections s !! c).

(** The reply buffer [n] of context [x] as the continuation writes it. *)
Definition stamped (x : server_context_impl) (n : netbuf) : netbuf :=
  as_scattered (set_correlation_id (correlation_id (get_header x)) n).

(** The replies of the handlers on connection [c] that a schedule
    resolves, in the order the schedule resolves them. *)
Fixpoint resolved_on (xs : list server_context_impl) (c : nat) (schedule : list event)
    : list netbuf :=
  match schedule with
  | [] => []
  | EvResolve i n :: rest =>
      match xs !! i with
      | Some x =>
          if bool_decide (ctx_conn x = c)
          then stamped x n :: resolved_on xs c rest
          else resolved_on xs c rest
      | None => resolved_on xs c rest
      end
  | _ :: rest => resolved_on xs c rest
  end.

(** What one reactor task hands to [write] on connection [c]. *)
Definition written_by (e : event) (c : nat) (s : server) : list netbuf :=
  match e with
  | EvResolve i n =>
      match contexts s !! i with
      | Some x =>
          if bool_decide (ctx_conn x = c) && negb (is_closed (_conn_gate s))
          then [stamped x n] else []
      | None => []
      end
  | _ => []
  end.

(** Contexts are created in the order their headers are parsed, so on one
    connection a smaller index is an earlier request.  The statement that
    replies leave in arrival order: of two written replies on a connection,
    the one to the earlier request comes first in what was written. *)
Definition replies_in_arrival_order (s : server) : Prop :=
  ∀ c i j xi xj vi vj,
    i < j →
    contexts s !! i = Some xi → contexts s !! j = Some xj →
    ctx_conn xi = c → ctx_conn xj = c →
    ctx_reply xi = Written vi → ctx_reply xj = Written vj →
    ∃ pre mid post, written_on c s = pre ++ vi :: mid ++ vj :: post.

(** The part of a context that memory accounting leaves alone. *)
Definition core (x : server_context_impl) : header * bool * nat * method * reply_state :=
  (_h x, pr x, ctx_conn x, ctx_method x, ctx_reply x).

(** The part of a context that is fixed when it is created. *)
Definition identity (x : server_context_impl) : header * nat * method :=
  (_h x, ctx_conn x, ctx_method x).

(** ** The audit back-pressure fixture *)

Module Audit.

(** The event types the test names. *)
Inductive event_type := management | consume | authenticate | describe.

Definition event_type_eqb (a b : event_type) : bool :=
  match a, b with
  | management, management | consume, consume
  | authenticate, authenticate | describe, describe => true
  | _, _ => false
  end.

(** What [make_random_audit_event] returns, with the size the manager
    accounts for it. *)
Record application_lifecycle := ApplicationLifecycle {
  activity_id : Z;
  severity_id : Z;
  estimated_size : Z
}.

(** Modelled from the spec: [security::audit::audit_log_manager]
    (security/audit/audit_log_manager.h is not among the sources), one
    shard of it: whether auditing is effectively enabled, the configured
    event types, the reservation left of
    [audit_queue_max_buffer_size_per_shard], and the queued events. *)
Record audit_log_manager := AuditLogManager {
  is_effectively_enabled : bool;
  audit_enabled_event_types : list event_type;
  avaiable_reservation : Z;
  queue : list application_lifecycle
}.

Definition pending_events (m : audit_log_manager) : nat := length (queue m).

(** Modelled from the spec: [audit_log_manager::enqueue_audit_event].
    With auditing off, or for a type that is not configured, the call is
    a no-op that reports success; otherwise the enqueue fails iff
    [available < event_size], and a successful enqueue takes the event's
    size out of the reservation. *)
Definition enqueue_audit_event (type : event_type) (ev : application_lifecycle)
    (m : audit_log_manager) : bool * audit_log_manager :=
  if negb (is_effectively_enabled m) then (true, m)
  else if negb (existsb (event_type_eqb type) (audit_enabled_event_types m)) then (true, m)
  else if (avaiable_reservation m <? estimated_size ev)%Z then (false, m)
  else (true,
        {| is_effectively_enabled := is_effectively_enabled m;
           audit_enabled_event_types := audit_enabled_event_types m;
           avaiable_reservation := avaiable_reservation m - estimated_size ev;
           queue := queue m ++ [ev] |}).

(** Modelled from the spec: the drain fiber sends the queued records and
    gives their reservation back. *)
Definition drain (m : audit_log_manager) : audit_log_manager :=
  {| is_effectively_enabled := is_effectively_enabled m;
     audit_enabled_event_types := audit_enabled_event_types m;
     avaiable_reservation :=
       avaiable_reservation m + foldr Z.add 0%Z (estimated_size <$> queue m);
     queue := [] |}.

(** The [enqueue_some] lambda of [test_audit_init_phase]; [events] are the
    events [make_random_audit_event] yields on the successive iterations. *)
Fixpoint enqueue_some_from (success : bool) (event_size : Z)
    (events : list application_lifecycle) (m : audit_log_manager)
    : bool * audit_log_manager :=
  match events with
  | [] => (success, m)
  | ev :: rest =>
      let can_enqueue := (event_size <=? avaiable_reservation m)%Z in
      let '(enqueued, m') := enqueue_audit_event management ev m in
      enqueue_some_from
        (if enqueued then success && can_enqueue else success && negb can_enqueue)
        event_size rest m'
  end.

Definition enqueue_some (event_size : Z) (events : list application_lifecycle)
    (m : audit_log_manager) : bool * audit_log_manager :=
  enqueue_some_from true event_size events m.

(** What happens to one shard's manager between and at the attempts. *)
Inductive operation :=
| Enqueue (type : event_type) (ev : application_lifecycle)
| Drain.

(** For every enqueue attempt of a sequence: what was predicted from the
    reservation at the instant of the attempt ([available >= size]) and
    what the call returned. *)
Fixpoint attempts (ops : list operation) (m : audit_log_manager) : list (bool * bool) :=
  match ops with
  | [] => []
  | Enqueue type ev :: rest =>
      let predicted := (estimated_size ev <=? avaiable_reservation m)%Z in
      let '(observed, m') := enqueue_audit_event type ev m in
      (predicted, observed) :: attempts rest m'
  | Drain :: rest => attempts rest (drain m)
  end.

Definition configured (type : event_type) (m : audit_log_manager) : bool :=
  existsb (event_type_eqb type) (audit_enabled_event_types m).

Definition operation_configured (m : audit_log_manager) (o : operation) : bool :=
  match o with
  | Enqueue type _ => configured type m
  | Drain => true
  end.

(** A shard with room for two events of size 10, and a test run on it. *)
Definition event10 : application_lifecycle :=
  {| activity_id := 1; severity_id := 1; estimated_size := 10 |}.

Definition shard : audit_log_manager :=
  {| is_effectively_enabled := true;
     audit_enabled_event_types := [management; consume];
     avaiable_reservation := 25;
     queue := [] |}.

Definition session : list operation :=
  [Enqueue management event10; Enqueue consume event10;
   Enqueue management event10; Drain; Enqueue management event10].

End Audit.

(** ** Further observations *)

(** The memory units the handlers hold. *)
Definition held_units (xs : list server_context_impl) : Z :=
  foldr (λ x acc, (ctx_units x + acc)%Z) 0%Z xs.

(** The units a list of grants hands out. *)
Definition granted_units (grants : list (nat * Z)) : Z :=
  foldr (λ g acc, (g.2 + acc)%Z) 0%Z grants.

(** A handler never asks for a negative amount ([size_t ask]). *)
Definition sane_event (e : event) : Prop :=
  match e with
  | EvReserve _ ask => (0 ≤ ask)%Z
  | _ => True
  end.

(** The books of the admission controller: units are either available or
    held by a handler, and whoever queues in the semaphore is a handler of
    the server. *)
Definition memory_inv (s : server) : Prop :=
  (sem_count (_memory s) + held_units (contexts s))%Z
    = max_service_memory_per_core (cfg s)
  ∧ Forall (λ w, w.1 < length (contexts s)) (sem_wait_list (_memory s)).

(** Whoever queues in the semaphore is a running handler suspended in
    [reserve_memory], and queues once. *)
Definition waiting (xs : list server_context_impl) (w : nat * Z) : Prop :=
  ∃ x, xs !! w.1 = Some x ∧ ctx_suspended x = true ∧ is_running x = true.

Definition waiters_inv (s : server) : Prop :=
  Forall (waiting (contexts s)) (sem_wait_list (_memory s))
  ∧ NoDup (sem_wait_list (_memory s)).*1.

Definition nonneg_inv (s : server) : Prop :=
  (0 ≤ sem_count (_memory s))%Z
  ∧ Forall (λ x, (0 ≤ ctx_units x)%Z) (contexts s)
  ∧ Forall (λ w, (0 ≤ w.2)%Z) (sem_wait_list (_memory s)).

Definition is_finished (x : server_context_impl) : bool := negb (is_running x).

(** The bytes [dispatch_method_once] accounts for the requests whose
    handlers were started. *)
Definition accounted (header_size : Z) (xs : list server_context_impl) : Z :=
  foldr (λ x acc, ((header_size + size (get_header x)) `mod` 2 ^ 64 + acc)%Z) 0%Z xs.

(** The reply of a context, if it was written on connection [c]. *)
Definition written_reply (c : nat) (x : server_context_impl) : option netbuf :=
  match ctx_reply x with
  | Written view => if bool_decide (ctx_conn x = c) then Some view else None
  | _ => None
  end.

(** A connection that reached [Closed] was shut down. *)
Definition closed_inv (s : server) : Prop :=
  Forall (λ conn, c_dispatch conn = Closed → c_shutdown conn = true) (_connections s).

(** A handler that has not signalled yet is the one its connection's loop
    waits for. *)
Definition exclusive_input (s : server) : Prop :=
  ∀ i x conn,
    contexts s !! i = Some x → is_running x = true → pr x = false →
    _connections s !! ctx_conn x = Some conn →
    c_dispatch conn = AwaitingBody i.

(** The connection on whose behalf a task runs: the loop of a connection,
    or a handler that was started on it. *)
Definition task_connection (s : server) (e : event) : option nat :=
  match e with
  | EvDispatch c => Some c
  | EvRead i _ | EvReserve i _ | EvSignal i | EvResolve i _ =>
      ctx_conn <$> contexts s !! i
  | _ => None
  end.

(** While the server serves nothing was aborted: the gate is open and
    every accept loop is listening. *)
Definition serving_inv (s : server) : Prop :=
  lifecycle s = Serving →
  _as s = false ∧ g_closed (_conn_gate s) = false
  ∧ Forall (λ l, l_accepting l = true ∧ l_aborted l = false) (_listeners s).

(** The accept futures of all listeners fail, in listener order (what
    [abort_accept] causes). *)
Definition accepts_aborted (n : nat) : list event :=
  (λ l, EvAccept l None) <$> seq 0 n.

(** ** The rest of the audit test *)

Module AuditTest.

Import Audit.




End AuditTest.

(** * Properties *)

(** ** Lists *)

Lemma countb_app {A} (p : A → bool) (l k : list A) :
  countb p (l ++ k) = countb p l + countb p k.
Proof. induction l as [|x l IH]; simpl; [done | rewrite IH; lia]. Qed.

Lemma countb_alter {A} (p : A → bool) (f : A → A) (l : list A) (i : nat) (x : A) :
  l !! i = Some x →
  countb p (alter f i l) + (if p x then 1 else 0)
  = countb p l + (if p (f x) then 1 else 0).
Proof.
  revert i. induction l as [|y l IH]; intros [|i] Hi; simplify_eq/=.
  - lia.
  - specialize (IH _ Hi). lia.
Qed.

Lemma countb_alter_same {A} (p : A → bool) (f : A → A) (l : list A) (i : nat) :
  (∀ x, p (f x) = p x) → countb p (alter f i l) = countb p l.
Proof.
  intros Hf. revert i. induction l as [|y l IH]; intros [|i]; simpl; auto.
  - by rewrite Hf.
  - f_equal. apply IH.
Qed.

Lemma countb_fmap {A B} (f : A → B) (p : A → bool) (q : B → bool) (l : list A) :
  (∀ x, p x = q (f x)) → countb p l = countb q (f <$> l).
Proof. intros Hpq. induction l as [|x l IH]; simpl; [done | by rewrite Hpq, IH]. Qed.

Lemma countb_zero {A} (p : A → bool) (l : list A) (i : nat) (x : A) :
  countb p l = 0 → l !! i = Some x → p x = false.
Proof.
  revert i. induction l as [|y l IH]; intros [|i] Hc Hi; simplify_eq/=.
  - destruct (p x); [lia | done].
  - apply (IH i); [lia | done].
Qed.

Lemma countb_pos {A} (p : A → bool) (l : list A) (i : nat) (x : A) :
  l !! i = Some x → p x = true → 0 < countb p l.
Proof.
  intros Hi Hp. destruct (countb p l) eqn:Hc; [| lia].
  rewrite (countb_zero p l i x Hc Hi) in Hp. done.
Qed.

Lemma fmap_alter_same {A B} (f : A → B) (g : A → A) (l : list A) (i : nat) :
  (∀ x, f (g x) = f x) → f <$> alter g i l = f <$> l.
Proof.
  intros Hfg. revert i. induction l as [|y l IH]; intros [|i]; simpl; auto.
  - by rewrite Hfg.
  - f_equal. apply IH.
Qed.

Lemma fmap_eq_lookup {A B} (f : A → B) (l l' : list A) (i : nat) (x : A) :
  f <$> l' = f <$> l → l !! i = Some x → ∃ x', l' !! i = Some x' ∧ f x' = f x.
Proof.
  intros Heq Hi.
  assert (Hl : (f <$> l') !! i = Some (f x)) by (by rewrite Heq, list_lookup_fmap, Hi).
  rewrite list_lookup_fmap in Hl.
  destruct (l' !! i) as [x'|]; simplify_eq/=. eauto.
Qed.

Lemma foldl_keeps {A} (P : server → Prop) (f : server → A → server) (l : list A) (s : server) :
  (∀ s x, P s → P (f s x)) → P s → P (foldl f s l).
Proof. intros Hf. revert s. induction l; simpl; auto. Qed.

Lemma foldl_proj {A B} (π : server → B) (f : server → A → server) (l : list A) (s : server) :
  (∀ s x, π (f s x) = π s) → π (foldl f s l) = π s.
Proof.
  intros Hf. apply (foldl_keeps (λ s', π s' = π s)); [| done].
  intros s' x Hs'. by rewrite Hf.
Qed.

Lemma foldl_calls {A} (f : server → A → server) (k : A → call) (l : list A) (s : server) :
  (∀ s x, calls (f s x) = calls s ++ [k x]) →
  calls (foldl f s l) = calls s ++ (k <$> l).
Proof.
  intros Hf. revert s. induction l as [|x l IH]; intros s; simpl.
  - by rewrite app_nil_r.
  - rewrite IH, Hf, <- app_assoc. done.
Qed.

(** ** What the memory accounting leaves alone *)

Lemma grants_core (granted : list (nat * Z)) (xs : list server_context_impl) :
  core <$> foldl (λ xs g, alter (ctx_grant g.2) g.1 xs) xs granted = core <$> xs.
Proof.
  revert xs. induction granted as [|g granted IH]; intros xs; simpl; [done |].
  rewrite IH. by apply fmap_alter_same.
Qed.

Lemma return_units_core i s :
  core <$> contexts (return_units i s) = core <$> contexts s.
Proof.
  unfold return_units. destruct (contexts s !! i); [| done].
  destruct (wake _ _) as [[count granted] staying]; simpl.
  rewrite grants_core. by apply fmap_alter_same.
Qed.

Lemma return_units_frame i s :
  _connections (return_units i s) = _connections s
  ∧ _conn_gate (return_units i s) = _conn_gate s
  ∧ _listeners (return_units i s) = _listeners s
  ∧ _probe (return_units i s) = _probe s
  ∧ _as (return_units i s) = _as s
  ∧ _services (return_units i s) = _services s
  ∧ lifecycle (return_units i s) = lifecycle s
  ∧ calls (return_units i s) = calls s.
Proof.
  unfold return_units. destruct (contexts s !! i); [| done].
  by destruct (wake _ _) as [[count granted] staying].
Qed.

Lemma return_units_lookup i s j x :
  contexts s !! j = Some x →
  ∃ x', contexts (return_units i s) !! j = Some x' ∧ core x' = core x.
Proof. apply fmap_eq_lookup, return_units_core. Qed.

Lemma return_units_lookup_inv i s j x' :
  contexts (return_units i s) !! j = Some x' →
  ∃ x, contexts s !! j = Some x ∧ core x' = core x.
Proof.
  intros H.
  destruct (fmap_eq_lookup core (contexts (return_units i s)) (contexts s) j x')
    as (x & ? & ?); eauto.
  by rewrite return_units_core.
Qed.

Lemma running_core (l l' : list server_context_impl) :
  core <$> l' = core <$> l → countb is_running l' = countb is_running l.
Proof.
  intros Heq.
  rewrite !(countb_fmap core is_running
              (λ k, match k.2 with Running => true | _ => false end)) by done.
  by rewrite Heq.
Qed.

(** The registry is read off the connections and the contexts. *)
Lemma registry_ext s s' :
  _connections s' = _connections s → contexts s' = contexts s →
  registry s' = registry s.
Proof.
  intros Hc Hx. unfold registry. rewrite Hc.
  apply filter_ext. intros c. unfold linked. by rewrite Hc, Hx.
Qed.

Lemma alter_missing {A} (f : A → A) (l : list A) (i : nat) :
  l !! i = None → alter f i l = l.
Proof.
  intros Hi. rewrite (list_alter_ext f id l l i); [by apply list_alter_id | | done].
  intros x Hx. congruence.
Qed.

Lemma countb_alter_lookup {A} (p : A → bool) (f : A → A) (l : list A) (i : nat) :
  countb p (alter f i l) + from_option (λ x, if p x then 1 else 0) 0 (l !! i)
  = countb p l + from_option (λ x, if p (f x) then 1 else 0) 0 (l !! i).
Proof.
  destruct (l !! i) as [x|] eqn:Hi; simpl.
  - by apply countb_alter.
  - by rewrite alter_missing.
Qed.

Lemma open_count (l : list connection) :
  countb (λ conn, is_open (c_dispatch conn)) l = countb is_open (c_dispatch <$> l).
Proof. by apply countb_fmap. Qed.

(** ** What [stop] touches *)

Lemma abort_accept_all_frame s ls :
  let s' := foldl abort_accept s ls in
  _connections s' = _connections s ∧ contexts s' = contexts s
  ∧ _conn_gate s' = _conn_gate s ∧ _probe s' = _probe s
  ∧ _memory s' = _memory s ∧ _as s' = _as s ∧ lifecycle s' = lifecycle s
  ∧ _services s' = _services s
  ∧ countb l_accepting (_listeners s') = countb l_accepting (_listeners s)
  ∧ calls s' = calls s ++ (CallAbortAccept <$> ls).
Proof.
  simpl. repeat split.
  1-8: by apply (foldl_proj _ abort_accept).
  - apply (foldl_proj (λ s, countb l_accepting (_listeners s)) abort_accept).
    intros s0 l. simpl. by apply countb_alter_same.
  - by apply foldl_calls.
Qed.

Lemma shutdown_input_all_frame s cs :
  let s' := foldl shutdown_input s cs in
  _listeners s' = _listeners s ∧ contexts s' = contexts s
  ∧ _conn_gate s' = _conn_gate s ∧ _probe s' = _probe s
  ∧ _memory s' = _memory s ∧ _as s' = _as s ∧ lifecycle s' = lifecycle s
  ∧ _services s' = _services s
  ∧ c_dispatch <$> _connections s' = c_dispatch <$> _connections s
  ∧ c_written <$> _connections s' = c_written <$> _connections s
  ∧ calls s' = calls s ++ (CallShutdownInput <$> cs).
Proof.
  simpl. repeat split.
  1-8: by apply (foldl_proj _ shutdown_input).
  - apply (foldl_proj (λ s, c_dispatch <$> _connections s) shutdown_input).
    intros s0 c. simpl. by apply fmap_alter_same.
  - apply (foldl_proj (λ s, c_written <$> _connections s) shutdown_input).
    intros s0 c. simpl. by apply fmap_alter_same.
  - by apply foldl_calls.
Qed.

Lemma shutdown_all_frame s cs :
  let s' := foldl shutdown s cs in
  _listeners s' = _listeners s ∧ contexts s' = contexts s
  ∧ _conn_gate s' = _conn_gate s ∧ _probe s' = _probe s
  ∧ _memory s' = _memory s ∧ _as s' = _as s ∧ lifecycle s' = lifecycle s
  ∧ _services s' = _services s
  ∧ c_dispatch <$> _connections s' = c_dispatch <$> _connections s
  ∧ c_written <$> _connections s' = c_written <$> _connections s
  ∧ calls s' = calls s ++ (CallShutdown <$> cs).
Proof.
  simpl. repeat split.
  1-8: by apply (foldl_proj _ shutdown).
  - apply (foldl_proj (λ s, c_dispatch <$> _connections s) shutdown).
    intros s0 c. simpl. by apply fmap_alter_same.
  - apply (foldl_proj (λ s, c_written <$> _connections s) shutdown).
    intros s0 c. simpl. by apply fmap_alter_same.
  - by apply foldl_calls.
Qed.

Lemma stop_frame s :
  contexts (stop s) = contexts s
  ∧ _probe (stop s) = _probe s ∧ _memory (stop s) = _memory s
  ∧ _services (stop s) = _services s
  ∧ g_count (_conn_gate (stop s)) = g_count (_conn_gate s)
  ∧ g_closed (_conn_gate (stop s)) = true
  ∧ _as (stop s) = true ∧ lifecycle (stop s) = Draining
  ∧ countb l_accepting (_listeners (stop s)) = countb l_accepting (_listeners s)
  ∧ c_dispatch <$> _connections (stop s) = c_dispatch <$> _connections s
  ∧ c_written <$> _connections (stop s) = c_written <$> _connections s.
Proof.
  unfold stop.
  set (s1 := foldl abort_accept s (seq 0 (length (_listeners s)))).
  set (s2 := request_abort s1).
  destruct (abort_accept_all_frame s (seq 0 (length (_listeners s))))
    as (Hc & Hx & Hg & Hp & Hm & Ha & Hl & Hs & Hn & _). fold s1 in Hc, Hx, Hg, Hp, Hm, Ha, Hl, Hs, Hn.
  destruct (shutdown_input_all_frame s2 (registry s2))
    as (Hc' & Hx' & Hg' & Hp' & Hm' & Ha' & Hl' & Hs' & Hd' & Hw' & _).
  simpl in *.
  rewrite Hx', Hp', Hm', Hs', Hg', Hc', Hd', Hw'. simpl.
  rewrite Hx, Hp, Hm, Hs, Hg, Hn, Hc. done.
Qed.

Lemma stop_calls s :
  calls (stop s)
  = calls s ++ (CallAbortAccept <$> seq 0 (length (_listeners s)))
      ++ [CallRequestAbort]
      ++ (CallShutdownInput <$> registry s)
      ++ [CallGateClose].
Proof.
  unfold stop.
  set (s1 := foldl abort_accept s (seq 0 (length (_listeners s)))).
  set (s2 := request_abort s1).
  destruct (abort_accept_all_frame s (seq 0 (length (_listeners s))))
    as (Hc & Hx & _ & _ & _ & _ & _ & _ & _ & Hk). fold s1 in Hc, Hx, Hk.
  destruct (shutdown_input_all_frame s2 (registry s2))
    as (_ & _ & _ & _ & _ & _ & _ & _ & _ & _ & Hk').
  simpl in *. rewrite Hk'. simpl. rewrite Hk.
  rewrite (registry_ext s s2) by done.
  by rewrite <- !app_assoc.
Qed.

Lemma stop_continuation_frame s :
  contexts (stop_continuation s) = contexts s
  ∧ _probe (stop_continuation s) = _probe s
  ∧ _memory (stop_continuation s) = _memory s
  ∧ _services (stop_continuation s) = _services s
  ∧ _conn_gate (stop_continuation s) = _conn_gate s
  ∧ _listeners (stop_continuation s) = _listeners s
  ∧ _as (stop_continuation s) = _as s
  ∧ lifecycle (stop_continuation s) = Stopped
  ∧ c_dispatch <$> _connections (stop_continuation s) = c_dispatch <$> _connections s
  ∧ c_written <$> _connections (stop_continuation s) = c_written <$> _connections s
  ∧ calls (stop_continuation s) = calls s ++ (CallShutdown <$> registry s).
Proof.
  unfold stop_continuation.
  destruct (shutdown_all_frame s (registry s))
    as (Hl & Hx & Hg & Hp & Hm & Ha & _ & Hs & Hd & Hw & Hk).
  simpl in *. by rewrite Hl, Hx, Hg, Hp, Hm, Ha, Hs, Hd, Hw, Hk.
Qed.

Lemma return_units_same i s j x x' :
  contexts s !! j = Some x → contexts (return_units i s) !! j = Some x' →
  core x' = core x.
Proof.
  intros Hx Hx'. destruct (return_units_lookup i s j x Hx) as (y & Hy & Hc). congruence.
Qed.

Lemma identity_core (l l' : list server_context_impl) :
  core <$> l' = core <$> l → identity <$> l' = identity <$> l.
Proof.
  intros Heq.
  assert (Hid : ∀ k : list server_context_impl,
             identity <$> k = (λ t, (t.1.1.1.1, t.1.1.2, t.1.2)) <$> (core <$> k)).
  { intros k. rewrite <- list_fmap_compose. done. }
  by rewrite !Hid, Heq.
Qed.

(** ** Case analysis of one reactor task *)

Local Opaque stop stop_continuation return_units.

Ltac step_cases H :=
  unfold step, accept, continous_method_dispath, dispatch_method_once,
    reply_continuation, reserve_memory, signal_body_parse, closing_client,
    accept_loop_exit, get_units in H;
  repeat (simplify_option_eq || case_match).

Ltac count_alters :=
  repeat match goal with
  | |- context [countb ?p (alter ?f ?i ?l)] =>
      let E := fresh "E" in
      pose proof (countb_alter_lookup p f l i) as E;
      revert E; generalize (countb p (alter f i l))
  end;
  intros.

Ltac use_frames :=
  try match goal with
  | Hx : contexts ?s !! ?j = Some ?x,
    Hx' : contexts (return_units ?i ?s) !! ?j = Some ?x' |- _ =>
      let C := fresh "C" in
      pose proof (return_units_same i s j x x' Hx Hx') as C;
      unfold core in C; simplify_eq
  end;
  repeat match goal with
  | |- context [return_units ?i ?s] =>
      let F := fresh "F" in
      pose proof (return_units_frame i s) as F;
      pose proof (running_core _ _ (return_units_core i s));
      pose proof (identity_core _ _ (return_units_core i s));
      pose proof (return_units_core i s);
      generalize dependent (return_units i s); intros;
      destruct F as (? & ? & ? & ? & ? & ? & ? & ?)
  | |- context [stop ?s] =>
      let F := fresh "F" in
      pose proof (stop_frame s) as F;
      pose proof (open_count (_connections (stop s)));
      pose proof (open_count (_connections s));
      generalize dependent (stop s); intros;
      destruct F as (? & ? & ? & ? & ? & ? & ? & ? & ? & ? & ?)
  | |- context [stop_continuation ?s] =>
      let F := fresh "F" in
      pose proof (stop_continuation_frame s) as F;
      pose proof (open_count (_connections (stop_continuation s)));
      pose proof (open_count (_connections s));
      generalize dependent (stop_continuation s); intros;
      destruct F as (? & ? & ? & ? & ? & ? & ? & ? & ? & ? & ?)
  end.

Ltac rewrite_frames :=
  repeat match goal with
  | H : ?p ?a = ?p ?b |- _ => is_var a; is_var b; progress rewrite H in *
  | H : ?p (?q ?a) = ?p (?q ?b) |- _ => is_var a; is_var b; progress rewrite H in *
  | H : ?p (?q ?a) = _ |- _ => is_var a; progress rewrite H in *
  end.

Ltac bools :=
  unfold runnable, is_running, is_closed in *;
  repeat match goal with
  | H : _ && _ = true |- _ => apply andb_prop in H as [? ?]
  | H : negb _ = true |- _ => apply negb_true_iff in H
  | H : negb _ = false |- _ => apply negb_false_iff in H
  | H : bool_decide _ = true |- _ => apply bool_decide_eq_true in H
  | H : bool_decide _ = false |- _ => apply bool_decide_eq_false in H
  end.

Ltac rewrite_lookups :=
  rewrite ?list_lookup_alter_eq in *;
  repeat match goal with
  | H : ?l !! ?i = Some _ |- _ => progress rewrite H in *
  | H : c_dispatch _ = _ |- _ => progress rewrite H in *
  | H : l_accepting _ = _ |- _ => progress rewrite H in *
  | H : ctx_reply _ = _ |- _ => progress rewrite H in *
  | _ => progress simpl in *
  end.

Section Invariants.

Variable header_size : Z.
Variable parse_header : input_stream → option header * input_stream.

Local Abbreviation step := (step header_size parse_header).
Local Abbreviation run := (run header_size parse_header).

Lemma step_gate_inv e s s' : gate_inv s → step e s = Some s' → gate_inv s'.
Proof.
  intros Hinv H. destruct e; step_cases H; unfold gate_inv in *; simpl in *.
  all: rewrite ?countb_app; simpl.
  all: use_frames.
  all: count_alters; bools.
  all: rewrite_lookups.
  all: try (repeat case_match; simplify_eq/=; lia).
  all: rewrite_frames.
  all: repeat case_match; simplify_eq/=; lia.
Qed.

Lemma step_closed e s s' :
  step e s = Some s' →
  g_closed (_conn_gate s) = true → g_closed (_conn_gate s') = true.
Proof.
  intros H Hc. destruct e; step_cases H; simpl in *; auto.
  all: use_frames; bools; rewrite_frames; congruence.
Qed.

Lemma step_lifecycle_inv e s s' :
  lifecycle_inv s → step e s = Some s' → lifecycle_inv s'.
Proof.
  intros [Hd Hs] H. destruct e; step_cases H; unfold lifecycle_inv in *; simpl in *.
  all: use_frames; bools; rewrite_frames.
  all: split; intros; simplify_eq/=; auto.
  all: try (rewrite Hs; done).
  all: try (rewrite Hd in *; congruence).
  all: try congruence.
  all: assert (Hne : lifecycle s ≠ Serving) by congruence; specialize (Hd Hne); congruence.
Qed.

Lemma step_connections_length e s s' :
  step e s = Some s' → length (_connections s) ≤ length (_connections s').
Proof.
  intros H. destruct e; step_cases H; simpl in *.
  all: use_frames.
  all: rewrite ?length_app, ?length_alter; simpl; try lia.
  all: repeat match goal with
       | H : ?f <$> ?a = ?f <$> ?b |- _ =>
           apply (f_equal length) in H; rewrite !length_fmap in H
       end; rewrite_frames; lia.
Qed.

Lemma step_contexts_shape e s s' :
  step e s = Some s' →
  identity <$> contexts s' = identity <$> contexts s
  ∨ ∃ h c m,
      identity <$> contexts s' = (identity <$> contexts s) ++ [(h, c, m)]
      ∧ c < length (_connections s)
      ∧ g_closed (_conn_gate s) = false.
Proof.
  intros H. destruct e; step_cases H; simpl in *.
  all: use_frames; bools.
  all: rewrite ?(fmap_alter_same identity) by done.
  all: try (left; congruence).
  right. eexists _, _, _. rewrite fmap_app. split; [done |].
  split; [by eapply lookup_lt_Some | done].
Qed.

Lemma contexts_inv_identity s :
  contexts_inv s ↔
  ∀ j k, (identity <$> contexts s) !! j = Some k → k.1.2 < length (_connections s).
Proof.
  split.
  - intros Hinv j k Hk. rewrite list_lookup_fmap in Hk.
    apply fmap_Some in Hk as (x & Hx & ->). by apply (Hinv j).
  - intros Hinv j x Hx. apply (Hinv j (identity x)).
    by rewrite list_lookup_fmap, Hx.
Qed.

Lemma step_contexts_inv e s s' :
  contexts_inv s → step e s = Some s' → contexts_inv s'.
Proof.
  rewrite !contexts_inv_identity. intros Hinv H j k Hk.
  pose proof (step_connections_length _ _ _ H) as Hlen.
  destruct (step_contexts_shape _ _ _ H) as [Heq | (h & c & m & Heq & Hc & _)];
    rewrite Heq in Hk.
  - specialize (Hinv _ _ Hk). lia.
  - apply lookup_app_Some in Hk as [Hk | [_ Hk]].
    + specialize (Hinv _ _ Hk). lia.
    + apply list_lookup_singleton_Some in Hk as [_ <-]. simpl. lia.
Qed.

Lemma step_identity_prefix e s s' :
  step e s = Some s' →
  (identity <$> contexts s) `prefix_of` (identity <$> contexts s').
Proof.
  intros H. destruct (step_contexts_shape _ _ _ H) as [-> | (h & c & m & -> & _)].
  - done.
  - by apply prefix_app_r.
Qed.

Lemma step_closed_contexts e s s' :
  step e s = Some s' → g_closed (_conn_gate s) = true →
  length (contexts s') = length (contexts s).
Proof.
  intros H Hc.
  destruct (step_contexts_shape _ _ _ H) as [Heq | (h & c & m & _ & _ & Ho)];
    [| congruence].
  apply (f_equal length) in Heq. by rewrite !length_fmap in Heq.
Qed.

Lemma written_on_fmap c s :
  written_on c s = default [] ((c_written <$> _connections s) !! c).
Proof. unfold written_on. by rewrite list_lookup_fmap. Qed.

Lemma default_lookup_snoc_nil {A} (L : list (list A)) (c : nat) :
  default [] ((L ++ [[]]) !! c) = default [] (L !! c).
Proof.
  destruct (decide (c < length L)) as [Hc | Hc].
  - by rewrite lookup_app_l.
  - rewrite lookup_app_r by lia. rewrite (lookup_ge_None_2 L) by lia.
    by destruct (c - length L) as [|[|?]].
Qed.

Lemma step_written e s s' c :
  (g_closed (_conn_gate s) = false → contexts_inv s) → step e s = Some s' →
  written_on c s' = written_on c s ++ written_by e c s.
Proof.
  intros Hinv H. rewrite !written_on_fmap.
  destruct e; step_cases H; simpl in *.
  all: use_frames; bools.
  all: rewrite ?fmap_app, ?default_lookup_snoc_nil; simpl.
  all: rewrite ?(fmap_alter_same c_written) by done.
  all: rewrite ?app_nil_r.
  all: try congruence.
  all: try apply default_lookup_snoc_nil.
  all: rewrite (list_fmap_alter c_written _ (λ w, w ++ [stamped H0 n]))
         by (apply Forall_forall; intros; unfold stamped, get_header in *; simpl; congruence).
  all: rewrite_frames.
  all: rewrite list_lookup_alter; case_decide; try congruence.
  all: try (by rewrite app_nil_r).
  specialize (Hinv ltac:(done) _ _ Heqo).
  destruct (lookup_lt_is_Some_2 (c_written <$> _connections s) (ctx_conn H0)) as [w Hw];
    [by rewrite length_fmap |].
  by rewrite Hw.
Qed.

(** ** Schedules *)

Lemma run_cons e schedule s s' :
  run (e :: schedule) s = Some s' ↔
  ∃ s1, step e s = Some s1 ∧ run schedule s1 = Some s'.
Proof.
  simpl. destruct (step e s) as [s1|].
  - split; [eauto |]. by intros (s2 & [= ->] & ?).
  - split; [done |]. by intros (s2 & ? & ?).
Qed.

Lemma run_app schedule1 schedule2 s s' :
  run (schedule1 ++ schedule2) s = Some s' ↔
  ∃ s1, run schedule1 s = Some s1 ∧ run schedule2 s1 = Some s'.
Proof.
  revert s. induction schedule1 as [|e rest IH]; intros s.
  - simpl. split; [eauto |]. by intros (s1 & [= ->] & ?).
  - rewrite <- app_comm_cons, !run_cons. split.
    + intros (s1 & He & Hr). apply IH in Hr as (s2 & ? & ?).
      exists s2. split; [| done]. apply run_cons. eauto.
    + intros (s2 & Hr & ?). apply run_cons in Hr as (s1 & ? & ?).
      exists s1. split; [done |]. apply IH. eauto.
Qed.

Lemma run_keeps (P : server → Prop) schedule s s' :
  (∀ e s s', P s → step e s = Some s' → P s') →
  P s → run schedule s = Some s' → P s'.
Proof.
  intros HP. revert s. induction schedule as [|e rest IH]; intros s Hs Hr.
  - simpl in Hr. congruence.
  - apply run_cons in Hr as (s1 & He & Hr). eauto.
Qed.

Lemma step_well_formed e s s' :
  well_formed s → step e s = Some s' → well_formed s'.
Proof.
  intros (Hg & Hl & Hx) He.
  split_and!; eauto using step_gate_inv, step_lifecycle_inv, step_contexts_inv.
Qed.

Lemma run_well_formed schedule s s' :
  well_formed s → run schedule s = Some s' → well_formed s'.
Proof. apply run_keeps, step_well_formed. Qed.

Lemma run_closed schedule s s' :
  run schedule s = Some s' →
  g_closed (_conn_gate s) = true → g_closed (_conn_gate s') = true.
Proof.
  intros Hr Hc. revert Hc Hr.
  apply (run_keeps (λ s, g_closed (_conn_gate s) = true)).
  intros. by eapply step_closed.
Qed.

Lemma run_closed_contexts schedule s s' :
  run schedule s = Some s' → g_closed (_conn_gate s) = true →
  length (contexts s') = length (contexts s).
Proof.
  revert s. induction schedule as [|e rest IH]; intros s Hr Hc.
  - simpl in Hr. congruence.
  - apply run_cons in Hr as (s1 & He & Hr).
    rewrite (IH s1 Hr) by (by eapply step_closed).
    by eapply step_closed_contexts.
Qed.

Lemma run_identity_prefix schedule s s' :
  run schedule s = Some s' →
  (identity <$> contexts s) `prefix_of` (identity <$> contexts s').
Proof.
  revert s. induction schedule as [|e rest IH]; intros s Hr.
  - simpl in Hr. by simplify_eq.
  - apply run_cons in Hr as (s1 & He & Hr).
    etrans; [by eapply step_identity_prefix | by apply IH].
Qed.

(** A context keeps its header, its connection and its method for good. *)
Lemma run_identity schedule s s' i x :
  run schedule s = Some s' → contexts s !! i = Some x →
  ∃ x', contexts s' !! i = Some x' ∧ identity x' = identity x.
Proof.
  intros Hr Hx. apply run_identity_prefix in Hr.
  assert (Hi : (identity <$> contexts s') !! i = Some (identity x)).
  { eapply prefix_lookup_Some; [| done]. by rewrite list_lookup_fmap, Hx. }
  rewrite list_lookup_fmap in Hi. apply fmap_Some in Hi as (x' & ? & ?). eauto.
Qed.

(** ** Started servers *)

Lemma start_on_well_formed listens addresses s s0 :
  well_formed s → lifecycle s = Serving →
  start_on listens addresses s = Some s0 →
  well_formed s0 ∧ lifecycle s0 = Serving.
Proof.
  revert s. induction addresses as [|a rest IH]; intros s Hwf Hl Hs; simpl in Hs.
  - by simplify_eq.
  - repeat case_match; simplify_eq. eapply IH; [| | exact Hs]; [| done].
    destruct Hwf as (Hg & Hc & Hx). unfold well_formed, gate_inv, lifecycle_inv in *.
    simpl. rewrite countb_app. simpl.
    split_and!; first [lia | congruence | done].
Qed.

Lemma registered_well_formed c services :
  let s := foldl (λ s srvc, register_service srvc s) (server_new c) services in
  well_formed s ∧ lifecycle s = Serving.
Proof.
  apply (foldl_keeps (λ s, well_formed s ∧ lifecycle s = Serving)).
  - intros s srvc [(? & ? & ?) ?]. done.
  - split; [| done]. split_and!; try done.
Qed.

Lemma reachable_well_formed s :
  reachable header_size parse_header s → well_formed s.
Proof.
  intros (c & services & listens & schedule & s0 & Hs & Hr).
  destruct (registered_well_formed c services) as [Hwf Hl].
  destruct (start_on_well_formed _ _ _ _ Hwf Hl Hs) as [Hwf0 _].
  by eapply run_well_formed.
Qed.

Lemma reachable_run schedule s s' :
  reachable header_size parse_header s → run schedule s = Some s' →
  reachable header_size parse_header s'.
Proof.
  intros (c & services & listens & schedule0 & s0 & Hs & Hr) Hr'.
  exists c, services, listens, (schedule0 ++ schedule), s0.
  split; [done |]. apply run_app. eauto.
Qed.

(** ** Writes follow resolutions *)

Lemma run_written schedule s s' c :
  well_formed s → run schedule s = Some s' →
  g_closed (_conn_gate s') = false →
  written_on c s' = written_on c s ++ resolved_on (contexts s') c schedule.
Proof.
  revert s. induction schedule as [|e rest IH]; intros s Hwf Hr Ho.
  - simpl in *. simplify_eq. by rewrite app_nil_r.
  - apply run_cons in Hr as (s1 & He & Hr).
    rewrite (IH s1) by eauto using step_well_formed.
    rewrite (step_written e s s1 c) by (done || (intros _; apply Hwf)).
    rewrite <- app_assoc. f_equal.
    assert (Hos : g_closed (_conn_gate s) = false).
    { destruct (g_closed (_conn_gate s)) eqn:Hc; [| done].
      rewrite (run_closed rest s1 s') in Ho; [done | done |].
      by eapply step_closed. }
    destruct e; simpl; try done.
    destruct (contexts s !! i) as [x|] eqn:Hx.
    + destruct (run_identity (EvResolve i n :: rest) s s' i x) as (x' & Hx' & Hid).
      { apply run_cons. eauto. } { done. }
      rewrite Hx'. unfold is_closed. rewrite Hos. unfold identity in Hid.
      injection Hid as Hh Hc Hm.
      unfold stamped, get_header in *. rewrite andb_true_r, Hh, Hc. by case_bool_decide.
    + exfalso. simpl in He. by rewrite Hx in He.
Qed.

Lemma run_written_closed schedule s s' c :
  g_closed (_conn_gate s) = true → run schedule s = Some s' →
  written_on c s' = written_on c s.
Proof.
  revert s. induction schedule as [|e rest IH]; intros s Hg Hr.
  - simpl in Hr. by simplify_eq.
  - apply run_cons in Hr as (s1 & He & Hr).
    rewrite (IH s1) by (done || by eapply step_closed).
    rewrite (step_written e s s1 c) by (done || congruence).
    destruct e; simpl; rewrite ?app_nil_r; try done.
    destruct (contexts s !! i); [| by rewrite app_nil_r].
    unfold is_closed. by rewrite Hg, andb_false_r, app_nil_r.
Qed.

End Invariants.

(** ** What single tasks do *)

Section Steps.

Variable header_size : Z.
Variable parse_header : input_stream → option header * input_stream.

Local Abbreviation step := (step header_size parse_header).
Local Abbreviation run := (run header_size parse_header).

Lemma find_method_first method_id earlier srvc later m :
  Forall (λ s, method_from_id s method_id = None) earlier →
  method_from_id srvc method_id = Some m →
  find_method method_id (earlier ++ srvc :: later) = Some m.
Proof.
  intros He Hm. induction He as [|s earlier Hs _ IH]; simpl.
  - by rewrite Hm.
  - by rewrite Hs.
Qed.

Lemma find_method_unclaimed method_id services :
  Forall (λ s, method_from_id s method_id = None) services ↔
  find_method method_id services = None.
Proof.
  induction services as [|s rest IH]; simpl.
  - split; [done | constructor].
  - destruct (method_from_id s method_id) as [m|] eqn:Hs.
    + split; [| done]. intros Hall. apply Forall_cons in Hall as [? _]. congruence.
    + rewrite <- IH. split.
      * intros Hall. by apply Forall_cons in Hall as [_ ?].
      * intros Hall. by constructor.
Qed.

(** A header that fails to parse: count it, go round the loop. *)
Lemma dispatch_corrupt s c conn rest :
  _connections s !! c = Some conn → c_dispatch conn = ParsingHeader →
  parse_header (c_input conn) = (None, rest) →
  step (EvDispatch c) s
  = Some (update_connection (conn_set_dispatch AtCondition) c
            (set_probe (header_corrupted (_probe s))
               (update_connection (conn_set_input rest) c s))).
Proof.
  intros Hc Hd Hp. simpl. unfold continous_method_dispath.
  rewrite Hc. simpl. by rewrite Hd, Hp.
Qed.

(** A header no service claims: count it, fail the loop. *)
Lemma dispatch_not_found s c conn h rest :
  _connections s !! c = Some conn → c_dispatch conn = ParsingHeader →
  parse_header (c_input conn) = (Some h, rest) →
  find_method (meta h) (_services s) = None →
  step (EvDispatch c) s
  = Some (update_connection (conn_set_dispatch (Failed runtime_error)) c
            (set_probe (method_not_found (_probe s))
               (update_connection (conn_set_input rest) c s))).
Proof.
  intros Hc Hd Hp Hm. simpl. unfold continous_method_dispath, dispatch_method_once.
  rewrite Hc. simpl. rewrite Hd, Hp. simpl. by rewrite Hm.
Qed.

(** A header of a registered method, gate open: the handler is started and
    the loop waits for its body-parse signal. *)
Lemma dispatch_started s c conn h rest m :
  _connections s !! c = Some conn → c_dispatch conn = ParsingHeader →
  parse_header (c_input conn) = (Some h, rest) →
  find_method (meta h) (_services s) = Some m →
  is_closed (_conn_gate s) = false →
  ∃ s1,
    step (EvDispatch c) s = Some s1
    ∧ contexts s1
      = contexts s ++ [{| _h := h; pr := false; ctx_conn := c; ctx_method := m;
                          ctx_units := 0; ctx_suspended := false;
                          ctx_reply := Running |}]
    ∧ _connections s1
      = alter (conn_set_dispatch (AwaitingBody (length (contexts s)))) c
          (alter (conn_set_input rest) c (_connections s))
    ∧ _conn_gate s1 = gate_enter (_conn_gate s)
    ∧ _probe s1
      = add_bytes_received ((header_size + size h) `mod` 2 ^ 64)%Z (_probe s)
    ∧ calls s1 = calls s ++ [CallInvoke (length (contexts s))]
    ∧ _as s1 = _as s ∧ _services s1 = _services s ∧ _memory s1 = _memory s.
Proof.
  intros Hc Hd Hp Hm Hg. eexists. split.
  - simpl. unfold continous_method_dispath, dispatch_method_once.
    rewrite Hc. simpl. rewrite Hd, Hp. simpl. rewrite Hm. simpl.
    rewrite Hg. reflexivity.
  - done.
Qed.

(** The loop has resolved: the connection is shut down. *)
Lemma dispatch_closing s c conn :
  _connections s !! c = Some conn →
  c_dispatch conn = Finished ∨ (∃ e, c_dispatch conn = Failed e) →
  step (EvDispatch c) s = Some (closing_client c s).
Proof.
  intros Hc Hd. simpl. unfold continous_method_dispath. rewrite Hc. simpl.
  by destruct Hd as [-> | [e ->]].
Qed.

(** The handler resolves: what the continuation leaves behind. *)
Lemma resolve_enabled s i n x :
  contexts s !! i = Some x → runnable x = true → pr x = true →
  ∃ s' x',
    step (EvResolve i n) s = Some s'
    ∧ contexts (return_units i s) !! i = Some x' ∧ core x' = core x
    ∧ reply_continuation i n (return_units i s) = Some s'.
Proof.
  intros Hx Hr Hp.
  destruct (return_units_lookup i s i x Hx) as (x' & Hx' & Hcore).
  simpl. rewrite Hx. simpl. rewrite Hr, Hp. simpl.
  unfold reply_continuation. rewrite Hx'. simpl. eauto 10.
Qed.

Lemma resolve_inv s i n s' :
  step (EvResolve i n) s = Some s' →
  ∃ x, contexts s !! i = Some x ∧ runnable x = true ∧ pr x = true.
Proof.
  simpl. destruct (contexts s !! i) as [x|]; [| done]. simpl.
  destruct (runnable x) eqn:Hr; [| done]. destruct (pr x) eqn:Hp; [| done].
  intros _. eauto.
Qed.

Lemma resolve_open s i n x s' :
  contexts s !! i = Some x → step (EvResolve i n) s = Some s' →
  is_closed (_conn_gate s) = false →
  _connections s'
  = alter (conn_append_written (stamped x n)) (ctx_conn x) (_connections s)
  ∧ ctx_reply <$> contexts s' !! i = Some (Written (stamped x n))
  ∧ calls s' = calls s ++ [CallWrite (ctx_conn x) (stamped x n)]
  ∧ _probe s' = request_completed (_probe s)
  ∧ _conn_gate s' = gate_leave (_conn_gate s).
Proof.
  intros Hx He Hg.
  destruct (resolve_inv _ _ _ _ He) as (x0 & Hx0 & Hr & Hp).
  assert (x0 = x) as -> by congruence.
  destruct (resolve_enabled s i n x Hx Hr Hp) as (s1 & x' & He' & Hx' & Hcore & Hk).
  assert (s1 = s') as -> by congruence. clear He'.
  unfold reply_continuation in Hk. rewrite Hx' in Hk. simpl in Hk.
  destruct (return_units_frame i s) as (Fc & Fg & Fl & Fp & Fa & Fs & Fy & Fk).
  unfold core in Hcore. injection Hcore as Hh Hpr Hcn Hm Hrp.
  rewrite Fg, Hg in Hk. injection Hk as <-. simpl.
  unfold stamped, get_header in *. rewrite Fc, Fg, Fp, Fk, ?Hh, ?Hcn.
  split_and!; try done.
  rewrite list_lookup_alter_eq, Hx'. simpl. by rewrite ?Hh.
Qed.

Lemma resolve_closed s i n x s' :
  contexts s !! i = Some x → step (EvResolve i n) s = Some s' →
  is_closed (_conn_gate s) = true →
  _connections s' = _connections s
  ∧ ctx_reply <$> contexts s' !! i = Some (Skipped (stamped x n))
  ∧ calls s' = calls s
  ∧ _probe s' = request_completed (_probe s)
  ∧ _conn_gate s' = gate_leave (_conn_gate s).
Proof.
  intros Hx He Hg.
  destruct (resolve_inv _ _ _ _ He) as (x0 & Hx0 & Hr & Hp).
  assert (x0 = x) as -> by congruence.
  destruct (resolve_enabled s i n x Hx Hr Hp) as (s1 & x' & He' & Hx' & Hcore & Hk).
  assert (s1 = s') as -> by congruence. clear He'.
  unfold reply_continuation in Hk. rewrite Hx' in Hk. simpl in Hk.
  destruct (return_units_frame i s) as (Fc & Fg & Fl & Fp & Fa & Fs & Fy & Fk).
  unfold core in Hcore. injection Hcore as Hh Hpr Hcn Hm Hrp.
  rewrite Fg, Hg in Hk. injection Hk as <-. simpl.
  unfold stamped, get_header in *. rewrite Fc, Fg, Fp, Fk.
  split_and!; try done.
  rewrite list_lookup_alter_eq, Hx'. simpl. by rewrite ?Hh.
Qed.

Lemma run_connections_length schedule s s' :
  run schedule s = Some s' → length (_connections s) ≤ length (_connections s').
Proof.
  revert s. induction schedule as [|e rest IH]; intros s Hr.
  - simpl in Hr. by simplify_eq.
  - apply run_cons in Hr as (s1 & He & Hr).
    etrans; [by eapply step_connections_length | by apply IH].
Qed.

(** The stop condition of [do_until]. *)
Lemma dispatch_condition s c conn :
  _connections s !! c = Some conn → c_dispatch conn = AtCondition →
  step (EvDispatch c) s
  = Some (update_connection
            (conn_set_dispatch
               (if in_eof (c_input conn) || _as s then Finished else ParsingHeader))
            c s).
Proof.
  intros Hc Hd. simpl. unfold continous_method_dispath. rewrite Hc. simpl.
  rewrite Hd. by destruct (in_eof (c_input conn) || _as s).
Qed.

(** The loop waits on the promise of the context it dispatched. *)
Lemma dispatch_awaiting s c conn i x :
  _connections s !! c = Some conn → c_dispatch conn = AwaitingBody i →
  contexts s !! i = Some x →
  step (EvDispatch c) s
  = if pr x then Some (update_connection (conn_set_dispatch AtCondition) c s) else None.
Proof.
  intros Hc Hd Hx. simpl. unfold continous_method_dispath. rewrite Hc. simpl.
  rewrite Hd, Hx. done.
Qed.

Lemma signal_enabled s i x :
  contexts s !! i = Some x → runnable x = true → pr x = false →
  step (EvSignal i) s = Some (signal_body_parse i s).
Proof. intros Hx Hr Hp. simpl. rewrite Hx. simpl. by rewrite Hr, Hp. Qed.

Lemma written_on_lookup c s conn :
  _connections s !! c = Some conn → written_on c s = c_written conn.
Proof. intros Hc. unfold written_on. by rewrite Hc. Qed.

(** A well-formed request of a registered method, read off a connection
    whose loop is at its stop condition: the handler is started, it signals
    and resolves with [n], and [n] stamped with the request's correlation
    id is written to the connection. *)
Lemma request_served s c conn h rest m n :
  _connections s !! c = Some conn → c_dispatch conn = AtCondition →
  in_eof (c_input conn) = false → _as s = false →
  is_closed (_conn_gate s) = false →
  parse_header (c_input conn) = (Some h, rest) →
  find_method (meta h) (_services s) = Some m →
  ∃ s',
    run [EvDispatch c; EvDispatch c; EvSignal (length (contexts s));
         EvResolve (length (contexts s)) n] s = Some s'
    ∧ written_on c s'
      = c_written conn ++ [as_scattered (set_correlation_id (correlation_id h) n)]
    ∧ ctx_method <$> contexts s' !! length (contexts s) = Some m.
Proof.
  intros Hc Hd Heof Has Hg Hp Hm.
  set (i := length (contexts s)).
  (* the stop condition *)
  set (s1 := update_connection (conn_set_dispatch ParsingHeader) c s).
  assert (H1 : step (EvDispatch c) s = Some s1).
  { rewrite (dispatch_condition s c conn) by done. by rewrite Heof, Has. }
  assert (Hc1 : _connections s1 !! c = Some (conn_set_dispatch ParsingHeader conn)).
  { simpl. by rewrite list_lookup_alter_eq, Hc. }
  (* the header *)
  destruct (dispatch_started s1 c _ h rest m Hc1)
    as (s2 & H2 & Hx2 & Hc2 & Hg2 & _ & _ & _ & _ & _); try done.
  fold i in Hx2, Hc2.
  set (x := {| _h := h; pr := false; ctx_conn := c; ctx_method := m;
               ctx_units := 0; ctx_suspended := false; ctx_reply := Running |}) in *.
  assert (Hi2 : contexts s2 !! i = Some x).
  { rewrite Hx2. simpl. rewrite lookup_app_r by (unfold i; lia).
    by rewrite Nat.sub_diag. }
  (* the body-parse signal *)
  assert (H3 : step (EvSignal i) s2 = Some (signal_body_parse i s2))
    by (by apply (signal_enabled s2 i x)).
  set (s3 := signal_body_parse i s2) in *.
  assert (Hi3 : contexts s3 !! i = Some (ctx_set_pr true x)).
  { simpl. by rewrite list_lookup_alter_eq, Hi2. }
  (* the reply *)
  destruct (resolve_enabled s3 i n _ Hi3) as (s4 & x' & H4 & _ & _ & _); try done.
  destruct (resolve_open s3 i n _ s4 Hi3 H4) as (Hc4 & Hr4 & _).
  { simpl. by rewrite Hg2. }
  exists s4. split_and!.
  - fold i. do 4 (apply run_cons; eexists; split; [eassumption |]). done.
  - unfold written_on. rewrite Hc4. simpl. rewrite Hc2. simpl.
    rewrite !list_lookup_alter_eq, Hc. done.
  - destruct (run_identity header_size parse_header [EvResolve i n] s3 s4 i
                (ctx_set_pr true x))
      as (x4 & Hx4 & Hid); [by apply run_cons; eauto | exact Hi3 |].
    fold i. rewrite Hx4. simpl. unfold identity in Hid. by injection Hid as _ _ ->.
Qed.

(** Only [signal_body_parse] on context [i] fulfils the promise of
    context [i]. *)
Lemma step_promise e s s' i x :
  step e s = Some s' → contexts s !! i = Some x → e ≠ EvSignal i →
  pr <$> contexts s' !! i = Some (pr x).
Proof.
  intros H Hx Hne.
  destruct e as [l f | c | j k | j ask | j | j n | |]; step_cases H; simpl in *.
  all: try done.
  all: try (by rewrite Hx).
  all: try (rewrite lookup_app_l by (by eapply lookup_lt_Some); by rewrite Hx).
  all: try (rewrite list_lookup_alter; case_decide; subst; rewrite ?Hx; done).
  all: try (destruct (stop_frame s) as (-> & _); by rewrite Hx).
  all: try (destruct (stop_continuation_frame s) as (-> & _); by rewrite Hx).
  all: destruct (return_units_lookup j s i x Hx) as (y & Hy & Hcore);
    unfold core in Hcore; injection Hcore as _ Hpr _ _ _.
  all: rewrite list_lookup_alter; case_decide; subst; rewrite Hy; simpl;
    by rewrite Hpr.
Qed.

Lemma signal_inv s i s' :
  step (EvSignal i) s = Some s' →
  ∃ x, contexts s !! i = Some x ∧ runnable x = true ∧ pr x = false
       ∧ s' = signal_body_parse i s.
Proof.
  simpl. destruct (contexts s !! i) as [x|]; [| done]. simpl.
  destruct (runnable x) eqn:Hr; [| done]. destruct (pr x) eqn:Hp; [done |].
  simpl. intros [= <-]. eauto.
Qed.

Lemma signal_or_not (e : event) (i : nat) : e = EvSignal i ∨ e ≠ EvSignal i.
Proof.
  destruct e as [| | | | j | | |]; try (by right).
  destruct (decide (j = i)) as [-> | Hne]; [by left | right; congruence].
Qed.

End Steps.

(** ** The audit fixture *)

Section AuditFacts.

Import Audit.

Lemma enqueue_keeps_settings type ev m :
  is_effectively_enabled (enqueue_audit_event type ev m).2 = is_effectively_enabled m
  ∧ audit_enabled_event_types (enqueue_audit_event type ev m).2
    = audit_enabled_event_types m.
Proof. unfold enqueue_audit_event. by repeat case_match. Qed.

Lemma enqueue_observed type ev m :
  is_effectively_enabled m = true → configured type m = true →
  (enqueue_audit_event type ev m).1
  = (estimated_size ev <=? avaiable_reservation m)%Z.
Proof.
  unfold configured, enqueue_audit_event. intros -> ->. simpl.
  destruct (Z.ltb_spec (avaiable_reservation m) (estimated_size ev)); simpl;
    symmetry; [apply Z.leb_gt | apply Z.leb_le]; lia.
Qed.

Lemma operations_configured_ext m m' ops :
  audit_enabled_event_types m' = audit_enabled_event_types m →
  forallb (operation_configured m') ops = forallb (operation_configured m) ops.
Proof.
  intros Heq. induction ops as [|[type ev|] rest IH]; simpl; [done | |].
  - unfold configured. by rewrite Heq, IH.
  - done.
Qed.

Lemma attempts_agree ops m :
  is_effectively_enabled m = true →
  forallb (operation_configured m) ops = true →
  Forall (λ a, a.2 = a.1) (attempts ops m).
Proof.
  revert m. induction ops as [|[type ev|] rest IH]; intros m Hen Hcf; simpl.
  - constructor.
  - simpl in Hcf. apply andb_prop in Hcf as [Hty Hrest].
    pose proof (enqueue_observed type ev m Hen Hty) as Hobs.
    destruct (enqueue_keeps_settings type ev m) as [Hen' Hty'].
    destruct (enqueue_audit_event type ev m) as [observed m'] eqn:He.
    simpl in *. constructor; [done |].
    apply IH; [congruence |]. by rewrite (operations_configured_ext m).
  - simpl in Hcf. apply IH; [done |].
    by rewrite (operations_configured_ext m).
Qed.

Lemma enqueue_some_from_agrees success event_size events m :
  is_effectively_enabled m = true → configured management m = true →
  Forall (λ ev, estimated_size ev = event_size) events →
  (enqueue_some_from success event_size events m).1 = success.
Proof.
  intros Hen Hcf Hsz. revert success m Hen Hcf.
  induction Hsz as [|ev rest Hev _ IH]; intros success m Hen Hcf; simpl; [done |].
  pose proof (enqueue_observed management ev m Hen Hcf) as Hobs.
  destruct (enqueue_keeps_settings management ev m) as [Hen' Hty'].
  destruct (enqueue_audit_event management ev m) as [enqueued m'] eqn:He.
  simpl in *. rewrite IH.
  - rewrite Hev in Hobs. rewrite Hobs.
    destruct (event_size <=? avaiable_reservation m)%Z; simpl;
      by rewrite andb_true_r.
  - congruence.
  - unfold configured in *. by rewrite Hty'.
Qed.

End AuditFacts.

(** * The specification's properties *)

Section ServerProperties.

Variable header_size : Z.
Variable parse_header : input_stream → option header * input_stream.

Local Abbreviation step := (step header_size parse_header).
Local Abbreviation run := (run header_size parse_header).
Local Abbreviation reachable := (reachable header_size parse_header).

(** C8: the registry lookup of [dispatch_method_once] returns the method of
    the first service, in registration order, that claims the method id; a
    later service that claims the same id is shadowed, and the handler that
    is started is the earliest-registered service's method. *)
Theorem C8_first_registered_service_wins
    (s : server) (h : header) (c : nat)
    (earlier later : list service) (srvc : service) (m : method) :
  _services s = earlier ++ srvc :: later →
  Forall (λ e, method_from_id e (meta h) = None) earlier →
  method_from_id srvc (meta h) = Some m →
  find_method (meta h) (_services s) = Some m
  ∧ (∀ extra, _services (register_service extra s) = earlier ++ srvc :: later ++ [extra]
              ∧ find_method (meta h) (_services (register_service extra s)) = Some m)
  ∧ (is_closed (_conn_gate s) = false →
     ∃ s', dispatch_method_once header_size h c s = (s', AwaitingBody (length (contexts s)))
           ∧ ctx_method <$> contexts s' !! length (contexts s) = Some m).
Proof.
  intros Hs He Hm.
  assert (Hf : find_method (meta h) (_services s) = Some m).
  { rewrite Hs. by apply find_method_first. }
  split_and!; [done | |].
  - intros extra. simpl. rewrite Hs, <- app_assoc. split; [done |].
    by apply find_method_first.
  - intros Hg. unfold dispatch_method_once. rewrite Hf. simpl. rewrite Hg.
    eexists. split; [done |]. simpl.
    rewrite lookup_app_r by lia. by rewrite Nat.sub_diag.
Qed.

(** C5: a parsed header whose method id no registered service claims
    increments the method-not-found counter once, starts no handler, and
    fails the dispatch loop; the connection is then shut down and its loop
    never runs again. *)
Theorem C5_unknown_method_fails_connection
    (s : server) (c : nat) (conn : connection) (h : header) (rest : input_stream) :
  _connections s !! c = Some conn →
  c_dispatch conn = ParsingHeader →
  parse_header (c_input conn) = (Some h, rest) →
  Forall (λ srvc, method_from_id srvc (meta h) = None) (_services s) →
  ∃ s1 s2,
    step (EvDispatch c) s = Some s1
    ∧ method_not_found_errors (_probe s1) = (method_not_found_errors (_probe s) + 1)%Z
    ∧ contexts s1 = contexts s ∧ calls s1 = calls s
    ∧ c_dispatch <$> _connections s1 !! c = Some (Failed runtime_error)
    ∧ step (EvDispatch c) s1 = Some s2
    ∧ c_shutdown <$> _connections s2 !! c = Some true
    ∧ c_dispatch <$> _connections s2 !! c = Some Closed
    ∧ calls s2 = calls s ++ [CallShutdown c]
    ∧ _probe s2 = _probe s1 ∧ contexts s2 = contexts s
    ∧ step (EvDispatch c) s2 = None.
Proof.
  intros Hc Hd Hp Hnone. apply find_method_unclaimed in Hnone.
  set (s1 := update_connection (conn_set_dispatch (Failed runtime_error)) c
               (set_probe (method_not_found (_probe s))
                  (update_connection (conn_set_input rest) c s))).
  assert (Hc1 : _connections s1 !! c
                = Some (conn_set_dispatch (Failed runtime_error) (conn_set_input rest conn))).
  { simpl. by rewrite !list_lookup_alter_eq, Hc. }
  exists s1, (closing_client c s1).
  split; [by eapply dispatch_not_found |].
  split_and!; try done.
  - by rewrite Hc1.
  - eapply dispatch_closing; [done |]. right. by eexists.
  - simpl. by rewrite !list_lookup_alter_eq, Hc.
  - simpl. by rewrite !list_lookup_alter_eq, Hc.
  - simpl. unfold continous_method_dispath. simpl.
    by rewrite !list_lookup_alter_eq, Hc.
Qed.

(** C10: a request that fails before dispatch (its header is absent, or no
    service claims its method id) spawns no handler fiber, acquires no
    memory units and leaves bytes-received and requests-completed alone;
    only its own failure counter goes up, by one. *)
Theorem C10_failed_requests_touch_only_their_counter
    (s s' : server) (c : nat) (conn : connection)
    (parsed : option header) (rest : input_stream) :
  _connections s !! c = Some conn →
  c_dispatch conn = ParsingHeader →
  parse_header (c_input conn) = (parsed, rest) →
  from_option (λ h, find_method (meta h) (_services s) = None) True parsed →
  step (EvDispatch c) s = Some s' →
  contexts s' = contexts s
  ∧ calls s' = calls s
  ∧ _conn_gate s' = _conn_gate s
  ∧ _memory s' = _memory s
  ∧ in_bytes (_probe s') = in_bytes (_probe s)
  ∧ requests_completed (_probe s') = requests_completed (_probe s)
  ∧ requests_blocked_memory (_probe s') = requests_blocked_memory (_probe s)
  ∧ match parsed with
    | None =>
        corrupted_headers (_probe s') = (corrupted_headers (_probe s) + 1)%Z
        ∧ method_not_found_errors (_probe s') = method_not_found_errors (_probe s)
    | Some _ =>
        method_not_found_errors (_probe s') = (method_not_found_errors (_probe s) + 1)%Z
        ∧ corrupted_headers (_probe s') = corrupted_headers (_probe s)
    end.
Proof.
  intros Hc Hd Hp Hfail He. destruct parsed as [h|]; simpl in Hfail.
  - rewrite (dispatch_not_found _ _ s c conn h rest) in He by done.
    injection He as <-. done.
  - rewrite (dispatch_corrupt _ _ s c conn rest) in He by done.
    injection He as <-. done.
Qed.

(** C6: when a handler resolves with a reply buffer and the gate is closed,
    nothing is written (the reply is skipped); when the gate is open the
    stamped reply is handed to the connection's write.  From a state whose
    gate is closed on, no schedule makes any connection receive a write. *)
Theorem C6_no_write_once_gate_closed
    (s s' : server) (i : nat) (n : netbuf) (x : server_context_impl) :
  contexts s !! i = Some x →
  step (EvResolve i n) s = Some s' →
  (if is_closed (_conn_gate s)
   then _connections s' = _connections s
        ∧ calls s' = calls s
        ∧ ctx_reply <$> contexts s' !! i = Some (Skipped (stamped x n))
   else _connections s'
        = alter (conn_append_written (stamped x n)) (ctx_conn x) (_connections s)
        ∧ calls s' = calls s ++ [CallWrite (ctx_conn x) (stamped x n)]
        ∧ ctx_reply <$> contexts s' !! i = Some (Written (stamped x n)))
  ∧ (is_closed (_conn_gate s) = true →
     ∀ schedule s2 c, run schedule s = Some s2 → written_on c s2 = written_on c s).
Proof.
  intros Hx He. split.
  - destruct (is_closed (_conn_gate s)) eqn:Hg.
    + by destruct (resolve_closed _ _ s i n x s' Hx He Hg) as (? & ? & ? & _).
    + by destruct (resolve_open _ _ s i n x s' Hx He Hg) as (? & ? & ? & _).
  - intros Hg schedule s2 c Hr. by eapply run_written_closed.
Qed.

(** C4: when the codec answers absent, the dispatch loop increments the
    header-corrupted counter and goes back to the head of its loop; the
    connection is neither failed nor shut down, and a well-formed request
    that follows on the same connection is dispatched and answered with its
    handler's reply under its own correlation id. *)
Theorem C4_corrupt_header_is_counted_and_skipped
    (s : server) (c : nat) (conn : connection) (rest : input_stream) :
  _connections s !! c = Some conn →
  c_dispatch conn = ParsingHeader →
  parse_header (c_input conn) = (None, rest) →
  ∃ s1,
    step (EvDispatch c) s = Some s1
    ∧ corrupted_headers (_probe s1) = (corrupted_headers (_probe s) + 1)%Z
    ∧ _connections s1 !! c
      = Some (conn_set_dispatch AtCondition (conn_set_input rest conn))
    ∧ c_shutdown <$> _connections s1 !! c = Some (c_shutdown conn)
    ∧ calls s1 = calls s
    ∧ ∀ h rest' m n,
        in_eof rest = false → _as s = false → is_closed (_conn_gate s) = false →
        parse_header rest = (Some h, rest') →
        find_method (meta h) (_services s) = Some m →
        ∃ s2,
          run [EvDispatch c; EvDispatch c; EvSignal (length (contexts s));
               EvResolve (length (contexts s)) n] s1 = Some s2
          ∧ written_on c s2
            = c_written conn ++ [as_scattered (set_correlation_id (correlation_id h) n)]
          ∧ ctx_method <$> contexts s2 !! length (contexts s) = Some m.
Proof.
  intros Hc Hd Hp.
  set (s1 := update_connection (conn_set_dispatch AtCondition) c
               (set_probe (header_corrupted (_probe s))
                  (update_connection (conn_set_input rest) c s))).
  assert (Hc1 : _connections s1 !! c
                = Some (conn_set_dispatch AtCondition (conn_set_input rest conn))).
  { simpl. by rewrite !list_lookup_alter_eq, Hc. }
  exists s1. split; [by eapply dispatch_corrupt |].
  split_and!; try done.
  - by rewrite Hc1.
  - intros h rest' m n Heof Has Hg Hp' Hm.
    by apply (request_served header_size parse_header s1 c _ h rest' m n Hc1).
Qed.

(** C7: the reply written for a request carries the correlation id of that
    request's header: the context created at dispatch keeps the header
    through any schedule, and when its handler resolves with a buffer the
    view written is that buffer stamped with the header's correlation id. *)
Theorem C7_reply_echoes_correlation_id
    (s s1 s2 s3 : server) (c : nat) (conn : connection) (h : header)
    (rest : input_stream) (m : method) (schedule : list event) (n : netbuf) :
  _connections s !! c = Some conn →
  c_dispatch conn = ParsingHeader →
  parse_header (c_input conn) = (Some h, rest) →
  find_method (meta h) (_services s) = Some m →
  is_closed (_conn_gate s) = false →
  step (EvDispatch c) s = Some s1 →
  run schedule s1 = Some s2 →
  step (EvResolve (length (contexts s)) n) s2 = Some s3 →
  is_closed (_conn_gate s2) = false →
  ∃ view,
    written_on c s3 = written_on c s2 ++ [view]
    ∧ ctx_reply <$> contexts s3 !! length (contexts s) = Some (Written view)
    ∧ nb_correlation_id view = correlation_id h
    ∧ nb_payload view = nb_payload n.
Proof.
  intros Hc Hd Hp Hm Hg H1 Hr H3 Hg2.
  destruct (dispatch_started header_size parse_header s c conn h rest m)
    as (s1' & H1' & Hx1 & Hc1 & _); try done.
  assert (s1' = s1) as -> by congruence. clear H1'.
  set (i := length (contexts s)) in *.
  set (x := {| _h := h; pr := false; ctx_conn := c; ctx_method := m;
               ctx_units := 0; ctx_suspended := false; ctx_reply := Running |}) in *.
  assert (Hi1 : contexts s1 !! i = Some x).
  { rewrite Hx1. rewrite lookup_app_r by (unfold i; lia). by rewrite Nat.sub_diag. }
  destruct (run_identity header_size parse_header schedule s1 s2 i x Hr Hi1)
    as (x2 & Hi2 & Hid).
  unfold identity in Hid. injection Hid as Hh2 Hc2 _. simpl in Hh2, Hc2.
  destruct (resolve_open header_size parse_header s2 i n x2 s3 Hi2 H3 Hg2)
    as (Hc3 & Hr3 & _).
  assert (Hlen : c < length (_connections s2)).
  { apply lookup_lt_Some in Hc.
    pose proof (step_connections_length header_size parse_header _ _ _ H1).
    pose proof (run_connections_length header_size parse_header _ _ _ Hr). lia. }
  destruct (lookup_lt_is_Some_2 _ _ Hlen) as [conn2 Hconn2].
  exists (stamped x2 n). split_and!.
  - unfold written_on. rewrite Hc3, Hc2, list_lookup_alter_eq, Hconn2. done.
  - done.
  - unfold stamped, get_header in *. simpl. by rewrite Hh2.
  - done.
Qed.

(** C2: after a successful dispatch the loop holds the future of the
    context's promise.  Whatever runs in between, as long as the loop still
    waits on it: the loop can take its next step exactly when the promise
    is fulfilled; the only task that fulfils it is the handler's
    [signal_body_parse] on that context; and right after that call the
    loop goes back to its head although the reply is neither produced nor
    written. *)
Theorem C2_loop_awaits_body_parse_signal_only
    (s s1 : server) (c : nat) (conn : connection) (h : header)
    (rest : input_stream) (m : method) :
  _connections s !! c = Some conn →
  c_dispatch conn = ParsingHeader →
  parse_header (c_input conn) = (Some h, rest) →
  find_method (meta h) (_services s) = Some m →
  is_closed (_conn_gate s) = false →
  step (EvDispatch c) s = Some s1 →
  c_dispatch <$> _connections s1 !! c = Some (AwaitingBody (length (contexts s)))
  ∧ pr <$> contexts s1 !! length (contexts s) = Some false
  ∧ ∀ schedule s2 conn2,
      run schedule s1 = Some s2 →
      _connections s2 !! c = Some conn2 →
      c_dispatch conn2 = AwaitingBody (length (contexts s)) →
      ∃ x2,
        contexts s2 !! length (contexts s) = Some x2
        ∧ (is_Some (step (EvDispatch c) s2) ↔ pr x2 = true)
        ∧ (pr x2 = false →
           ∀ e s3, step e s2 = Some s3 →
             (pr <$> contexts s3 !! length (contexts s) = Some true
              ↔ e = EvSignal (length (contexts s))))
        ∧ (pr x2 = false →
           ∀ s3, step (EvSignal (length (contexts s))) s2 = Some s3 →
             ctx_reply <$> contexts s3 !! length (contexts s) = Some Running
             ∧ written_on c s3 = written_on c s2
             ∧ ∃ s4, step (EvDispatch c) s3 = Some s4
                     ∧ c_dispatch <$> _connections s4 !! c = Some AtCondition).
Proof.
  intros Hc Hd Hp Hm Hg H1.
  destruct (dispatch_started header_size parse_header s c conn h rest m)
    as (s1' & H1' & Hx1 & Hc1 & _); try done.
  assert (s1' = s1) as -> by congruence. clear H1'.
  set (i := length (contexts s)) in *.
  set (x := {| _h := h; pr := false; ctx_conn := c; ctx_method := m;
               ctx_units := 0; ctx_suspended := false; ctx_reply := Running |}) in *.
  assert (Hi1 : contexts s1 !! i = Some x).
  { rewrite Hx1. rewrite lookup_app_r by (unfold i; lia). by rewrite Nat.sub_diag. }
  split_and!.
  - by rewrite Hc1, !list_lookup_alter_eq, Hc.
  - by rewrite Hi1.
  - intros schedule s2 conn2 Hr Hc2 Hd2.
    destruct (run_identity header_size parse_header schedule s1 s2 i x Hr Hi1)
      as (x2 & Hi2 & _).
    exists x2. split_and!; [done | | |].
    + rewrite (dispatch_awaiting header_size parse_header s2 c conn2 i x2) by done.
      destruct (pr x2); split; (done || eauto).
    + intros Hpr e s3 He. split.
      * intros Hset. destruct (signal_or_not e i) as [-> | Hne]; [done |].
        rewrite (step_promise header_size parse_header e s2 s3 i x2) in Hset by done.
        congruence.
      * intros ->.
        destruct (signal_inv header_size parse_header s2 i s3 He) as (y & _ & _ & _ & ->).
        simpl. by rewrite list_lookup_alter_eq, Hi2.
    + intros Hpr s3 He.
      destruct (signal_inv header_size parse_header s2 i s3 He)
        as (y & Hy & Hrun & _ & ->).
      assert (y = x2) as -> by congruence.
      split_and!.
      * simpl. rewrite list_lookup_alter_eq, Hi2. simpl.
        unfold runnable, is_running in Hrun.
        by destruct (ctx_reply x2).
      * done.
      * eexists. split.
        -- rewrite (dispatch_awaiting header_size parse_header _ c conn2 i
                      (ctx_set_pr true x2)); [done | done | done |].
           simpl. by rewrite list_lookup_alter_eq, Hi2.
        -- simpl. by rewrite list_lookup_alter_eq, Hc2.
Qed.

(** C3: [stop] calls, in this order, [abort_accept] on every listener,
    [request_abort], [shutdown_input] on every connection in the registry
    and [close] on the gate; its continuation runs only once the gate is
    empty and then calls [shutdown] on every connection still in the
    registry.  After [stop] has begun no schedule starts a handler, and
    once [stop] has returned every handler that was started has made its
    write-or-skip decision. *)
Theorem C3_stop_order_and_drain (s : server) :
  reachable s →
  lifecycle s = Serving →
  step EvStop s = Some (stop s)
  ∧ calls (stop s)
    = calls s ++ (CallAbortAccept <$> seq 0 (length (_listeners s)))
        ++ [CallRequestAbort]
        ++ (CallShutdownInput <$> registry s)
        ++ [CallGateClose]
  ∧ ∀ schedule s1,
      run schedule (stop s) = Some s1 →
      length (contexts s1) = length (contexts s)
      ∧ (∀ s2, step EvGateClosed s1 = Some s2 →
           g_count (_conn_gate s1) = 0
           ∧ calls s2 = calls s1 ++ (CallShutdown <$> registry s1)
           ∧ lifecycle s2 = Stopped)
      ∧ (lifecycle s1 = Stopped →
         ∀ i x, contexts s1 !! i = Some x → ctx_reply x ≠ Running).
Proof.
  intros Hreach Hl.
  assert (Hstop : step EvStop s = Some (stop s)) by (simpl; by rewrite Hl).
  split_and!; [done | apply stop_calls |].
  intros schedule s1 Hr.
  destruct (stop_frame s) as (Hx & _ & _ & _ & _ & Hclosed & _).
  assert (Hwf : well_formed s1).
  { eapply (run_well_formed header_size parse_header); [| exact Hr].
    eapply (step_well_formed header_size parse_header); [| exact Hstop].
    by eapply reachable_well_formed. }
  split_and!.
  - rewrite <- Hx. by eapply run_closed_contexts.
  - intros s2 He. simpl in He.
    destruct (lifecycle s1); try done.
    case_bool_decide as Hcount; [| done]. injection He as <-.
    destruct (stop_continuation_frame s1) as (_ & _ & _ & _ & _ & _ & _ & Hl2 & _ & _ & Hk).
    done.
  - intros Hstopped i x Hi Hrun.
    destruct Hwf as (Hg & [_ Hempty] & _).
    unfold gate_inv in Hg. rewrite (Hempty Hstopped) in Hg.
    assert (Hnone : countb is_running (contexts s1) = 0) by lia.
    pose proof (countb_zero is_running _ i x Hnone Hi) as Hx1.
    unfold is_running in Hx1. by rewrite Hrun in Hx1.
Qed.

(** C1, in the form that holds: while the gate is open, what is written to
    a connection grows by exactly the stamped replies of the handlers of
    that connection, in the order in which the schedule resolves them.
    Replies leave in the order the handlers resolve, which is the arrival
    order only when the handlers resolve in arrival order. *)
Theorem C1_replies_written_in_resolution_order
    (s s' : server) (schedule : list event) (c : nat) :
  reachable s →
  run schedule s = Some s' →
  is_closed (_conn_gate s') = false →
  written_on c s' = written_on c s ++ resolved_on (contexts s') c schedule.
Proof.
  intros Hreach Hr Hg.
  apply (run_written header_size parse_header); [| done | done].
  by eapply reachable_well_formed.
Qed.

End ServerProperties.

(** C9: on a shard where auditing is effectively enabled, every enqueue of
    an event of a configured type returns true exactly when the reservation
    available at that instant is at least the event's size, through any
    sequence of enqueues and drains; so the test's [enqueue_some], which
    compares each outcome with that prediction, reports success. *)
Theorem C9_enqueue_succeeds_iff_reservation_suffices
    (m : Audit.audit_log_manager) (ops : list Audit.operation) :
  Audit.is_effectively_enabled m = true →
  forallb (Audit.operation_configured m) ops = true →
  (∀ predicted observed,
     (predicted, observed) ∈ Audit.attempts ops m →
     (observed = true ↔ predicted = true))
  ∧ (∀ event_size events,
       Audit.configured Audit.management m = true →
       Forall (λ ev, Audit.estimated_size ev = event_size) events →
       (Audit.enqueue_some event_size events m).1 = true).
Proof.
  intros Hen Hcf. split.
  - intros predicted observed Hin.
    pose proof (attempts_agree ops m Hen Hcf) as Hall.
    rewrite Forall_forall in Hall. specialize (Hall _ Hin). simpl in Hall.
    by rewrite Hall.
  - intros event_size events Hmg Hsz. by apply enqueue_some_from_agrees.
Qed.

(** ** The properties on the concrete deployment *)

Lemma demo_reachable (schedule : list event) :
  is_Some (run Demo.header_size Demo.parse_header schedule Demo.booted) →
  reachable Demo.header_size Demo.parse_header (Demo.exec schedule Demo.booted).
Proof.
  intros [s Hs].
  exists Demo.config, [Demo.echo; Demo.shadow], (λ _, true), schedule, Demo.booted.
  split; [reflexivity |]. unfold Demo.exec. by rewrite Hs.
Qed.

Lemma demo_runs (schedule : list event) (s : server) :
  is_Some (run Demo.header_size Demo.parse_header schedule s) →
  run Demo.header_size Demo.parse_header schedule s = Some (Demo.exec schedule s).
Proof. intros [s' Hs]. unfold Demo.exec. by rewrite Hs. Qed.

(** C1 does not hold with arrival order: one client sends two requests,
    both handlers are started in arrival order, the handler of the second
    resolves first, and the reply with correlation id 2 is written before
    the reply with correlation id 1. *)
Lemma C1_replies_can_overtake :
  ¬ ∀ s, reachable Demo.header_size Demo.parse_header s → replies_in_arrival_order s.
Proof.
  intros Hclaim.
  assert (Hreach : reachable Demo.header_size Demo.parse_header
                     (Demo.exec Demo.overtaking Demo.booted)).
  { apply demo_reachable. eexists. vm_compute. reflexivity. }
  destruct (Hclaim _ Hreach 0 0 1
    {| _h := Demo.request1; pr := true; ctx_conn := 0; ctx_method := Method 0;
       ctx_units := 0; ctx_suspended := false;
       ctx_reply := Written (set_correlation_id 1 Demo.reply1) |}
    {| _h := Demo.request2; pr := true; ctx_conn := 0; ctx_method := Method 0;
       ctx_units := 0; ctx_suspended := false;
       ctx_reply := Written (set_correlation_id 2 Demo.reply2) |}
    (set_correlation_id 1 Demo.reply1) (set_correlation_id 2 Demo.reply2))
    as (pre & mid & post & Hw); try reflexivity.
  - lia.
  - assert (Hout : written_on 0 (Demo.exec Demo.overtaking Demo.booted)
                   = [set_correlation_id 2 Demo.reply2; set_correlation_id 1 Demo.reply1])
      by reflexivity.
    rewrite Hout in Hw. clear Hout.
    clear Hclaim Hreach.
    destruct pre as [|v0 [|v1 pre]]; simpl in Hw.
    + injection Hw as Hv _. vm_compute in Hv. discriminate Hv.
    + injection Hw as _ Hpost. destruct mid; discriminate Hpost.
    + injection Hw as _ _ Hpost. destruct pre; discriminate Hpost.
Qed.

(** The overtaking run again: what was written is the two replies in the
    order their handlers resolved. *)
Lemma C1_replies_written_in_resolution_order_witness :
  written_on 0 (Demo.exec Demo.overtaking Demo.booted)
  = written_on 0 Demo.booted
    ++ resolved_on (contexts (Demo.exec Demo.overtaking Demo.booted)) 0 Demo.overtaking.
Proof.
  apply (C1_replies_written_in_resolution_order Demo.header_size Demo.parse_header).
  - apply (demo_reachable []). eexists. reflexivity.
  - apply demo_runs. eexists. vm_compute. reflexivity.
  - vm_compute. reflexivity.
Defined.

(** The first request of the pipelined client: its loop waits on context 0. *)
Lemma C2_loop_awaits_body_parse_signal_only_witness :
  c_dispatch <$> _connections (Demo.exec (Demo.arriving ++ [EvDispatch 0]) Demo.booted) !! 0
  = Some (AwaitingBody 0)
  ∧ pr <$> contexts (Demo.exec (Demo.arriving ++ [EvDispatch 0]) Demo.booted) !! 0
    = Some false.
Proof.
  refine (let H := C2_loop_awaits_body_parse_signal_only
                     Demo.header_size Demo.parse_header
                     (Demo.exec Demo.arriving Demo.booted)
                     (Demo.exec (Demo.arriving ++ [EvDispatch 0]) Demo.booted)
                     0 _ Demo.request1 _ (Method 0) _ _ _ _ _ _ in
          conj (proj1 H) (proj1 (proj2 H)));
    vm_compute; reflexivity.
Defined.

(** [stop] with two handlers in flight, then the drain of the gate. *)
Lemma C3_stop_order_and_drain_witness :
  calls (stop (Demo.exec Demo.pipelined Demo.booted))
  = calls (Demo.exec Demo.pipelined Demo.booted)
    ++ [CallAbortAccept 0; CallRequestAbort; CallShutdownInput 0; CallGateClose]
  ∧ lifecycle (Demo.exec Demo.draining (stop (Demo.exec Demo.pipelined Demo.booted)))
    = Stopped
  ∧ ∀ i x,
      contexts (Demo.exec Demo.draining (stop (Demo.exec Demo.pipelined Demo.booted))) !! i
      = Some x →
      ctx_reply x ≠ Running.
Proof.
  assert (H := C3_stop_order_and_drain Demo.header_size Demo.parse_header
                 (Demo.exec Demo.pipelined Demo.booted)).
  destruct H as (_ & Hcalls & Hafter).
  - apply demo_reachable. eexists. vm_compute. reflexivity.
  - vm_compute. reflexivity.
  - split_and!.
    + exact Hcalls.
    + vm_compute. reflexivity.
    + destruct (Hafter Demo.draining
                  (Demo.exec Demo.draining (stop (Demo.exec Demo.pipelined Demo.booted))))
        as (_ & _ & Hdecided).
      * apply demo_runs. eexists. vm_compute. reflexivity.
      * apply Hdecided. vm_compute. reflexivity.
Defined.

(** A header with a bad checksum, then a well-formed request on the same
    connection: the first is counted, the second is answered. *)
Lemma C4_corrupt_header_is_counted_and_skipped_witness :
  ∃ s1 s2,
    step Demo.header_size Demo.parse_header (EvDispatch 0)
      (Demo.exec Demo.garbled Demo.booted) = Some s1
    ∧ corrupted_headers (_probe s1) = 1%Z
    ∧ run Demo.header_size Demo.parse_header
        [EvDispatch 0; EvDispatch 0; EvSignal 0; EvResolve 0 Demo.reply2] s1 = Some s2
    ∧ written_on 0 s2 = [set_correlation_id 2 Demo.reply2].
Proof.
  destruct (C4_corrupt_header_is_counted_and_skipped
              Demo.header_size Demo.parse_header
              (Demo.exec Demo.garbled Demo.booted) 0
              {| addr := 1;
                 c_input := {| in_buf := [0; 0; 1; 0; 99; 5]%Z ++ Demo.frame 1 2 9;
                               in_eof := false |};
                 c_written := []; c_input_shutdown := false; c_shutdown := false;
                 c_dispatch := ParsingHeader |}
              {| in_buf := Demo.frame 1 2 9; in_eof := false |})
    as (s1 & Hstep & Hcount & _ & _ & _ & Hnext); try reflexivity.
  destruct (Hnext Demo.request2 {| in_buf := [9%Z]; in_eof := false |}
              (Method 0) Demo.reply2)
    as (s2 & Hrun & Hwritten & _); try reflexivity.
  exists s1, s2. split_and!; [exact Hstep | exact Hcount | exact Hrun | exact Hwritten].
Defined.

(** A request for a method nobody registered. *)
Lemma C5_unknown_method_fails_connection_witness :
  ∃ s1 s2,
    step Demo.header_size Demo.parse_header (EvDispatch 0)
      (Demo.exec Demo.misdirected Demo.booted) = Some s1
    ∧ method_not_found_errors (_probe s1) = 1%Z
    ∧ contexts s1 = []
    ∧ step Demo.header_size Demo.parse_header (EvDispatch 0) s1 = Some s2
    ∧ c_shutdown <$> _connections s2 !! 0 = Some true
    ∧ step Demo.header_size Demo.parse_header (EvDispatch 0) s2 = None.
Proof.
  destruct (C5_unknown_method_fails_connection
              Demo.header_size Demo.parse_header
              (Demo.exec Demo.misdirected Demo.booted) 0
              {| addr := 1;
                 c_input := {| in_buf := Demo.frame 2 1 9; in_eof := false |};
                 c_written := []; c_input_shutdown := false; c_shutdown := false;
                 c_dispatch := ParsingHeader |}
              (Header 0 0 2 1 4 1)
              {| in_buf := [9%Z]; in_eof := false |})
    as (s1 & s2 & H1 & Hcount & Hx & _ & _ & H2 & Hshut & _ & _ & _ & _ & H3);
    try reflexivity.
  - repeat constructor.
  - exists s1, s2.
    split_and!; [exact H1 | exact Hcount | exact Hx | exact H2 | exact Hshut | exact H3].
Defined.

(** The second handler of the pipelined client resolves, once with the
    gate open and once after [stop]. *)
Lemma C6_no_write_once_gate_closed_witness :
  written_on 0 (Demo.exec (Demo.pipelined ++ [EvResolve 1 Demo.reply2]) Demo.booted)
  = [set_correlation_id 2 Demo.reply2]
  ∧ ∀ schedule s2 c,
      run Demo.header_size Demo.parse_header schedule
        (stop (Demo.exec Demo.pipelined Demo.booted)) = Some s2 →
      written_on c s2 = written_on c (stop (Demo.exec Demo.pipelined Demo.booted)).
Proof.
  split.
  - destruct (C6_no_write_once_gate_closed Demo.header_size Demo.parse_header
                (Demo.exec Demo.pipelined Demo.booted)
                (Demo.exec (Demo.pipelined ++ [EvResolve 1 Demo.reply2]) Demo.booted)
                1 Demo.reply2
                {| _h := Demo.request2; pr := true; ctx_conn := 0;
                   ctx_method := Method 0; ctx_units := 0; ctx_suspended := false;
                   ctx_reply := Running |})
      as [Hnow _]; [reflexivity | vm_compute; reflexivity |].
    vm_compute. reflexivity.
  - destruct (C6_no_write_once_gate_closed Demo.header_size Demo.parse_header
                (stop (Demo.exec Demo.pipelined Demo.booted))
                (Demo.exec [EvResolve 1 Demo.reply2]
                   (stop (Demo.exec Demo.pipelined Demo.booted)))
                1 Demo.reply2
                {| _h := Demo.request2; pr := true; ctx_conn := 0;
                   ctx_method := Method 0; ctx_units := 0; ctx_suspended := false;
                   ctx_reply := Running |})
      as [_ Hnever]; [vm_compute; reflexivity | vm_compute; reflexivity |].
    apply Hnever. vm_compute. reflexivity.
Defined.

(** The one request of the arriving client, answered after its handler
    read the body and signalled. *)
Lemma C7_reply_echoes_correlation_id_witness :
  ∃ view,
    written_on 0 (Demo.exec (Demo.arriving ++ [EvDispatch 0; EvRead 0 1; EvSignal 0;
                                               EvResolve 0 Demo.reply1]) Demo.booted)
    = written_on 0 (Demo.exec (Demo.arriving ++ [EvDispatch 0; EvRead 0 1; EvSignal 0])
                      Demo.booted) ++ [view]
    ∧ nb_correlation_id view = 1%Z.
Proof.
  destruct (C7_reply_echoes_correlation_id Demo.header_size Demo.parse_header
              (Demo.exec Demo.arriving Demo.booted)
              (Demo.exec (Demo.arriving ++ [EvDispatch 0]) Demo.booted)
              (Demo.exec (Demo.arriving ++ [EvDispatch 0; EvRead 0 1; EvSignal 0])
                 Demo.booted)
              (Demo.exec (Demo.arriving ++ [EvDispatch 0; EvRead 0 1; EvSignal 0;
                                            EvResolve 0 Demo.reply1]) Demo.booted)
              0
              {| addr := 1;
                 c_input := {| in_buf := Demo.frame 1 1 9; in_eof := false |};
                 c_written := []; c_input_shutdown := false; c_shutdown := false;
                 c_dispatch := ParsingHeader |}
              Demo.request1 {| in_buf := [9%Z]; in_eof := false |} (Method 0)
              [EvRead 0 1; EvSignal 0] Demo.reply1)
    as (view & Hw & _ & Hid & _); try (vm_compute; reflexivity).
  exists view. split; [exact Hw | exact Hid].
Defined.

(** Two services claim method 1; the one registered first is dispatched. *)
Lemma C8_first_registered_service_wins_witness :
  find_method 1 (_services Demo.booted) = Some (Method 0)
  ∧ ∃ s', dispatch_method_once Demo.header_size Demo.request1 0 Demo.booted
          = (s', AwaitingBody 0)
          ∧ ctx_method <$> contexts s' !! 0 = Some (Method 0).
Proof.
  destruct (C8_first_registered_service_wins Demo.header_size
              Demo.booted Demo.request1 0 [] [Demo.shadow] Demo.echo (Method 0))
    as (Hfind & _ & Hdispatch); [reflexivity | constructor | reflexivity |].
  split; [exact Hfind | apply Hdispatch; reflexivity].
Defined.

(** The session on the shard with room for two events: the third enqueue
    is refused, and after the drain the next one succeeds. *)
Lemma C9_enqueue_succeeds_iff_reservation_suffices_witness :
  (∀ predicted observed,
     (predicted, observed) ∈ Audit.attempts Audit.session Audit.shard →
     (observed = true ↔ predicted = true))
  ∧ (Audit.enqueue_some 10 [Audit.event10; Audit.event10; Audit.event10] Audit.shard).1
    = true.
Proof.
  destruct (C9_enqueue_succeeds_iff_reservation_suffices Audit.shard Audit.session)
    as [Hattempts Htest]; [reflexivity | reflexivity |].
  split; [exact Hattempts |].
  apply Htest; [reflexivity | repeat constructor].
Defined.

(** The garbled header again: nothing but its counter moves. *)
Lemma C10_failed_requests_touch_only_their_counter_witness :
  contexts (Demo.exec (Demo.garbled ++ [EvDispatch 0]) Demo.booted) = []
  ∧ _memory (Demo.exec (Demo.garbled ++ [EvDispatch 0]) Demo.booted)
    = _memory (Demo.exec Demo.garbled Demo.booted)
  ∧ in_bytes (_probe (Demo.exec (Demo.garbled ++ [EvDispatch 0]) Demo.booted)) = 0%Z.
Proof.
  destruct (C10_failed_requests_touch_only_their_counter
              Demo.header_size Demo.parse_header
              (Demo.exec Demo.garbled Demo.booted)
              (Demo.exec (Demo.garbled ++ [EvDispatch 0]) Demo.booted) 0
              {| addr := 1;
                 c_input := {| in_buf := [0; 0; 1; 0; 99; 5]%Z ++ Demo.frame 1 2 9;
                               in_eof := false |};
                 c_written := []; c_input_shutdown := false; c_shutdown := false;
                 c_dispatch := ParsingHeader |}
              None {| in_buf := Demo.frame 1 2 9; in_eof := false |})
    as (Hx & _ & _ & Hm & Hb & _); try (vm_compute; reflexivity).
  split_and!; [exact Hx | exact Hm | exact Hb].
Defined.

(** * Further properties of the server *)


Section MoreProperties.

Variable header_size : Z.
Variable parse_header : input_stream → option header * input_stream.

Local Abbreviation step := (step header_size parse_header).
Local Abbreviation run := (run header_size parse_header).
Local Abbreviation reachable := (reachable header_size parse_header).

Lemma may_proceed_spec (m : semaphore) (n : Z) :
  may_proceed m n = true ↔ (n ≤ sem_count m)%Z ∧ sem_wait_list m = [].
Proof.
  unfold may_proceed. rewrite andb_true_iff, Z.leb_le, bool_decide_eq_true. done.
Qed.

(** X1: [reserve_memory] hands the units over at once exactly when the ask
    fits into the available units and nobody is queued; in every other case
    the handler is suspended at the tail of the queue, cannot signal or
    resolve, and the waiting-for-memory counter goes up by one.  A granted
    reservation never moves that counter. *)
Theorem X1_reserve_memory_grants_or_queues
    (s s' : server) (i : nat) (ask : Z) (x : server_context_impl) :
  contexts s !! i = Some x →
  step (EvReserve i ask) s = Some s' →
  ((ask ≤ sem_count (_memory s))%Z ∧ sem_wait_list (_memory s) = [] →
     contexts s' !! i = Some (ctx_grant ask x)
     ∧ sem_count (_memory s') = (sem_count (_memory s) - ask)%Z
     ∧ sem_wait_list (_memory s') = []
     ∧ _probe s' = _probe s)
  ∧ ((sem_count (_memory s) < ask)%Z ∨ sem_wait_list (_memory s) ≠ [] →
     contexts s' !! i = Some (ctx_suspend x)
     ∧ sem_count (_memory s') = sem_count (_memory s)
     ∧ sem_wait_list (_memory s') = sem_wait_list (_memory s) ++ [(i, ask)]
     ∧ _probe s' = waiting_for_available_memory (_probe s)
     ∧ step (EvSignal i) s' = None
     ∧ ∀ n, step (EvResolve i n) s' = None).
Proof.
  intros Hx He. simpl in He. rewrite Hx in He. simpl in He.
  destruct (runnable x) eqn:Hr; [| done]. injection He as <-.
  unfold reserve_memory, get_units.
  destruct (may_proceed (_memory s) ask) eqn:Hm.
  - apply may_proceed_spec in Hm as [Hfit Hnone]. split; [| intros [? | ?]; [lia | done]].
    intros _. simpl. rewrite Hnone. simpl.
    rewrite list_lookup_alter_eq, Hx. done.
  - split.
    { intros Hok. apply may_proceed_spec in Hok. congruence. }
    intros _. simpl.
    assert (Hw : bool_decide (waiters {| sem_count := sem_count (_memory s);
                  sem_wait_list := sem_wait_list (_memory s) ++ [(i, ask)] |} ≠ 0) = true).
    { apply bool_decide_eq_true. unfold waiters. simpl. rewrite length_app. simpl. lia. }
    rewrite Hw. simpl. rewrite !list_lookup_alter_eq, Hx. simpl.
    unfold runnable. simpl. rewrite andb_false_r. done.
Qed.

(** X2: when the loop reaches its stop condition with the input at EOF, or
    with abort requested, it ends without error and the connection is shut
    down: two tasks later the connection is closed, the dispatch fiber has
    left the gate, no counter has moved and no handler was started. *)
Theorem X2_peer_close_ends_loop_quietly
    (s : server) (c : nat) (conn : connection) :
  _connections s !! c = Some conn →
  c_dispatch conn = AtCondition →
  in_eof (c_input conn) = true ∨ _as s = true →
  ∃ s',
    run [EvDispatch c; EvDispatch c] s = Some s'
    ∧ _connections s' !! c = Some (conn_set_dispatch Closed (conn_shutdown conn))
    ∧ (∀ c', c' ≠ c → _connections s' !! c' = _connections s !! c')
    ∧ _probe s' = _probe s
    ∧ contexts s' = contexts s
    ∧ calls s' = calls s ++ [CallShutdown c]
    ∧ _conn_gate s' = gate_leave (_conn_gate s).
Proof.
  intros Hc Hd Hend.
  set (s1 := update_connection (conn_set_dispatch Finished) c s).
  assert (H1 : step (EvDispatch c) s = Some s1).
  { rewrite (dispatch_condition header_size parse_header s c conn) by done.
    by destruct Hend as [-> | ->]; rewrite ?orb_true_r. }
  assert (Hc1 : _connections s1 !! c = Some (conn_set_dispatch Finished conn)).
  { simpl. by rewrite list_lookup_alter_eq, Hc. }
  exists (closing_client c s1). split_and!; try done.
  - apply run_cons. exists s1. split; [done |]. apply run_cons.
    exists (closing_client c s1). split; [| done].
    eapply dispatch_closing; [done |]. by left.
  - simpl. by rewrite !list_lookup_alter_eq, Hc.
  - intros c' Hne. simpl. by rewrite !list_lookup_alter_ne.
Qed.

(** X3: a well-formed request of a registered method that is parsed after
    the gate was closed is counted as received bytes, but no handler is
    started for it, no request is completed, and the loop fails with
    [gate_closed_exception]. *)
Theorem X3_dispatch_after_gate_closed
    (s s' : server) (c : nat) (conn : connection) (h : header)
    (rest : input_stream) (m : method) :
  _connections s !! c = Some conn →
  c_dispatch conn = ParsingHeader →
  parse_header (c_input conn) = (Some h, rest) →
  find_method (meta h) (_services s) = Some m →
  is_closed (_conn_gate s) = true →
  step (EvDispatch c) s = Some s' →
  _connections s' !! c
  = Some (conn_set_dispatch (Failed gate_closed_exception) (conn_set_input rest conn))
  ∧ in_bytes (_probe s') = (in_bytes (_probe s) + (header_size + size h) `mod` 2 ^ 64)%Z
  ∧ requests_completed (_probe s') = requests_completed (_probe s)
  ∧ method_not_found_errors (_probe s') = method_not_found_errors (_probe s)
  ∧ contexts s' = contexts s
  ∧ calls s' = calls s
  ∧ _conn_gate s' = _conn_gate s.
Proof.
  intros Hc Hd Hp Hm Hg He. simpl in He. unfold continous_method_dispath in He.
  rewrite Hc in He. simpl in He. rewrite Hd, Hp in He.
  unfold dispatch_method_once in He. simpl in He. rewrite Hm in He. simpl in He.
  rewrite Hg in He. injection He as <-. simpl.
  by rewrite !list_lookup_alter_eq, Hc.
Qed.

(** X4: a task that runs on behalf of one connection (a step of its
    dispatch loop, or a call or the resolution of a handler started on it)
    leaves every other connection exactly as it was. *)
Theorem X4_tasks_touch_only_their_connection
    (s s' : server) (e : event) (c c' : nat) :
  task_connection s e = Some c →
  step e s = Some s' →
  c' ≠ c →
  _connections s' !! c' = _connections s !! c'.
Proof.
  intros Ht He Hne.
  destruct e as [l f | d | j k | j ask | j | j n | |]; simpl in Ht; try done.
  all: step_cases He; simpl in *; simplify_eq.
  all: try (by rewrite ?list_lookup_alter_ne).
  all: destruct (return_units_frame j s) as (Fc & _); rewrite Fc.
  - done.
  - pose proof (return_units_same j s j _ _ Heqo Heqo0) as Hcore.
    unfold core in Hcore. injection Hcore as _ _ Hconn _ _.
    rewrite list_lookup_alter_ne by congruence. done.
Qed.

(** X5: whether a reply is written depends on the gate only, not on the
    connection: when the connection of a handler was already shut down
    (its loop failed or the peer closed) and the gate is open, the reply
    is still handed to the connection's write. *)
Theorem X5_reply_written_to_shut_down_connection
    (s s' : server) (i : nat) (n : netbuf) (x : server_context_impl)
    (conn : connection) :
  contexts s !! i = Some x →
  _connections s !! ctx_conn x = Some conn →
  c_shutdown conn = true →
  is_closed (_conn_gate s) = false →
  step (EvResolve i n) s = Some s' →
  _connections s' !! ctx_conn x = Some (conn_append_written (stamped x n) conn)
  ∧ c_shutdown <$> _connections s' !! ctx_conn x = Some true
  ∧ calls s' = calls s ++ [CallWrite (ctx_conn x) (stamped x n)].
Proof.
  intros Hx Hc Hshut Hg He.
  destruct (resolve_open header_size parse_header s i n x s' Hx He Hg)
    as (Hconns & _ & Hcalls & _).
  rewrite Hconns, list_lookup_alter_eq, Hc. simpl. by rewrite Hshut.
Qed.

(** ** Started servers, again *)

Lemma registered_state c services :
  let s := foldl (λ s srvc, register_service srvc s) (server_new c) services in
  set_services [] s = server_new c ∧ _services s = services.
Proof.
  simpl. induction services as [|srvc services IH] using rev_ind; [done |].
  rewrite foldl_app. simpl. destruct IH as [IH1 IH2]. split.
  - etrans; [| exact IH1]. reflexivity.
  - simpl. by rewrite IH2.
Qed.

Lemma start_on_state listens addresses s s0 :
  start_on listens addresses s = Some s0 →
  _connections s0 = _connections s ∧ contexts s0 = contexts s
  ∧ _probe s0 = _probe s ∧ _memory s0 = _memory s ∧ cfg s0 = cfg s
  ∧ _as s0 = _as s ∧ g_closed (_conn_gate s0) = g_closed (_conn_gate s)
  ∧ _services s0 = _services s ∧ calls s0 = calls s
  ∧ lifecycle s0 = lifecycle s ∧ _creds s0 = _creds s.
Proof.
  revert s. induction addresses as [|a rest IH]; intros s Hs; simpl in Hs.
  - by simplify_eq.
  - repeat case_match; simplify_eq. by apply IH in Hs.
Qed.

Lemma started_state c services listens s0 :
  start listens (foldl (λ s srvc, register_service srvc s) (server_new c) services)
    = Some s0 →
  _connections s0 = [] ∧ contexts s0 = []
  ∧ _probe s0 = _probe (server_new c) ∧ _memory s0 = _memory (server_new c)
  ∧ cfg s0 = c ∧ _as s0 = false ∧ g_closed (_conn_gate s0) = false
  ∧ _services s0 = services ∧ calls s0 = [] ∧ lifecycle s0 = Serving
  ∧ _creds s0 = credentials c.
Proof.
  intros Hs. apply start_on_state in Hs.
  destruct (registered_state c services) as [Hreg Hsv]. simpl in Hreg.
  set (s := foldl _ _ _) in *.
  assert (Hfields : _connections s = [] ∧ contexts s = []
                    ∧ _probe s = _probe (server_new c)
                    ∧ _memory s = _memory (server_new c) ∧ cfg s = c
                    ∧ _as s = false ∧ g_closed (_conn_gate s) = false
                    ∧ calls s = [] ∧ lifecycle s = Serving
                    ∧ _creds s = credentials c).
  { change (_connections s) with (_connections (set_services [] s)).
    change (contexts s) with (contexts (set_services [] s)).
    change (_probe s) with (_probe (set_services [] s)).
    change (_memory s) with (_memory (set_services [] s)).
    change (cfg s) with (cfg (set_services [] s)).
    change (_as s) with (_as (set_services [] s)).
    change (_conn_gate s) with (_conn_gate (set_services [] s)).
    change (calls s) with (calls (set_services [] s)).
    change (lifecycle s) with (lifecycle (set_services [] s)).
    change (_creds s) with (_creds (set_services [] s)).
    rewrite Hreg. done. }
  destruct Hfields as (F1 & F2 & F3 & F4 & F5 & F6 & F7 & F8 & F9 & F10).
  destruct Hs as (G1 & G2 & G3 & G4 & G5 & G6 & G7 & G8 & G9 & G10 & G11).
  rewrite G1, G2, G3, G4, G5, G6, G7, G8, G9, G10, G11. done.
Qed.

(** Induction over the reachable states. *)
Lemma reachable_ind (P : server → Prop) :
  (∀ c services listens s0,
     start listens (foldl (λ s srvc, register_service srvc s) (server_new c) services)
       = Some s0 → P s0) →
  (∀ e s s', well_formed s → P s → step e s = Some s' → P s') →
  ∀ s, reachable s → P s.
Proof.
  intros Hinit Hstep s (c & services & listens & schedule & s0 & Hs & Hr).
  assert (Hwf0 : well_formed s0).
  { eapply (reachable_well_formed header_size parse_header).
    exists c, services, listens, [], s0. done. }
  specialize (Hinit _ _ _ _ Hs).
  enough (well_formed s ∧ P s) as [_ ?]; [done |].
  revert Hr. apply (run_keeps header_size parse_header (λ s, well_formed s ∧ P s)); [| done].
  intros e s1 s2 [Hwf HP] He. split; [| by eauto].
  by eapply step_well_formed.
Qed.

(** ** Counters *)

Lemma countb_core (p : server_context_impl → bool) (l l' : list server_context_impl) :
  (∀ x y, core x = core y → p x = p y) →
  core <$> l' = core <$> l → countb p l' = countb p l.
Proof.
  intros Hp. revert l'. induction l as [|x l IH]; intros [|y l'] Heq;
    try discriminate Heq; [done |].
  rewrite !fmap_cons in Heq.
  assert (Hc : core y = core x) by congruence.
  assert (Hrest : core <$> l' = core <$> l) by congruence.
  simpl. rewrite (Hp y x Hc). f_equal. by apply IH.
Qed.

Lemma is_finished_core x y : core x = core y → is_finished x = is_finished y.
Proof.
  unfold core, is_finished, is_running. intros [= _ _ _ _ Hr]. by rewrite Hr.
Qed.

Lemma step_completed e s s' :
  requests_completed (_probe s) = Z.of_nat (countb is_finished (contexts s)) →
  step e s = Some s' →
  requests_completed (_probe s') = Z.of_nat (countb is_finished (contexts s')).
Proof.
  intros Hinv H. destruct e; step_cases H; simpl in *.
  all: rewrite ?countb_app; simpl.
  all: try match goal with
       | |- context [return_units ?i ?s] =>
           pose proof (countb_core is_finished _ _ is_finished_core
                         (return_units_core i s))
       end.
  all: use_frames.
  all: count_alters; bools.
  all: rewrite_lookups.
  all: unfold is_finished, is_running in *; simpl in *.
  all: try (repeat case_match; simplify_eq/=; lia).
  all: rewrite_frames.
  all: repeat case_match; simplify_eq/=; lia.
Qed.

(** X6: the requests-completed counter always equals the number of started
    handlers that have resolved, whether their reply was written or
    skipped: every handler is counted once, on completion. *)
Theorem X6_requests_completed_counts_finished_handlers (s : server) :
  reachable s →
  requests_completed (_probe s) = Z.of_nat (countb is_finished (contexts s)).
Proof.
  revert s. apply reachable_ind.
  - intros c services listens s0 Hs.
    destruct (started_state c services listens s0 Hs) as (_ & -> & -> & _). done.
  - intros e s s' _ HP He. by eapply step_completed.
Qed.

Lemma accounted_app hs xs ys :
  accounted hs (xs ++ ys) = (accounted hs xs + accounted hs ys)%Z.
Proof. induction xs as [|x xs IH]; simpl; [done | rewrite IH; lia]. Qed.

Lemma accounted_nonneg hs xs : (0 ≤ accounted hs xs)%Z.
Proof.
  induction xs as [|x xs IH]; simpl; [done |].
  pose proof (Z.mod_pos_bound (hs + size (get_header x)) (2 ^ 64)). lia.
Qed.

Lemma accounted_core hs (l l' : list server_context_impl) :
  core <$> l' = core <$> l → accounted hs l' = accounted hs l.
Proof.
  revert l'. induction l as [|x l IH]; intros [|y l'] Heq;
    try discriminate Heq; [done |].
  rewrite !fmap_cons in Heq.
  assert (Hc : core y = core x) by congruence.
  assert (Hrest : core <$> l' = core <$> l) by congruence.
  unfold core in Hc. injection Hc as Hh _ _ _ _.
  simpl. unfold get_header. rewrite Hh. f_equal. by apply IH.
Qed.

Lemma accounted_alter hs f i xs :
  (∀ x, _h (f x) = _h x) → accounted hs (alter f i xs) = accounted hs xs.
Proof.
  intros Hf. revert i. induction xs as [|x xs IH]; intros [|i]; simpl; try done.
  - unfold get_header. by rewrite Hf.
  - f_equal. apply IH.
Qed.

Lemma step_accounted e s s' :
  (accounted header_size (contexts s) ≤ in_bytes (_probe s))%Z
  ∧ (is_closed (_conn_gate s) = false →
     in_bytes (_probe s) = accounted header_size (contexts s)) →
  step e s = Some s' →
  (accounted header_size (contexts s') ≤ in_bytes (_probe s'))%Z
  ∧ (is_closed (_conn_gate s') = false →
     in_bytes (_probe s') = accounted header_size (contexts s')).
Proof.
  intros [Hle Heq] H. destruct e; step_cases H; simpl in *.
  all: rewrite ?accounted_app; simpl.
  all: try match goal with
       | |- context [return_units ?i ?s] =>
           pose proof (accounted_core header_size _ _ (return_units_core i s))
       end.
  all: use_frames; bools.
  all: rewrite ?accounted_alter by done.
  all: rewrite_frames.
  all: try (split; [lia | intros; simplify_eq/=; try lia; by rewrite ?Heq]).
  all: try (pose proof (Z.mod_pos_bound (header_size + size h) (2 ^ 64));
            split; [lia | done]).
  all: split; [lia | intros; by apply Heq].
Qed.

(** X7: the bytes-received counter never falls behind the requests whose
    handlers were started: as long as the gate is open it is exactly the
    sum of [(header_size + size) mod 2^64] over those requests, and after
    the gate closed it can only exceed that sum (by requests parsed but
    refused at the gate). *)
Theorem X7_bytes_received_accounts_started_requests (s : server) :
  reachable s →
  (accounted header_size (contexts s) ≤ in_bytes (_probe s))%Z
  ∧ (is_closed (_conn_gate s) = false →
     in_bytes (_probe s) = accounted header_size (contexts s)).
Proof.
  revert s. apply reachable_ind.
  - intros c services listens s0 Hs.
    destruct (started_state c services listens s0 Hs) as (_ & -> & -> & _). done.
  - intros e s s' _ HP He. by eapply step_accounted.
Qed.

(** ** Replies and requests *)

Lemma omap_alter_same {A B} (f : A → option B) (g : A → A) (i : nat) (l : list A) :
  (∀ x, f (g x) = f x) → omap f (alter g i l) = omap f l.
Proof.
  intros Hfg. revert i. induction l as [|x l IH]; intros [|i]; simpl; try done.
  - by rewrite Hfg.
  - change (list_alter g i l) with (alter g i l). by rewrite IH.
Qed.

Lemma omap_alter_fresh {A B} (f : A → option B) (g : A → A) (i : nat) (l : list A) (x : A) :
  l !! i = Some x → f x = None →
  omap f (alter g i l) ≡ₚ omap f l ++ option_list (f (g x)).
Proof.
  revert i. induction l as [|y l IH]; intros [|i] Hi Hx; simplify_eq/=.
  - rewrite Hx. destruct (f (g x)) as [v|]; simpl.
    + by rewrite <- Permutation_cons_append.
    + by rewrite app_nil_r.
  - change (list_alter g i l) with (alter g i l).
    destruct (f y); simpl; rewrite (IH i) by done; done.
Qed.

Lemma written_reply_core c x y : core x = core y → written_reply c x = written_reply c y.
Proof.
  unfold core, written_reply. intros [= _ _ Hc _ Hr]. by rewrite Hc, Hr.
Qed.

Lemma omap_core {B} (f : server_context_impl → option B) (l l' : list server_context_impl) :
  (∀ x y, core x = core y → f x = f y) →
  core <$> l' = core <$> l → omap f l' = omap f l.
Proof.
  intros Hf. revert l'. induction l as [|x l IH]; intros [|y l'] Heq;
    try discriminate Heq; [done |].
  rewrite !fmap_cons in Heq.
  assert (Hc : core y = core x) by congruence.
  assert (Hrest : core <$> l' = core <$> l) by congruence.
  simpl. rewrite (Hf y x Hc). destruct (f x); [f_equal |]; by apply IH.
Qed.

Lemma step_replies e s s' c :
  step e s = Some s' →
  omap (written_reply c) (contexts s')
  ≡ₚ omap (written_reply c) (contexts s) ++ written_by e c s.
Proof.
  intros H.
  destruct e as [l f | d | j k | j ask | j | j n | |].
  6: {
    destruct (resolve_inv header_size parse_header s j n s' H) as (x & Hx & Hr & Hp).
    destruct (resolve_enabled header_size parse_header s j n x Hx Hr Hp)
      as (s1 & x' & He & Hx' & Hcore & Hk).
    assert (s1 = s') as -> by congruence. clear He.
    simpl. rewrite Hx.
    destruct (return_units_frame j s) as (_ & Fg & _).
    unfold reply_continuation in Hk. rewrite Hx' in Hk. simpl in Hk. rewrite Fg in Hk.
    assert (Hrun : written_reply c x' = None).
    { rewrite (written_reply_core c x' x Hcore). unfold written_reply.
      unfold runnable, is_running in Hr. by destruct (ctx_reply x). }
    pose proof (omap_core (written_reply c) _ _ (written_reply_core c)
                  (return_units_core j s)) as Hsame.
    unfold core in Hcore. injection Hcore as Hh _ Hc _ _.
    destruct (is_closed (_conn_gate s)); injection Hk as <-; simpl.
    - rewrite andb_false_r, app_nil_r.
      rewrite (omap_alter_fresh _ _ j _ x') by done.
      simpl. unfold written_reply at 2. simpl. by rewrite app_nil_r, Hsame.
    - rewrite andb_true_r.
      rewrite (omap_alter_fresh _ _ j _ x') by done.
      rewrite Hsame. unfold written_reply at 2. simpl.
      unfold stamped, get_header. rewrite Hc, Hh. by case_bool_decide. }
  all: step_cases H; simpl in *.
  all: rewrite ?app_nil_r.
  all: try done.
  all: try (by rewrite omap_alter_same).
  all: try (by rewrite omap_app; simpl; rewrite app_nil_r).
  all: try (by destruct (stop_frame s) as (-> & _)).
  all: try (by destruct (stop_continuation_frame s) as (-> & _)).
Qed.

(** A handler that has resolved is never run again. *)
Lemma step_finished_stable e s s' i x :
  step e s = Some s' → contexts s !! i = Some x → is_finished x = true →
  ctx_reply <$> contexts s' !! i = Some (ctx_reply x).
Proof.
  intros H Hx Hfin.
  destruct e as [l f | c | j k | j ask | j | j n | |]; step_cases H; simpl in *.
  all: try done.
  all: try (by rewrite Hx).
  all: try (rewrite lookup_app_l by (by eapply lookup_lt_Some); by rewrite Hx).
  all: try (rewrite list_lookup_alter; case_decide; subst; rewrite ?Hx; done).
  all: try (destruct (stop_frame s) as (-> & _); by rewrite Hx).
  all: try (destruct (stop_continuation_frame s) as (-> & _); by rewrite Hx).
  all: destruct (return_units_lookup j s i x Hx) as (y & Hy & Hcore);
    unfold core in Hcore; injection Hcore as _ _ _ _ Hrp.
  all: rewrite list_lookup_alter; case_decide; subst; rewrite Hy; simpl;
    [| by rewrite Hrp].
  all: exfalso; assert (x = H0) as -> by congruence;
    unfold is_finished, runnable in *; by destruct (is_running H0).
Qed.

(** X8: on every connection, what was written is, up to order, exactly
    the replies of the handlers started on that connection whose reply
    state is [Written]: every request is answered at most once and nothing
    else is ever written.  A handler that has resolved keeps its outcome
    whatever runs afterwards. *)
Theorem X8_one_reply_per_answered_request (s : server) :
  reachable s →
  (∀ c, written_on c s ≡ₚ omap (written_reply c) (contexts s))
  ∧ (∀ e s' i x,
       step e s = Some s' → contexts s !! i = Some x → is_finished x = true →
       ctx_reply <$> contexts s' !! i = Some (ctx_reply x)).
Proof.
  intros Hreach. split; [| intros; by eapply step_finished_stable].
  revert s Hreach. apply (reachable_ind (λ s, ∀ c, written_on c s ≡ₚ _)).
  - intros c services listens s0 Hs c0.
    destruct (started_state c services listens s0 Hs) as (Hc & -> & _).
    unfold written_on. by rewrite Hc.
  - intros e s s' Hwf HP He c.
    rewrite (step_written header_size parse_header e s s' c) by (done || (intros _; apply Hwf)).
    rewrite (step_replies e s s' c He), (HP c). done.
Qed.

(** ** After [stop] *)

Local Transparent stop stop_continuation.

Lemma stop_closed_inv s : closed_inv s → closed_inv (stop s).
Proof.
  intros Hinv. unfold stop, closed_inv. simpl.
  apply (foldl_keeps (λ s, closed_inv s) shutdown_input).
  - intros s0 c H0. unfold closed_inv in *. simpl.
    apply Forall_alter; [done |]. intros conn Hc. simpl. done.
  - unfold closed_inv. simpl.
    by apply (foldl_keeps (λ s, closed_inv s) abort_accept).
Qed.

Lemma stop_continuation_closed_inv s : closed_inv s → closed_inv (stop_continuation s).
Proof.
  intros Hinv. unfold stop_continuation, closed_inv. simpl.
  apply (foldl_keeps (λ s, closed_inv s) shutdown); [| done].
  intros s0 c H0. unfold closed_inv in *. simpl.
  apply Forall_alter; [done |]. intros conn Hc. simpl. done.
Qed.

Lemma stop_connections_length s :
  length (_connections (stop s)) = length (_connections s).
Proof.
  destruct (stop_frame s) as (_ & _ & _ & _ & _ & _ & _ & _ & _ & Hd & _).
  apply (f_equal length) in Hd. by rewrite !length_fmap in Hd.
Qed.

Lemma stop_continuation_connections_length s :
  length (_connections (stop_continuation s)) = length (_connections s).
Proof.
  destruct (stop_continuation_frame s) as (_ & _ & _ & _ & _ & _ & _ & _ & Hd & _).
  apply (f_equal length) in Hd. by rewrite !length_fmap in Hd.
Qed.

Local Opaque stop stop_continuation.

Lemma step_closed_inv e s s' : closed_inv s → step e s = Some s' → closed_inv s'.
Proof.
  intros Hinv H. destruct e; step_cases H; simpl in *.
  all: try (by apply stop_closed_inv).
  all: try (by apply stop_continuation_closed_inv).
  all: unfold closed_inv in *; simpl.
  all: try match goal with
       | |- context [return_units ?i ?s] =>
           destruct (return_units_frame i s) as (-> & _)
       end.
  all: try done.
  all: repeat first
         [ apply Forall_app; split; [| by repeat constructor]
         | apply Forall_alter; [| by intros; simpl in *; (done || congruence || auto) ] ].
  all: try done.
Qed.

Lemma registry_empty s :
  countb (λ conn, is_open (c_dispatch conn)) (_connections s) = 0 →
  countb is_running (contexts s) = 0 →
  registry s = [].
Proof.
  intros Hopen Hrun. unfold registry.
  induction (seq 0 (length (_connections s))) as [|c cs IH]; [done |].
  simpl. rewrite IH. unfold linked.
  destruct (_connections s !! c) as [conn|] eqn:Hc; [| done].
  rewrite (countb_zero _ _ c conn Hopen Hc). simpl.
  assert (Hnone : existsb (λ x, is_running x && (ctx_conn x =? c)) (contexts s) = false).
  { apply not_true_is_false. intros Hex. apply existsb_exists in Hex as (x & Hin & Hx).
    apply andb_prop in Hx as [Hx _].
    apply list_elem_of_In, list_elem_of_lookup in Hin as [i Hi].
    by rewrite (countb_zero _ _ i x Hrun Hi) in Hx. }
  by rewrite Hnone.
Qed.

(** X9: once [stop] has returned, nothing of the server is left running:
    the gate is empty, no accept loop is listening, every connection's
    dispatch loop has ended and its connection was shut down, and the
    connection registry is empty (the final [shutdown] pass of [stop] finds
    nothing to do). *)
Theorem X9_stopped_server_is_quiescent (s : server) :
  reachable s →
  lifecycle s = Stopped →
  g_count (_conn_gate s) = 0
  ∧ Forall (λ l, l_accepting l = false) (_listeners s)
  ∧ Forall (λ conn, c_dispatch conn = Closed ∧ c_shutdown conn = true) (_connections s)
  ∧ registry s = [].
Proof.
  intros Hreach Hstopped.
  assert (Hclosed : closed_inv s).
  { clear Hstopped. revert s Hreach. apply reachable_ind.
    - intros c services listens s0 Hs.
      destruct (started_state c services listens s0 Hs) as (Hc & _).
      unfold closed_inv. by rewrite Hc.
    - intros e s s' _ HP He. by eapply step_closed_inv. }
  destruct (reachable_well_formed header_size parse_header s Hreach)
    as (Hg & [_ Hempty] & _).
  specialize (Hempty Hstopped). unfold gate_inv in Hg. rewrite Hempty in Hg.
  assert (Hl : countb l_accepting (_listeners s) = 0) by lia.
  assert (Ho : countb (λ conn, is_open (c_dispatch conn)) (_connections s) = 0) by lia.
  assert (Hr : countb is_running (contexts s) = 0) by lia.
  split_and!; [done | | | by apply registry_empty].
  - apply Forall_lookup. intros i l Hi. by apply (countb_zero _ _ i l Hl Hi).
  - unfold closed_inv in Hclosed. rewrite Forall_lookup in Hclosed.
    apply Forall_lookup. intros c conn Hc.
    pose proof (countb_zero _ _ c conn Ho Hc) as Hd. simpl in Hd.
    assert (c_dispatch conn = Closed) by (by destruct (c_dispatch conn)).
    split; [done |]. by eapply Hclosed.
Qed.

Lemma step_aborted e s s' :
  _as s = true → step e s = Some s' →
  _as s' = true ∧ length (_connections s') = length (_connections s).
Proof.
  intros Ha H. destruct e; step_cases H; simpl in *.
  all: rewrite ?length_alter.
  all: try match goal with
       | |- context [return_units ?i ?s] =>
           destruct (return_units_frame i s) as (-> & _ & _ & _ & -> & _)
       end.
  all: rewrite ?length_alter.
  all: try done.
  all: try congruence.
  - destruct (stop_frame s) as (_ & _ & _ & _ & _ & _ & -> & _).
    by rewrite stop_connections_length.
  - destruct (stop_continuation_frame s) as (_ & _ & _ & _ & _ & _ & -> & _).
    by rewrite stop_continuation_connections_length.
Qed.

Lemma run_aborted schedule s s' :
  _as s = true → run schedule s = Some s' →
  _as s' = true ∧ length (_connections s') = length (_connections s).
Proof.
  revert s. induction schedule as [|e rest IH]; intros s Ha Hr.
  - simpl in Hr. by simplify_eq.
  - apply run_cons in Hr as (s1 & He & Hr).
    destruct (step_aborted e s s1 Ha He) as [Ha1 Hlen].
    destruct (IH s1 Ha1 Hr) as [? ?]. split; [done | congruence].
Qed.

(** X10: once [stop] has raised the abort source no connection is accepted
    any more: no schedule adds a connection, and whatever an accept future
    resolves with, its accept loop ends, leaves the gate and constructs no
    connection. *)
Theorem X10_no_connection_accepted_after_stop
    (s s' : server) (schedule : list event) :
  run schedule (stop s) = Some s' →
  length (_connections s') = length (_connections s)
  ∧ ∀ l f s2,
      step (EvAccept l f) s' = Some s2 →
      _connections s2 = _connections s'
      ∧ l_accepting <$> _listeners s2 !! l = Some false
      ∧ _conn_gate s2 = gate_leave (_conn_gate s').
Proof.
  intros Hr.
  assert (Ha0 : _as (stop s) = true)
    by (by destruct (stop_frame s) as (_ & _ & _ & _ & _ & _ & -> & _)).
  destruct (run_aborted schedule (stop s) s' Ha0 Hr) as [Ha Hlen].
  rewrite stop_connections_length in Hlen.
  split; [done |].
  intros l f s2 He. simpl in He. unfold accept in He.
  destruct (_listeners s' !! l) as [lst|] eqn:Hl; [| done]. simpl in He.
  repeat case_match; simplify_eq/=; try congruence.
  all: by rewrite list_lookup_alter_eq, Hl.
Qed.

(** ** Who reads the input *)

Ltac invert_lookups :=
  repeat match goal with
  | H : alter _ ?j _ !! ?i = Some _ |- _ =>
      rewrite list_lookup_alter in H; case_decide;
      [subst; apply fmap_Some in H as (? & H & ->) |]
  | H : (_ ++ [_]) !! _ = Some _ |- _ =>
      apply lookup_snoc_Some in H as [[? H] | [? ?]]
  | H : contexts (return_units ?j ?s) !! ?i = Some ?y |- _ =>
      let Hc := fresh "Hcore" in
      apply return_units_lookup_inv in H as (? & H & Hc);
      unfold core in Hc; injection Hc as ? ? ? ? ?
  end.

Ltac carry_over :=
  repeat match goal with
  | H : ctx_reply ?x = ctx_reply ?y, Hrun : context [ctx_reply ?x] |- _ =>
      rewrite H in Hrun
  | H : pr ?x = pr ?y, Hpr : pr ?x = false |- _ => rewrite H in Hpr
  end.

Ltac old_context HP :=
  match goal with
  | Hx : contexts ?s !! ?i = Some ?xo |- c_dispatch ?conn = AwaitingBody ?i =>
      apply (HP i xo conn Hx); [assumption | assumption | congruence]
  end.

Lemma step_exclusive e s s' :
  well_formed s → exclusive_input s → step e s = Some s' → exclusive_input s'.
Proof.
  intros (_ & _ & Hvalid) HP H i x conn Hx Hrun Hpr Hconn.
  destruct e as [l f | c | j k | j ask | j | j n | |]; step_cases H; simpl in *.
  all: try match goal with
       | Hx : contexts (stop ?s) !! _ = Some _ |- _ =>
           destruct (stop_frame s) as (Fx & _ & _ & _ & _ & _ & _ & _ & _ & Fd & _)
       | Hx : contexts (stop_continuation ?s) !! _ = Some _ |- _ =>
           destruct (stop_continuation_frame s)
             as (Fx & _ & _ & _ & _ & _ & _ & _ & Fd & _)
       end.
  all: try (rewrite Fx in Hx;
            destruct (fmap_eq_lookup c_dispatch _ _ _ _ (eq_sym Fd) Hconn)
              as (conn' & Hc' & <-);
            by eapply HP).
  all: try match goal with
       | H : context [return_units ?i ?s] |- _ =>
           destruct (return_units_frame i s) as (Fc & _); rewrite ?Fc in *
       end.
  all: invert_lookups; unfold is_running in *; simpl in *; subst.
  all: try (by eapply HP).
  all: try done.
  all: try (exfalso; match goal with
            | Hx : contexts _ !! _ = Some ?x, Hlen : ctx_conn ?x = length _ |- _ =>
                specialize (Hvalid _ _ Hx); lia
            end).
  all: carry_over.
  all: try (old_context HP).
  all: try (exfalso;
            match goal with
            | Hx : contexts ?s !! ?i = Some ?xo, Hc : _connections ?s !! _ = Some ?cn |- _ =>
                assert (c_dispatch cn = AwaitingBody i)
                  by (apply (HP i xo cn Hx); [assumption | assumption | congruence]);
                congruence
            end).
Qed.

Lemma reachable_exclusive s : reachable s → exclusive_input s.
Proof.
  apply (reachable_ind exclusive_input).
  - intros c services listens s0 Hs i x conn Hx.
    destruct (started_state _ _ _ _ Hs) as (_ & Hnil & _).
    rewrite Hnil in Hx. done.
  - intros e s1 s2 Hwf HP H. by eapply step_exclusive.
Qed.

(** X11: while a handler has not signalled that it has consumed its body,
    it is the only unsignalled handler of its connection, and the
    connection's loop is suspended: it reads no further header from the
    input the handler is still reading. *)
Theorem X11_one_reader_per_connection s i j x y :
  reachable s →
  contexts s !! i = Some x → is_running x = true → pr x = false →
  contexts s !! j = Some y → is_running y = true → pr y = false →
  ctx_conn y = ctx_conn x →
  i = j ∧ step (EvDispatch (ctx_conn x)) s = None.
Proof.
  intros Hreach Hx Hrx Hpx Hy Hry Hpy Hc.
  pose proof (reachable_exclusive s Hreach) as HP.
  destruct (reachable_well_formed header_size parse_header s Hreach) as (_ & _ & Hvalid).
  destruct (lookup_lt_is_Some_2 _ _ (Hvalid _ _ Hx)) as [conn Hconn].
  pose proof (HP i x conn Hx Hrx Hpx Hconn) as Hi.
  assert (Hj : c_dispatch conn = AwaitingBody j).
  { apply (HP j y conn Hy Hry Hpy). by rewrite Hc. }
  split; [congruence |].
  rewrite (dispatch_awaiting header_size parse_header s _ conn i x Hconn Hi Hx).
  by rewrite Hpx.
Qed.

(** ** The memory budget *)

Lemma held_units_app xs ys :
  held_units (xs ++ ys) = (held_units xs + held_units ys)%Z.
Proof. induction xs as [|x xs IH]; simpl; [done | rewrite IH; lia]. Qed.

Lemma held_units_alter f i xs :
  held_units (alter f i xs)
  = (held_units xs
     + match xs !! i with
       | Some x => ctx_units (f x) - ctx_units x
       | None => 0
       end)%Z.
Proof.
  revert i. induction xs as [|x xs IH]; intros [|i]; simpl; try lia.
  change (list_alter f i xs) with (alter f i xs). rewrite IH. lia.
Qed.

Lemma held_units_nonneg xs :
  Forall (λ x, (0 ≤ ctx_units x)%Z) xs → (0 ≤ held_units xs)%Z.
Proof. induction 1; simpl; lia. Qed.

Lemma wake_spec count ws :
  ∀ count' granted staying,
    wake count ws = (count', granted, staying) →
    ws = granted ++ staying ∧ count' = (count - granted_units granted)%Z
    ∧ (Forall (λ w, (0 ≤ w.2)%Z) ws → (0 ≤ count)%Z → (0 ≤ count')%Z).
Proof.
  revert count. induction ws as [|[i n] ws IH]; intros count count' granted staying H;
    simpl in H.
  - simplify_eq. simpl. split_and!; [done | lia | done].
  - destruct (n <=? count)%Z eqn:Hn.
    + destruct (wake (count - n) ws) as [[c1 g1] st1] eqn:Hw. simplify_eq.
      destruct (IH _ _ _ _ Hw) as (-> & -> & Hpos). simpl.
      split_and!; [done | lia |].
      intros Hall Hc. apply Forall_cons in Hall as [_ Hall]. apply Hpos; [done | lia].
    + simplify_eq. simpl. split_and!; [done | lia | done].
Qed.

Lemma grants_length (grants : list (nat * Z)) xs :
  length (foldl (λ xs g, alter (ctx_grant g.2) g.1 xs) xs grants) = length xs.
Proof.
  revert xs. induction grants as [|g grants IH]; intros xs; simpl; [done |].
  by rewrite IH, length_alter.
Qed.

Lemma grants_held (grants : list (nat * Z)) xs :
  Forall (λ g, g.1 < length xs) grants →
  held_units (foldl (λ xs g, alter (ctx_grant g.2) g.1 xs) xs grants)
  = (held_units xs + granted_units grants)%Z.
Proof.
  revert xs. induction grants as [|g grants IH]; intros xs Hall; simpl; [lia |].
  apply Forall_cons in Hall as [Hg Hall].
  rewrite IH by (by rewrite length_alter).
  rewrite held_units_alter.
  destruct (lookup_lt_is_Some_2 _ _ Hg) as [x ->]. simpl. lia.
Qed.

Lemma grants_nonneg (grants : list (nat * Z)) xs :
  Forall (λ g, (0 ≤ g.2)%Z) grants →
  Forall (λ x, (0 ≤ ctx_units x)%Z) xs →
  Forall (λ x, (0 ≤ ctx_units x)%Z)
         (foldl (λ xs g, alter (ctx_grant g.2) g.1 xs) xs grants).
Proof.
  revert xs. induction grants as [|g grants IH]; intros xs Hg Hxs; simpl; [done |].
  apply Forall_cons in Hg as [Hg Hall]. apply IH; [done |].
  apply Forall_alter; [done |]. intros x Hx. simpl. lia.
Qed.

Local Transparent return_units stop stop_continuation.

Lemma return_units_memory i s x :
  contexts s !! i = Some x → memory_inv s → memory_inv (return_units i s).
Proof.
  intros Hx [Hsum Hws]. unfold return_units. rewrite Hx.
  destruct (wake _ _) as [[count granted] staying] eqn:Hw.
  destruct (wake_spec _ _ _ _ _ Hw) as (Hsplit & -> & _).
  rewrite Hsplit in Hws. apply Forall_app in Hws as [Hg Hst].
  split; simpl.
  - rewrite grants_held by (by rewrite length_alter).
    rewrite held_units_alter, Hx. simpl. lia.
  - by rewrite grants_length, length_alter.
Qed.

Lemma return_units_nonneg i s : nonneg_inv s → nonneg_inv (return_units i s).
Proof.
  intros (Hc & Hxs & Hws). unfold return_units.
  destruct (contexts s !! i) as [x|] eqn:Hx; [| done].
  destruct (wake _ _) as [[count granted] staying] eqn:Hw.
  destruct (wake_spec _ _ _ _ _ Hw) as (Hsplit & _ & Hpos).
  pose proof Hws as Hws'. rewrite Hsplit in Hws'. apply Forall_app in Hws' as [Hg Hst].
  split_and!; simpl.
  - apply Hpos; [done |].
    pose proof (Forall_lookup_1 _ _ _ _ Hxs Hx) as Hu. simpl in Hu. lia.
  - apply grants_nonneg; [done |]. apply Forall_alter; [done |]. by intros.
  - done.
Qed.

Lemma return_units_cfg i s : cfg (return_units i s) = cfg s.
Proof.
  unfold return_units. destruct (contexts s !! i); [| done].
  by destruct (wake _ _) as [[count granted] staying].
Qed.

Lemma stop_cfg s : cfg (stop s) = cfg s.
Proof.
  unfold stop. simpl. rewrite (foldl_proj cfg) by done. simpl.
  by rewrite (foldl_proj cfg).
Qed.

Lemma stop_continuation_cfg s : cfg (stop_continuation s) = cfg s.
Proof. unfold stop_continuation. simpl. by rewrite (foldl_proj cfg). Qed.

Local Opaque return_units stop stop_continuation.

Lemma step_cfg e s s' : step e s = Some s' → cfg s' = cfg s.
Proof.
  intros H. destruct e; step_cases H; simpl;
    rewrite ?return_units_cfg, ?stop_cfg, ?stop_continuation_cfg; done.
Qed.

Lemma step_memory_inv e s s' :
  memory_inv s → step e s = Some s' → memory_inv s'.
Proof.
  unfold memory_inv. intros Hm H.
  destruct e as [l f | c | j k | j ask | j | j n | |]; step_cases H.
  all: try match goal with
       | Hx : contexts ?s !! ?i = Some _ |- context [return_units ?i ?s] =>
           pose proof (return_units_memory i s _ Hx Hm) as [Hsum' Hws']
       end.
  all: try match goal with
       | |- context [stop ?s] =>
           destruct (stop_frame s) as (Fx & _ & Fm & _);
           rewrite <- Fx, <- Fm, <- (stop_cfg s) in Hm
       | |- context [stop_continuation ?s] =>
           destruct (stop_continuation_frame s) as (Fx & _ & Fm & _);
           rewrite <- Fx, <- Fm, <- (stop_continuation_cfg s) in Hm
       end.
  all: destruct Hm as [Hsum Hws]; simpl in *.
  all: rewrite ?held_units_app, ?held_units_alter, ?length_alter, ?length_app; simpl.
  all: try match goal with
       | Hx : contexts _ !! _ = Some _ |- _ => rewrite ?Hx
       end; simpl.
  all: try done.
  all: try (split; [lia | eapply Forall_impl; [exact Hws | simpl; intros; lia]]).
  all: try (split; [lia |]; apply Forall_app; split; [done |];
            apply Forall_singleton; simpl; by eapply lookup_lt_Some).
  all: try (split; [lia | by rewrite ?length_alter]).
Qed.

Lemma step_nonneg_inv e s s' :
  sane_event e → nonneg_inv s → step e s = Some s' → nonneg_inv s'.
Proof.
  unfold nonneg_inv. intros He Hn H.
  destruct e as [l f | c | j k | j ask | j | j n | |]; step_cases H.
  all: try match goal with
       | |- context [return_units ?i ?s] =>
           pose proof (return_units_nonneg i s Hn) as (Hc' & Hxs' & Hws')
       end.
  all: try match goal with
       | |- context [stop ?s] =>
           destruct (stop_frame s) as (Fx & _ & Fm & _);
           rewrite <- Fx, <- Fm in Hn
       | |- context [stop_continuation ?s] =>
           destruct (stop_continuation_frame s) as (Fx & _ & Fm & _);
           rewrite <- Fx, <- Fm in Hn
       end.
  all: destruct Hn as (Hc & Hxs & Hws); simpl in *.
  all: try done.
  all: repeat match goal with
       | H : may_proceed _ _ = true |- _ =>
           unfold may_proceed in H; apply andb_true_iff in H as [H _];
           apply Z.leb_le in H
       end.
  all: split_and!; try done; try lia.
  all: try (apply Forall_alter; [done |]; simpl; intros; lia).
  all: try (apply Forall_app; split; [done |]; by apply Forall_singleton).
Qed.

Lemma run_nonneg_inv schedule s s' :
  Forall sane_event schedule → nonneg_inv s → run schedule s = Some s' →
  nonneg_inv s'.
Proof.
  revert s. induction schedule as [|e rest IH]; intros s Hsane Hn Hr.
  - simpl in Hr. congruence.
  - apply Forall_cons in Hsane as [He Hrest].
    apply run_cons in Hr as (s1 & H1 & Hr).
    eapply IH; [done | | done]. by eapply step_nonneg_inv.
Qed.

Lemma reachable_memory_inv s : reachable s → memory_inv s.
Proof.
  apply (reachable_ind memory_inv).
  - intros c services listens s0 Hs.
    destruct (started_state _ _ _ _ Hs) as (_ & Hx & _ & Hm & Hcfg & _).
    unfold memory_inv. rewrite Hx, Hm, Hcfg. simpl. split; [lia | done].
  - intros e s1 s2 _ Hm H. by eapply step_memory_inv.
Qed.


(** X13: with a non-negative budget and handlers that ask for
    non-negative amounts ([size_t ask]), the semaphore never goes below
    zero and never above the configured budget, and no handler holds more
    than the budget. *)
Theorem X13_memory_budget_is_never_overdrawn c services listens schedule s0 s :
  start listens (foldl (λ s srvc, register_service srvc s) (server_new c) services)
    = Some s0 →
  run schedule s0 = Some s →
  Forall sane_event schedule →
  (0 ≤ max_service_memory_per_core c)%Z →
  (0 ≤ sem_count (_memory s) ≤ max_service_memory_per_core c)%Z
  ∧ Forall (λ x, (0 ≤ ctx_units x ≤ max_service_memory_per_core c)%Z) (contexts s).
Proof.
  intros Hs Hr Hsane Hcap.
  destruct (started_state _ _ _ _ Hs) as (_ & Hx & _ & Hm & Hcfg & _).
  assert (Hn0 : nonneg_inv s0).
  { unfold nonneg_inv. rewrite Hx, Hm. simpl. done. }
  destruct (run_nonneg_inv _ _ _ Hsane Hn0 Hr) as (Hc & Hxs & _).
  assert (Hreach : reachable s) by (by exists c, services, listens, schedule, s0).
  destruct (reachable_memory_inv s Hreach) as [Hsum _].
  assert (Hcfg' : cfg s = c).
  { rewrite <- Hcfg. clear -Hr. revert s0 Hr.
    induction schedule as [|e rest IH]; intros s0 Hr.
    - simpl in Hr. congruence.
    - apply run_cons in Hr as (s1 & H1 & Hr).
      rewrite (IH _ Hr). by eapply step_cfg. }
  rewrite Hcfg' in Hsum.
  pose proof (held_units_nonneg _ Hxs) as Hheld.
  split; [lia |].
  apply Forall_lookup_2. intros i x Hi.
  pose proof (Forall_lookup_1 _ _ _ _ Hxs Hi) as Hu. simpl in Hu.
  split; [done |].
  assert (Hpart : (ctx_units x ≤ held_units (contexts s))%Z).
  { clear -Hxs Hi. revert i Hi. induction Hxs as [|y ys Hy Hys IH]; intros [|i] Hi;
      simplify_eq/=.
    - pose proof (held_units_nonneg _ Hys). lia.
    - specialize (IH _ Hi). lia. }
  lia.
Qed.

(** ** Starting *)

Lemma start_on_listeners listens addresses s :
  is_closed (_conn_gate s) = false →
  match start_on listens addresses s with
  | Some s0 =>
      Forall (λ a, listens a = true) addresses
      ∧ _listeners s0
        = _listeners s
          ++ ((λ a, {| l_addr := a; l_tls := _creds s;
                       l_aborted := false; l_accepting := true |}) <$> addresses)
      ∧ g_count (_conn_gate s0) = g_count (_conn_gate s) + length addresses
      ∧ is_closed (_conn_gate s0) = false
  | None => Exists (λ a, listens a = false) addresses
  end.
Proof.
  revert s. induction addresses as [|a rest IH]; intros s Hopen; simpl.
  - rewrite app_nil_r. split_and!; (done || lia).
  - destruct (listens a) eqn:Ha; simpl; [| by left].
    rewrite Hopen.
    set (s1 := set_gate _ _).
    specialize (IH s1 Hopen).
    destruct (start_on listens rest s1) as [s0|].
    + destruct IH as (Hall & Hl & Hg & Hc). split_and!; [by constructor | | | done].
      * rewrite Hl. simpl. by rewrite <- app_assoc.
      * rewrite Hg. simpl. lia.
    + by right.
Qed.

(** X14: [start] on a server whose gate is open fails exactly when some
    configured address cannot be listened on; when it succeeds, it has
    added one listener per configured address, in configuration order,
    TLS-wrapped exactly when the server has credentials, each with an
    accept loop inside the gate. *)
Theorem X14_start_listens_on_every_address listens s :
  is_closed (_conn_gate s) = false →
  match start listens s with
  | Some s0 =>
      Forall (λ a, listens a = true) (addrs (cfg s))
      ∧ _listeners s0
        = _listeners s
          ++ ((λ a, {| l_addr := a; l_tls := _creds s;
                       l_aborted := false; l_accepting := true |}) <$> addrs (cfg s))
      ∧ g_count (_conn_gate s0) = g_count (_conn_gate s) + length (addrs (cfg s))
  | None => Exists (λ a, listens a = false) (addrs (cfg s))
  end.
Proof.
  intros Hopen. unfold start.
  pose proof (start_on_listeners listens (addrs (cfg s)) s Hopen) as H.
  destruct (start_on listens (addrs (cfg s)) s); [| done].
  destruct H as (? & ? & ? & _). done.
Qed.

(** ** Stopping an idle server *)

Lemma alter_all {A} (f : A → A) (pre l : list A) :
  foldl (λ ls i, alter f i ls) (pre ++ l) (seq (length pre) (length l))
  = pre ++ (f <$> l).
Proof.
  revert pre. induction l as [|x l IH]; intros pre; simpl; [done |].
  change (list_alter f (length pre) (pre ++ x :: l))
    with (alter f (length pre) (pre ++ x :: l)).
  rewrite alter_app_r_alt, Nat.sub_diag by lia. simpl.
  specialize (IH (pre ++ [f x])). rewrite length_app, Nat.add_1_r in IH. simpl in IH.
  rewrite <- !app_assoc in IH. simpl in IH. exact IH.
Qed.

Lemma abort_accept_listeners s ls :
  _listeners (foldl abort_accept s ls)
  = foldl (λ xs i, alter listener_abort i xs) (_listeners s) ls.
Proof. revert s. induction ls as [|l ls IH]; intros s; simpl; [done |]. by rewrite IH. Qed.

Local Transparent stop stop_continuation.

Lemma stop_listeners s : _listeners (stop s) = listener_abort <$> _listeners s.
Proof.
  unfold stop. simpl. rewrite (foldl_proj _listeners) by done. simpl.
  rewrite abort_accept_listeners.
  apply (alter_all listener_abort [] (_listeners s)).
Qed.

Local Opaque stop stop_continuation.

Lemma step_serving_inv e s s' : serving_inv s → step e s = Some s' → serving_inv s'.
Proof.
  unfold serving_inv. intros Hinv H.
  destruct e as [l f | c | j k | j ask | j | j n | |]; step_cases H; simpl in *.
  all: try match goal with
       | |- context [return_units ?i ?s] =>
           destruct (return_units_frame i s) as (_ & -> & -> & _ & -> & _ & -> & _)
       end.
  all: try match goal with
       | |- context [stop ?s] =>
           destruct (stop_frame s) as (_ & _ & _ & _ & _ & _ & _ & -> & _)
       | |- context [stop_continuation ?s] =>
           destruct (stop_continuation_frame s) as (_ & _ & _ & _ & _ & _ & _ & -> & _)
       end.
  all: try done.
  all: intros Hl; destruct (Hinv Hl) as (Ha & Hg & Hls); try congruence.
  all: unfold is_closed in *; try congruence.
  - done.
  - pose proof (Forall_lookup_1 _ _ _ _ Hls Heqo) as [_ Hab]. simpl in Hab.
    rewrite Hab in *. simpl in *. done.
Qed.

Lemma reachable_serving_inv s : reachable s → serving_inv s.
Proof.
  revert s. apply (reachable_ind serving_inv).
  - intros c services listens s0 Hs _.
    destruct (started_state _ _ _ _ Hs) as (_ & _ & _ & _ & _ & Ha & Hg & _).
    split_and!; [done | done |].
    destruct (registered_state c services) as [Hreg _]. simpl in Hreg.
    set (s := foldl _ _ _) in *.
    assert (Hl0 : _listeners s = []) by (by apply (f_equal _listeners) in Hreg).
    assert (Hg0 : is_closed (_conn_gate s) = false)
      by (by apply (f_equal _conn_gate) in Hreg; simpl in Hreg; rewrite Hreg).
    pose proof (start_on_listeners listens (addrs (cfg s)) s Hg0) as H.
    unfold start in Hs. rewrite Hs in H. destruct H as (_ & -> & _).
    rewrite Hl0. simpl. apply Forall_fmap, Forall_true. done.
  - intros e s1 s2 _ Hinv H. by eapply step_serving_inv.
Qed.

Lemma accept_loops_exit m : ∀ k s,
  _as s = true →
  (∀ l, k ≤ l < k + m →
        ∃ lst, _listeners s !! l = Some lst
               ∧ l_accepting lst = true ∧ l_aborted lst = true) →
  run ((λ l, EvAccept l None) <$> seq k m) s
  = Some (foldl (λ s l, accept_loop_exit l s) s (seq k m)).
Proof.
  induction m as [|m IH]; intros k s Ha Hls; [done |].
  simpl. unfold accept.
  destruct (Hls k) as (lst & Hl & Hacc & Hab); [lia |].
  rewrite Hl. simpl. rewrite Hacc, Hab, Ha. simpl.
  apply IH; [done |].
  intros l Hrange. destruct (Hls l) as (lst' & Hl' & ? & ?); [lia |].
  exists lst'. simpl. rewrite list_lookup_alter_ne by lia. done.
Qed.

Lemma accept_loops_exit_frame ls s :
  let s' := foldl (λ s l, accept_loop_exit l s) s ls in
  _connections s' = _connections s ∧ contexts s' = contexts s
  ∧ lifecycle s' = lifecycle s ∧ calls s' = calls s
  ∧ g_count (_conn_gate s') = g_count (_conn_gate s) - length ls.
Proof.
  simpl. split_and!.
  1-4: by apply (foldl_proj _ (λ s l, accept_loop_exit l s)).
  revert s. induction ls as [|l ls IH]; intros s; simpl; [lia |].
  rewrite IH. simpl. lia.
Qed.

Lemma registry_nil s :
  contexts_inv s → registry s = [] →
  countb (λ conn, is_open (c_dispatch conn)) (_connections s) = 0
  ∧ countb is_running (contexts s) = 0.
Proof.
  intros Hvalid Hreg.
  assert (Hnone : ∀ c, c < length (_connections s) → linked s c = false).
  { intros c Hc. apply not_true_is_false. intros Hl.
    assert (Hin : c ∈ registry s).
    { unfold registry. apply list_elem_of_In, filter_In. split; [| done].
      apply in_seq. lia. }
    rewrite Hreg in Hin. by apply elem_of_nil in Hin. }
  split.
  - destruct (countb _ (_connections s)) eqn:Hcount; [done | exfalso].
    assert (∃ c conn, _connections s !! c = Some conn ∧ is_open (c_dispatch conn) = true)
      as (c & conn & Hc & Hopen).
    { clear -Hcount. induction (_connections s) as [|x l IH]; simpl in *; [lia |].
      destruct (is_open (c_dispatch x)) eqn:Hx.
      - by exists 0, x.
      - destruct IH as (c & conn & ? & ?); [lia |]. by exists (S c), conn. }
    specialize (Hnone c (lookup_lt_Some _ _ _ Hc)). unfold linked in Hnone.
    rewrite Hc, Hopen in Hnone. done.
  - destruct (countb _ (contexts s)) eqn:Hcount; [done | exfalso].
    assert (∃ i x, contexts s !! i = Some x ∧ is_running x = true)
      as (i & x & Hx & Hrun).
    { clear -Hcount. induction (contexts s) as [|x l IH]; simpl in *; [lia |].
      destruct (is_running x) eqn:Hx.
      - by exists 0, x.
      - destruct IH as (c & conn & ? & ?); [lia |]. by exists (S c), conn. }
    pose proof (Hvalid _ _ Hx) as Hlt.
    specialize (Hnone _ Hlt). unfold linked in Hnone.
    destruct (lookup_lt_is_Some_2 _ _ Hlt) as [conn Hc]. rewrite Hc in Hnone.
    apply orb_false_elim in Hnone as [_ Hnone].
    assert (Hex : existsb (λ y, is_running y && (ctx_conn y =? ctx_conn x)) (contexts s) = true).
    { apply existsb_exists. exists x. split.
      - apply list_elem_of_In. by eapply list_elem_of_lookup_2.
      - by rewrite Hrun, Nat.eqb_refl. }
    congruence.
Qed.

(** X15: [stop] on a server with no connection in its registry completes:
    once the aborted accept futures have resolved, every accept loop has
    left the gate, the gate-close future resolves and the server is
    stopped.  [stop] has called [abort_accept] on every listener,
    [request_abort] and [close] on the gate, and no [shutdown_input] or
    [shutdown], there being no connection to shut down. *)
Theorem X15_idle_server_stops s :
  reachable s → lifecycle s = Serving → registry s = [] →
  ∃ s',
    run (EvStop :: accepts_aborted (length (_listeners s)) ++ [EvGateClosed]) s
    = Some s'
    ∧ lifecycle s' = Stopped
    ∧ calls s'
      = calls s ++ (CallAbortAccept <$> seq 0 (length (_listeners s)))
          ++ [CallRequestAbort; CallGateClose].
Proof.
  intros Hreach Hserving Hreg.
  destruct (reachable_well_formed header_size parse_header s Hreach)
    as (Hg & _ & Hvalid).
  destruct (registry_nil s Hvalid Hreg) as [Hopen Hrun].
  destruct (reachable_serving_inv s Hreach Hserving) as (_ & _ & Hls).
  unfold gate_inv in Hg. rewrite Hopen, Hrun in Hg.
  assert (Hall : countb l_accepting (_listeners s) = length (_listeners s)).
  { clear -Hls. induction Hls as [|l ls [Hl _] _ IH]; simpl; [done |].
    rewrite Hl, IH. done. }
  destruct (stop_frame s)
    as (Fx & _ & _ & _ & Fg & _ & Fa & Fl & _ & Fd & _).
  pose proof (stop_calls s) as Fcalls. rewrite Hreg in Fcalls. simpl in Fcalls.
  pose proof (stop_listeners s) as Flist.
  set (n := length (_listeners s)) in *.
  set (s1 := stop s) in *.
  set (s2 := foldl (λ s l, accept_loop_exit l s) s1 (seq 0 n)).
  assert (H2 : run (accepts_aborted n) s1 = Some s2).
  { apply accept_loops_exit; [done |]. intros l Hl.
    destruct (lookup_lt_is_Some_2 (_listeners s) l) as [lst Hlst]; [unfold n in Hl; lia |].
    exists (listener_abort lst). rewrite Flist, list_lookup_fmap, Hlst. simpl.
    split; [done |].
    pose proof (Forall_lookup_1 _ _ _ _ Hls Hlst) as [? _]. done. }
  destruct (accept_loops_exit_frame (seq 0 n) s1) as (Gc & Gx & Gl & Gk & Gg).
  fold s2 in Gc, Gx, Gl, Gk, Gg. rewrite length_seq in Gg.
  assert (Hempty : g_count (_conn_gate s2) = 0) by lia.
  exists (stop_continuation s2). split_and!.
  - change (EvStop :: accepts_aborted n ++ [EvGateClosed])
      with ([EvStop] ++ accepts_aborted n ++ [EvGateClosed]).
    apply run_app. exists s1. split; [simpl; by rewrite Hserving |].
    apply run_app. exists s2. split; [done |].
    simpl. rewrite Gl, Fl, Hempty. done.
  - by destruct (stop_continuation_frame s2) as (_ & _ & _ & _ & _ & _ & _ & -> & _).
  - destruct (stop_continuation_frame s2)
      as (_ & _ & _ & _ & _ & _ & _ & _ & _ & _ & ->).
    assert (Hreg2 : registry s2 = []).
    { apply registry_empty.
      - rewrite Gc.
        rewrite (countb_fmap c_dispatch _ is_open) by done.
        fold s1 in Fd. rewrite Fd.
        by rewrite <- (countb_fmap c_dispatch (λ conn, is_open (c_dispatch conn)) is_open).
      - by rewrite Gx, Fx. }
    rewrite Hreg2, Gk, Fcalls. simpl. by rewrite app_nil_r.
Qed.

(** ** A reservation that cannot be met *)

Lemma wake_granted_bound count ws :
  ∀ count' granted staying,
    wake count ws = (count', granted, staying) →
    Forall (λ w, (0 ≤ w.2)%Z) ws →
    Forall (λ w, (w.2 ≤ count)%Z) granted.
Proof.
  revert count. induction ws as [|[i n] ws IH]; intros count count' granted staying H Hpos;
    simpl in H.
  - by simplify_eq.
  - apply Forall_cons in Hpos as [Hn Hpos]. simpl in Hn.
    destruct (n <=? count)%Z eqn:Hle.
    + destruct (wake (count - n) ws) as [[c1 g1] st1] eqn:Hw. simplify_eq.
      apply Z.leb_le in Hle. constructor; [done |].
      eapply Forall_impl; [by eapply IH |]. simpl. intros. lia.
    + by simplify_eq.
Qed.

Lemma grants_lookup_ne (grants : list (nat * Z)) (xs : list server_context_impl) j :
  j ∉ grants.*1 →
  foldl (λ xs g, alter (ctx_grant g.2) g.1 xs) xs grants !! j = xs !! j.
Proof.
  revert xs. induction grants as [|g grants IH]; intros xs Hj; simpl; [done |].
  rewrite fmap_cons in Hj. apply not_elem_of_cons in Hj as [Hne Hj].
  rewrite IH by done. by rewrite list_lookup_alter_ne.
Qed.

Local Transparent return_units.

Lemma return_units_waiters i s :
  ∃ granted,
    sem_wait_list (_memory s)
    = granted ++ sem_wait_list (_memory (return_units i s)).
Proof.
  unfold return_units. destruct (contexts s !! i); [| by exists []].
  destruct (wake _ _) as [[count granted] staying] eqn:Hw.
  destruct (wake_spec _ _ _ _ _ Hw) as (Hsplit & _). by exists granted.
Qed.

Lemma return_units_waiters_inv i s :
  waiters_inv s → waiters_inv (return_units i s).
Proof.
  intros [Hws Hnd]. unfold return_units.
  destruct (contexts s !! i) as [x|] eqn:Hx; [| done].
  destruct (wake _ _) as [[count granted] staying] eqn:Hw.
  destruct (wake_spec _ _ _ _ _ Hw) as (Hsplit & _).
  rewrite Hsplit in Hws, Hnd. rewrite fmap_app in Hnd.
  apply NoDup_app in Hnd as (_ & Hdisj & Hnd).
  apply Forall_app in Hws as [_ Hst].
  split; simpl; [| done].
  apply Forall_forall. intros w Hw'.
  rewrite Forall_forall in Hst. destruct (Hst w Hw') as (y & Hy & Hsus & Hrun).
  unfold waiting. rewrite grants_lookup_ne.
  - rewrite list_lookup_alter. case_decide.
    + subst. rewrite Hy. simpl. eexists. split; [done |]. done.
    + eauto.
  - intros Hin. apply (Hdisj _ Hin). by apply list_elem_of_fmap_2.
Qed.

Lemma return_units_starved i s x j ask :
  contexts s !! i = Some x →
  nonneg_inv s → memory_inv s →
  (max_service_memory_per_core (cfg s) < ask)%Z →
  (j, ask) ∈ sem_wait_list (_memory s) →
  (j, ask) ∈ sem_wait_list (_memory (return_units i s)).
Proof.
  intros Hx (Hc & Hxs & Hws) [Hsum _] Hask Hin. unfold return_units. rewrite Hx.
  destruct (wake _ _) as [[count granted] staying] eqn:Hw.
  destruct (wake_spec _ _ _ _ _ Hw) as (Hsplit & _).
  pose proof (wake_granted_bound _ _ _ _ _ Hw Hws) as Hbound.
  simpl. rewrite Hsplit in Hin. apply elem_of_app in Hin as [Hin | Hin]; [| done].
  exfalso. rewrite Forall_forall in Hbound. specialize (Hbound _ Hin). simpl in Hbound.
  assert (Hpart : (ctx_units x ≤ held_units (contexts s))%Z).
  { clear -Hxs Hx. revert i Hx. induction Hxs as [|y ys Hy Hys IH]; intros [|i] Hi;
      simplify_eq/=.
    - pose proof (held_units_nonneg _ Hys). lia.
    - specialize (IH _ Hi). lia. }
  lia.
Qed.

Local Opaque return_units.

Lemma waiting_alter_same f j xs ws :
  (∀ x, ctx_suspended x = true → is_running x = true →
        ctx_suspended (f x) = true ∧ is_running (f x) = true) →
  Forall (waiting xs) ws → Forall (waiting (alter f j xs)) ws.
Proof.
  intros Hf Hws. eapply Forall_impl; [exact Hws |].
  intros w (x & Hx & Hs & Hr). unfold waiting.
  rewrite list_lookup_alter. case_decide.
  - subst. rewrite Hx. simpl. exists (f x). split; [done |]. by apply Hf.
  - eauto.
Qed.

Lemma waiting_alter_ne f j xs (ws : list (nat * Z)) :
  j ∉ ws.*1 → Forall (waiting xs) ws → Forall (waiting (alter f j xs)) ws.
Proof.
  intros Hj Hws. apply Forall_forall. intros w Hw.
  rewrite Forall_forall in Hws. destruct (Hws w Hw) as (x & Hx & Hs & Hr).
  exists x. rewrite list_lookup_alter_ne; [done |].
  intros ->. apply Hj. by apply list_elem_of_fmap_2.
Qed.

Lemma waiting_app xs ys ws :
  Forall (waiting xs) ws → Forall (waiting (xs ++ ys)) ws.
Proof.
  intros Hws. eapply Forall_impl; [exact Hws |].
  intros w (x & Hx & Hs & Hr). exists x.
  split; [| done]. by apply lookup_app_l_Some.
Qed.

Lemma runnable_not_waiting xs (ws : list (nat * Z)) j x :
  Forall (waiting xs) ws → xs !! j = Some x → ctx_suspended x = false →
  j ∉ ws.*1.
Proof.
  intros Hws Hx Hs Hin. apply list_elem_of_fmap in Hin as (w & -> & Hw).
  rewrite Forall_forall in Hws. destruct (Hws w Hw) as (y & Hy & Hsy & _).
  congruence.
Qed.

Lemma step_waiters_inv e s s' :
  waiters_inv s → step e s = Some s' → waiters_inv s'.
Proof.
  unfold waiters_inv. intros HW H.
  destruct e as [l f | c | j k | j ask | j | j n | |]; step_cases H.
  all: try match goal with
       | |- context [return_units ?i ?s] =>
           pose proof (return_units_waiters_inv i s HW) as [Hws' Hnd'];
           destruct (return_units_waiters i s) as [granted Hsplit]
       end.
  all: try match goal with
       | |- context [stop ?s] =>
           destruct (stop_frame s) as (Fx & _ & Fm & _);
           rewrite <- Fx, <- Fm in HW
       | |- context [stop_continuation ?s] =>
           destruct (stop_continuation_frame s) as (Fx & _ & Fm & _);
           rewrite <- Fx, <- Fm in HW
       end.
  all: destruct HW as [Hws Hnd]; simpl in *.
  all: try done.
  all: try (split; [by apply waiting_app | done]).
  all: try (split; [by apply waiting_alter_same | done]).
  all: repeat match goal with
       | H : may_proceed _ _ = true |- _ =>
           unfold may_proceed in H; apply andb_true_iff in H as [_ H];
           apply bool_decide_eq_true in H; rewrite H in *
       | H : runnable _ = true |- _ =>
           unfold runnable in H; apply andb_true_iff in H as [? H];
           apply negb_true_iff in H
       | H : runnable _ && _ = true |- _ =>
           apply andb_true_iff in H as [H ?]
       end.
  all: try (split; [by constructor | done]).
  all: try match goal with
       | Hx : contexts ?s !! ?j = Some ?x, Hs : ctx_suspended ?x = false |- _ =>
           pose proof (runnable_not_waiting _ _ j x Hws Hx Hs) as Hfree
       end.
  1-2: split;
    [ apply Forall_app; split;
      [ by apply waiting_alter_ne
      | apply Forall_singleton; exists (ctx_suspend H0); simpl;
        rewrite list_lookup_alter_eq, Heqo; done ]
    | rewrite fmap_app; apply NoDup_app; split_and!;
      [ done
      | intros z Hz Hz'; apply list_elem_of_singleton in Hz'; simpl in Hz'; by subst
      | apply NoDup_singleton ] ].
  all: split; [| done]; apply waiting_alter_ne; [| done].
  all: intros Hin; apply Hfree; rewrite Hsplit, fmap_app; apply elem_of_app; by right.
Qed.

Lemma reachable_waiters_inv s : reachable s → waiters_inv s.
Proof.
  revert s. apply (reachable_ind waiters_inv).
  - intros c services listens s0 Hs.
    destruct (started_state _ _ _ _ Hs) as (_ & _ & _ & Hm & _).
    unfold waiters_inv. rewrite Hm. simpl. split; [done | constructor].
  - intros e s1 s2 _ HW H. by eapply step_waiters_inv.
Qed.

Lemma step_starved e s s' j ask :
  sane_event e → nonneg_inv s → memory_inv s →
  (max_service_memory_per_core (cfg s) < ask)%Z →
  (j, ask) ∈ sem_wait_list (_memory s) →
  step e s = Some s' →
  (j, ask) ∈ sem_wait_list (_memory s').
Proof.
  intros He Hn Hm Hask Hin H.
  destruct e as [l f | c | i k | i ask' | i | i n | |]; step_cases H; simpl.
  all: try match goal with
       | Hx : contexts ?s !! ?i = Some _ |- context [return_units ?i ?s] =>
           exact (return_units_starved i s _ j ask Hx Hn Hm Hask Hin)
       end.
  all: try match goal with
       | |- context [stop ?s] =>
           by destruct (stop_frame s) as (_ & _ & -> & _)
       | |- context [stop_continuation ?s] =>
           by destruct (stop_continuation_frame s) as (_ & _ & -> & _)
       end.
  all: try done.
  all: try (apply elem_of_app; by left).
Qed.

Lemma run_cfg schedule s s' : run schedule s = Some s' → cfg s' = cfg s.
Proof.
  revert s. induction schedule as [|e rest IH]; intros s Hr.
  - simpl in Hr. congruence.
  - apply run_cons in Hr as (s1 & H1 & Hr). rewrite (IH _ Hr). by eapply step_cfg.
Qed.

Lemma run_starved schedule s s' j ask :
  Forall sane_event schedule → nonneg_inv s → memory_inv s →
  (max_service_memory_per_core (cfg s) < ask)%Z →
  (j, ask) ∈ sem_wait_list (_memory s) →
  run schedule s = Some s' →
  (j, ask) ∈ sem_wait_list (_memory s').
Proof.
  revert s. induction schedule as [|e rest IH]; intros s Hsane Hn Hm Hask Hin Hr.
  - simpl in Hr. congruence.
  - apply Forall_cons in Hsane as [He Hrest].
    apply run_cons in Hr as (s1 & H1 & Hr).
    eapply (IH s1); try done.
    + by eapply step_nonneg_inv.
    + by eapply step_memory_inv.
    + by rewrite (step_cfg _ _ _ H1).
    + by eapply step_starved.
Qed.

(** X16: a handler that asks [reserve_memory] for more than
    [max_service_memory_per_core] never gets its units: whatever runs
    afterwards, the handler stays suspended and can neither signal nor
    resolve, every later [reserve_memory] of any handler queues behind it,
    and [stop] never completes. *)
Theorem X16_oversized_reservation_never_returns
    c services listens schedule s0 s i ask s1 later s' :
  start listens (foldl (λ s srvc, register_service srvc s) (server_new c) services)
    = Some s0 →
  run schedule s0 = Some s → Forall sane_event schedule →
  (0 ≤ max_service_memory_per_core c < ask)%Z →
  step (EvReserve i ask) s = Some s1 →
  run later s1 = Some s' → Forall sane_event later →
  (∃ x, contexts s' !! i = Some x ∧ ctx_suspended x = true ∧ is_running x = true)
  ∧ step (EvSignal i) s' = None
  ∧ (∀ n, step (EvResolve i n) s' = None)
  ∧ (∀ j ask' s'', step (EvReserve j ask') s' = Some s'' →
       ∃ y, contexts s'' !! j = Some y ∧ ctx_suspended y = true)
  ∧ lifecycle s' ≠ Stopped.
Proof.
  intros Hs Hr Hsane [Hcap Hask] H1 Hr' Hsane'.
  destruct (started_state _ _ _ _ Hs) as (_ & Hx0 & _ & Hm0 & Hcfg0 & _).
  assert (Hn0 : nonneg_inv s0).
  { unfold nonneg_inv. rewrite Hx0, Hm0. simpl. done. }
  assert (Hreach : reachable s) by (by exists c, services, listens, schedule, s0).
  pose proof (run_nonneg_inv _ _ _ Hsane Hn0 Hr) as Hn.
  pose proof (reachable_memory_inv s Hreach) as Hm.
  assert (Hcfg : cfg s = c) by (by rewrite (run_cfg _ _ _ Hr)).
  assert (Hsane1 : sane_event (EvReserve i ask)) by (simpl; lia).
  assert (Hin1 : (i, ask) ∈ sem_wait_list (_memory s1)).
  { destruct Hn as (Hc & Hxs & _). destruct Hm as [Hsum _].
    pose proof (held_units_nonneg _ Hxs) as Hheld. rewrite Hcfg in Hsum.
    assert (Hno : may_proceed (_memory s) ask = false).
    { unfold may_proceed. apply andb_false_iff. left. apply Z.leb_gt. lia. }
    clear -H1 Hno. step_cases H1; simpl; try congruence.
    all: apply elem_of_app; right; by apply list_elem_of_singleton. }
  assert (Hreach' : reachable s').
  { eapply (reachable_run header_size parse_header); [| exact Hr'].
    eapply (reachable_run header_size parse_header [EvReserve i ask] s s1);
      [done |]. apply run_cons. by exists s1. }
  assert (Hin : (i, ask) ∈ sem_wait_list (_memory s')).
  { eapply (run_starved later s1); try done.
    - by eapply step_nonneg_inv.
    - by eapply step_memory_inv.
    - rewrite (step_cfg _ _ _ H1), Hcfg. lia. }
  destruct (reachable_waiters_inv s' Hreach') as [Hws _].
  rewrite Forall_forall in Hws. destruct (Hws _ Hin) as (x & Hx & Hsus & Hrun).
  simpl in Hx.
  assert (Hnot : runnable x = false) by (unfold runnable; by rewrite Hsus, andb_false_r).
  split_and!.
  - eauto.
  - simpl. rewrite Hx. simpl. by rewrite Hnot.
  - intros n. simpl. rewrite Hx. simpl. by rewrite Hnot.
  - intros j ask' s'' H.
    assert (Hno : may_proceed (_memory s') ask' = false).
    { unfold may_proceed. apply andb_false_iff. right.
      apply bool_decide_eq_false. intros Hnil. rewrite Hnil in Hin.
      by apply elem_of_nil in Hin. }
    clear -H Hno. step_cases H; simpl; try congruence.
    all: rewrite list_lookup_alter_eq;
      match goal with Hj : contexts _ !! _ = Some _ |- _ => rewrite Hj end;
      simpl; eauto.
  - intros Hstopped.
    destruct (reachable_well_formed header_size parse_header s' Hreach')
      as (Hg & [_ Hempty] & _).
    specialize (Hempty Hstopped). unfold gate_inv in Hg.
    pose proof (countb_pos is_running _ _ _ Hx Hrun). lia.
Qed.

(** ** The gate and the requests, over whole runs *)

(** X17: the gate holds exactly the fibers that [start], [accept] and
    [dispatch_method_once] put under [with_gate] and that have not ended:
    the accept loops still listening, the dispatch fibers whose connection
    was not yet shut down, and the handlers that have not resolved.  So
    while [stop] awaits [close()], the future resolves exactly when none
    of them is left. *)
Theorem X17_gate_counts_live_fibers s :
  reachable s →
  g_count (_conn_gate s)
  = countb l_accepting (_listeners s)
    + countb (λ conn, is_open (c_dispatch conn)) (_connections s)
    + countb is_running (contexts s)
  ∧ (lifecycle s = Draining →
     (is_Some (step EvGateClosed s)
      ↔ countb l_accepting (_listeners s) = 0
        ∧ countb (λ conn, is_open (c_dispatch conn)) (_connections s) = 0
        ∧ countb is_running (contexts s) = 0)).
Proof.
  intros Hreach.
  destruct (reachable_well_formed header_size parse_header s Hreach) as (Hg & _ & _).
  unfold gate_inv in Hg. split; [done |].
  intros Hd. simpl. rewrite Hd. case_bool_decide as Hz.
  - split; [intros _; lia | by eexists].
  - split; [by intros [? ?] | intros (? & ? & ?); lia].
Qed.

Lemma step_request e s s' i x :
  step e s = Some s' → contexts s !! i = Some x →
  ∃ x', contexts s' !! i = Some x' ∧ identity x' = identity x
        ∧ (pr x = true → pr x' = true).
Proof.
  intros H Hx.
  destruct (run_identity header_size parse_header [e] s s' i x) as (x' & Hx' & Hid);
    [by apply run_cons; exists s' | done |].
  exists x'. split_and!; [done | done |].
  intros Hp. destruct (signal_or_not e i) as [-> | Hne].
  - destruct (signal_inv header_size parse_header s i s' H) as (y & Hy & _ & Hpy & _).
    congruence.
  - pose proof (step_promise header_size parse_header e s s' i x H Hx Hne) as Hpr.
    rewrite Hx' in Hpr. simpl in Hpr. congruence.
Qed.

(** X18: a request keeps what it was started with: along any run its
    context stays at its index with the header that [get_header] returns,
    the connection and the method unchanged, and once the handler has
    signalled the body parsed the promise stays resolved. *)
Theorem X18_request_keeps_header_and_signal schedule s s' i x :
  run schedule s = Some s' → contexts s !! i = Some x →
  ∃ x', contexts s' !! i = Some x'
        ∧ get_header x' = get_header x
        ∧ ctx_conn x' = ctx_conn x
        ∧ ctx_method x' = ctx_method x
        ∧ (pr x = true → pr x' = true).
Proof.
  revert s x. induction schedule as [|e rest IH]; intros s x Hr Hx.
  - simpl in Hr. simplify_eq. by exists x.
  - apply run_cons in Hr as (s1 & He & Hr).
    destruct (step_request e s s1 i x He Hx) as (x1 & Hx1 & Hid1 & Hp1).
    destruct (IH s1 x1 Hr Hx1) as (x' & Hx' & Hh & Hc & Hm & Hp).
    unfold identity in Hid1. injection Hid1 as Hh1 Hc1 Hm1.
    exists x'. unfold get_header in *. split_and!; [done | | | | by auto]; congruence.
Qed.

End MoreProperties.

(** * Further properties of the audit fixture *)

Section MoreAuditFacts.

Import Audit AuditTest.





Lemma enqueue_some_from_settings success event_size events m :
  let m' := (enqueue_some_from success event_size events m).2 in
  is_effectively_enabled m' = is_effectively_enabled m
  ∧ audit_enabled_event_types m' = audit_enabled_event_types m.
Proof.
  simpl. revert success m. induction events as [|ev rest IH]; intros success m; simpl;
    [done |].
  destruct (enqueue_keeps_settings management ev m) as [Hen Hty].
  destruct (enqueue_audit_event management ev m) as [enqueued m1]. simpl in *.
  destruct (IH (if enqueued
                then success && (event_size <=? avaiable_reservation m)%Z
                else success && negb (event_size <=? avaiable_reservation m)%Z) m1)
    as [-> ->].
  done.
Qed.

Lemma enqueue_some_from_books success event_size events m :
  Forall (λ ev, estimated_size ev = event_size) events →
  let m' := (enqueue_some_from success event_size events m).2 in
  (avaiable_reservation m' + event_size * Z.of_nat (pending_events m'))%Z
  = (avaiable_reservation m + event_size * Z.of_nat (pending_events m))%Z
  ∧ ((0 ≤ event_size)%Z → (avaiable_reservation m' ≤ avaiable_reservation m)%Z)
  ∧ ((0 ≤ event_size)%Z → (0 ≤ avaiable_reservation m)%Z →
     (0 ≤ avaiable_reservation m')%Z).
Proof.
  simpl. intros Hsz. revert success m.
  induction Hsz as [|ev rest Hev _ IH]; intros success m; simpl; [done |].
  unfold enqueue_audit_event.
  repeat case_match; simplify_eq/=.
  all: match goal with
       | |- context [enqueue_some_from ?b _ _ ?m1] =>
           destruct (IH b m1) as (IH1 & IH2 & IH3)
       end.
  all: unfold pending_events in *; simpl in *.
  all: rewrite ?length_app in *; simpl in *.
  all: try match goal with
       | H : (_ <? _)%Z = false |- _ => apply Z.ltb_ge in H
       end.
  all: split_and!; try done; try lia.
Qed.

Lemma enqueue_some_from_fills success event_size events m :
  is_effectively_enabled m = true → configured management m = true →
  Forall (λ ev, estimated_size ev = event_size) events →
  (0 < event_size)%Z →
  (avaiable_reservation m < event_size * Z.of_nat (length events))%Z →
  (avaiable_reservation (enqueue_some_from success event_size events m).2
   < event_size)%Z.
Proof.
  intros Hen Hcf Hsz Hpos. revert success m Hen Hcf.
  induction Hsz as [|ev rest Hev Hrest IH]; intros success m Hen Hcf Hlt; simpl in *;
    [lia |].
  destruct (enqueue_keeps_settings management ev m) as [Hen' Hty'].
  unfold enqueue_audit_event in *. unfold configured in Hcf.
  rewrite Hen, Hcf in *. simpl in *.
  destruct (Z.ltb_spec (avaiable_reservation m) (estimated_size ev)) as [Hfull | Hroom];
    simpl in *.
  - destruct (enqueue_some_from_books
                (success && negb (event_size <=? avaiable_reservation m)%Z)
                event_size rest m Hrest) as (_ & Hle & _).
    simpl in Hle. lia.
  - apply IH; simpl; [done | done | lia].
Qed.

(** X20: after the fixture's [enqueue_some] has offered more events than
    the shard's reservation holds, the queue is full: the reservation left
    is below one event, nothing was lost from the books (reservation plus
    queued sizes is what it was), and the three checks that follow come
    out as the fixture expects: the types that are not configured pass
    through without being queued, and a further management event is
    refused. *)
Theorem X20_queue_full_after_enqueue_some
    (event_size : Z) (events : list application_lifecycle)
    (ev : application_lifecycle) (m : audit_log_manager) :
  is_effectively_enabled m = true →
  configured management m = true →
  configured authenticate m = false → configured describe m = false →
  Forall (λ ev, estimated_size ev = event_size) events →
  estimated_size ev = event_size →
  (0 < event_size)%Z →
  (0 ≤ avaiable_reservation m < event_size * Z.of_nat (length events))%Z →
  let m' := (enqueue_some event_size events m).2 in
  (0 ≤ avaiable_reservation m' < event_size)%Z
  ∧ (avaiable_reservation m' + event_size * Z.of_nat (pending_events m'))%Z
    = (avaiable_reservation m + event_size * Z.of_nat (pending_events m))%Z
  ∧ enqueue_audit_event authenticate ev m' = (true, m')
  ∧ enqueue_audit_event describe ev m' = (true, m')
  ∧ enqueue_audit_event management ev m' = (false, m').
Proof.
  intros Hen Hmg Hau Hde Hsz Hev Hpos [Hnn Hlt]. simpl. unfold enqueue_some.
  destruct (enqueue_some_from_settings true event_size events m) as [Hen' Hty'].
  destruct (enqueue_some_from_books true event_size events m Hsz) as (Hbooks & _ & Hnn').
  pose proof (enqueue_some_from_fills true event_size events m Hen Hmg Hsz Hpos Hlt)
    as Hfull.
  simpl in *. set (m' := (enqueue_some_from true event_size events m).2) in *.
  split_and!; [lia | lia | done | | |].
  all: unfold enqueue_audit_event, configured in *; rewrite Hen', Hty', Hen; simpl.
  - by rewrite Hau.
  - by rewrite Hde.
  - rewrite Hmg. simpl. rewrite Hev.
    destruct (Z.ltb_spec (avaiable_reservation m') event_size); [done | lia].
Qed.

End MoreAuditFacts.

(** * The further properties on the concrete deployment *)

(** A handler asks for 100 of the 1024 units: granted at once. *)
Lemma X1_reserve_memory_grants_or_queues_witness :
  sem_count (_memory (Demo.exec (Demo.arriving ++ [EvDispatch 0; EvReserve 0 100])
                        Demo.booted)) = 924%Z
  ∧ _probe (Demo.exec (Demo.arriving ++ [EvDispatch 0; EvReserve 0 100]) Demo.booted)
    = _probe (Demo.exec (Demo.arriving ++ [EvDispatch 0]) Demo.booted).
Proof.
  destruct (X1_reserve_memory_grants_or_queues Demo.header_size Demo.parse_header
              (Demo.exec (Demo.arriving ++ [EvDispatch 0]) Demo.booted)
              (Demo.exec (Demo.arriving ++ [EvDispatch 0; EvReserve 0 100]) Demo.booted)
              0 100
              {| _h := Demo.request1; pr := false; ctx_conn := 0;
                 ctx_method := Method 0; ctx_units := 0; ctx_suspended := false;
                 ctx_reply := Running |})
    as [Hgrant _]; [vm_compute; reflexivity | vm_compute; reflexivity |].
  destruct Hgrant as (_ & Hcount & _ & Hprobe).
  - split; [vm_compute; discriminate | vm_compute; reflexivity].
  - split; [exact Hcount | exact Hprobe].
Defined.

(** A connected client whose loop is at its condition when [stop] raises
    the abort source. *)
Lemma X2_peer_close_ends_loop_quietly_witness :
  ∃ s',
    run Demo.header_size Demo.parse_header [EvDispatch 0; EvDispatch 0]
      (stop (Demo.exec [Demo.client (Demo.frame 1 1 9)] Demo.booted)) = Some s'
    ∧ c_dispatch <$> _connections s' !! 0 = Some Closed
    ∧ _probe s' = _probe (stop (Demo.exec [Demo.client (Demo.frame 1 1 9)] Demo.booted)).
Proof.
  destruct (X2_peer_close_ends_loop_quietly Demo.header_size Demo.parse_header
              (stop (Demo.exec [Demo.client (Demo.frame 1 1 9)] Demo.booted)) 0
              {| addr := 1; c_input := {| in_buf := []; in_eof := false |};
                 c_written := []; c_input_shutdown := true; c_shutdown := false;
                 c_dispatch := AtCondition |})
    as (s' & Hrun & Hconn & _ & Hprobe & _);
    [vm_compute; reflexivity | reflexivity | right; vm_compute; reflexivity |].
  exists s'. split_and!; [exact Hrun | by rewrite Hconn | exact Hprobe].
Defined.

(** The header of the arriving client is parsed when the gate has just
    been closed. *)
Lemma X3_dispatch_after_gate_closed_witness :
  ∃ s',
    step Demo.header_size Demo.parse_header (EvDispatch 0)
      (set_gate (gate_close (_conn_gate (Demo.exec Demo.arriving Demo.booted)))
         (Demo.exec Demo.arriving Demo.booted)) = Some s'
    ∧ in_bytes (_probe s') = 7%Z
    ∧ contexts s' = [].
Proof.
  eexists. split; [vm_compute; reflexivity |].
  destruct (X3_dispatch_after_gate_closed Demo.header_size Demo.parse_header
              (set_gate (gate_close (_conn_gate (Demo.exec Demo.arriving Demo.booted)))
                 (Demo.exec Demo.arriving Demo.booted))
              (Demo.exec [EvDispatch 0]
                 (set_gate (gate_close (_conn_gate (Demo.exec Demo.arriving Demo.booted)))
                    (Demo.exec Demo.arriving Demo.booted)))
              0
              {| addr := 1;
                 c_input := {| in_buf := Demo.frame 1 1 9; in_eof := false |};
                 c_written := []; c_input_shutdown := false; c_shutdown := false;
                 c_dispatch := ParsingHeader |}
              Demo.request1 {| in_buf := [9%Z]; in_eof := false |} (Method 0))
    as (_ & Hbytes & _ & _ & Hx & _); try (vm_compute; reflexivity).
  split; [exact Hbytes | exact Hx].
Defined.

(** Two clients; the loop of the first takes a step. *)
Lemma X4_tasks_touch_only_their_connection_witness :
  _connections
    (Demo.exec [Demo.client (Demo.frame 1 1 9); Demo.client (Demo.frame 1 2 9);
                EvDispatch 0] Demo.booted) !! 1
  = _connections
      (Demo.exec [Demo.client (Demo.frame 1 1 9); Demo.client (Demo.frame 1 2 9)]
         Demo.booted) !! 1.
Proof.
  apply (X4_tasks_touch_only_their_connection Demo.header_size Demo.parse_header
           (Demo.exec [Demo.client (Demo.frame 1 1 9); Demo.client (Demo.frame 1 2 9)]
              Demo.booted)
           (Demo.exec [Demo.client (Demo.frame 1 1 9); Demo.client (Demo.frame 1 2 9);
                       EvDispatch 0] Demo.booted)
           (EvDispatch 0) 0 1).
  - reflexivity.
  - vm_compute. reflexivity.
  - lia.
Defined.

(** A client whose second request names an unknown method: its loop fails
    and the connection is shut down while the first handler still runs;
    the reply of that handler is written all the same. *)
Lemma X5_reply_written_to_shut_down_connection_witness :
  c_shutdown
    <$> _connections
          (Demo.exec [Demo.client (Demo.frame 1 1 9 ++ Demo.frame 2 2 9);
                      EvDispatch 0; EvDispatch 0; EvRead 0 1; EvSignal 0;
                      EvDispatch 0; EvDispatch 0; EvDispatch 0; EvDispatch 0;
                      EvResolve 0 Demo.reply1] Demo.booted) !! 0
  = Some true
  ∧ written_on 0
      (Demo.exec [Demo.client (Demo.frame 1 1 9 ++ Demo.frame 2 2 9);
                  EvDispatch 0; EvDispatch 0; EvRead 0 1; EvSignal 0;
                  EvDispatch 0; EvDispatch 0; EvDispatch 0; EvDispatch 0;
                  EvResolve 0 Demo.reply1] Demo.booted)
    = [set_correlation_id 1 Demo.reply1].
Proof.
  destruct (X5_reply_written_to_shut_down_connection
              Demo.header_size Demo.parse_header
              (Demo.exec [Demo.client (Demo.frame 1 1 9 ++ Demo.frame 2 2 9);
                          EvDispatch 0; EvDispatch 0; EvRead 0 1; EvSignal 0;
                          EvDispatch 0; EvDispatch 0; EvDispatch 0; EvDispatch 0]
                 Demo.booted)
              (Demo.exec [Demo.client (Demo.frame 1 1 9 ++ Demo.frame 2 2 9);
                          EvDispatch 0; EvDispatch 0; EvRead 0 1; EvSignal 0;
                          EvDispatch 0; EvDispatch 0; EvDispatch 0; EvDispatch 0;
                          EvResolve 0 Demo.reply1] Demo.booted)
              0 Demo.reply1
              {| _h := Demo.request1; pr := true; ctx_conn := 0;
                 ctx_method := Method 0; ctx_units := 0; ctx_suspended := false;
                 ctx_reply := Running |}
              {| addr := 1; c_input := {| in_buf := [9%Z]; in_eof := false |};
                 c_written := []; c_input_shutdown := false; c_shutdown := true;
                 c_dispatch := Closed |})
    as (_ & Hshut & _); try (vm_compute; reflexivity).
  split; [exact Hshut | vm_compute; reflexivity].
Defined.

(** Both handlers of the pipelined client have resolved. *)
Lemma X6_requests_completed_counts_finished_handlers_witness :
  requests_completed (_probe (Demo.exec Demo.overtaking Demo.booted))
  = Z.of_nat (countb is_finished (contexts (Demo.exec Demo.overtaking Demo.booted))).
Proof.
  apply (X6_requests_completed_counts_finished_handlers
           Demo.header_size Demo.parse_header).
  apply demo_reachable. eexists. vm_compute. reflexivity.
Defined.

(** The pipelined client: two requests of seven bytes each. *)
Lemma X7_bytes_received_accounts_started_requests_witness :
  (accounted Demo.header_size (contexts (Demo.exec Demo.pipelined Demo.booted))
   ≤ in_bytes (_probe (Demo.exec Demo.pipelined Demo.booted)))%Z
  ∧ in_bytes (_probe (Demo.exec Demo.pipelined Demo.booted))
    = accounted Demo.header_size (contexts (Demo.exec Demo.pipelined Demo.booted)).
Proof.
  destruct (X7_bytes_received_accounts_started_requests
              Demo.header_size Demo.parse_header
              (Demo.exec Demo.pipelined Demo.booted)) as [Hle Heq].
  - apply demo_reachable. eexists. vm_compute. reflexivity.
  - split; [exact Hle | apply Heq; vm_compute; reflexivity].
Defined.

(** The overtaking run: what connection 0 was handed is the replies of
    its two contexts. *)
Lemma X8_one_reply_per_answered_request_witness :
  written_on 0 (Demo.exec Demo.overtaking Demo.booted)
  ≡ₚ omap (written_reply 0) (contexts (Demo.exec Demo.overtaking Demo.booted)).
Proof.
  destruct (X8_one_reply_per_answered_request Demo.header_size Demo.parse_header
              (Demo.exec Demo.overtaking Demo.booted)) as [Hperm _].
  - apply demo_reachable. eexists. vm_compute. reflexivity.
  - apply Hperm.
Defined.

(** The pipelined client, [stop], and the drain. *)
Lemma X9_stopped_server_is_quiescent_witness :
  g_count (_conn_gate (Demo.exec (Demo.pipelined ++ [EvStop] ++ Demo.draining)
                         Demo.booted)) = 0
  ∧ registry (Demo.exec (Demo.pipelined ++ [EvStop] ++ Demo.draining) Demo.booted) = [].
Proof.
  destruct (X9_stopped_server_is_quiescent Demo.header_size Demo.parse_header
              (Demo.exec (Demo.pipelined ++ [EvStop] ++ Demo.draining) Demo.booted))
    as (Hg & _ & _ & Hreg).
  - apply demo_reachable. eexists. vm_compute. reflexivity.
  - vm_compute. reflexivity.
  - split; [exact Hg | exact Hreg].
Defined.

(** A client that connects after [stop]: its accept loop ends and no
    connection is constructed. *)
Lemma X10_no_connection_accepted_after_stop_witness :
  length (_connections (Demo.exec [Demo.client (Demo.frame 1 1 9)] (stop Demo.booted)))
  = length (_connections Demo.booted).
Proof.
  refine (proj1 (X10_no_connection_accepted_after_stop Demo.header_size Demo.parse_header
                   Demo.booted
                   (Demo.exec [Demo.client (Demo.frame 1 1 9)] (stop Demo.booted))
                   [Demo.client (Demo.frame 1 1 9)] _)).
  vm_compute. reflexivity.
Defined.

(** The handler of the arriving client has not signalled: the loop of its
    connection cannot take a step. *)
Lemma X11_one_reader_per_connection_witness :
  step Demo.header_size Demo.parse_header (EvDispatch 0)
    (Demo.exec (Demo.arriving ++ [EvDispatch 0]) Demo.booted) = None.
Proof.
  destruct (X11_one_reader_per_connection Demo.header_size Demo.parse_header
              (Demo.exec (Demo.arriving ++ [EvDispatch 0]) Demo.booted) 0 0
              {| _h := Demo.request1; pr := false; ctx_conn := 0;
                 ctx_method := Method 0; ctx_units := 0; ctx_suspended := false;
                 ctx_reply := Running |}
              {| _h := Demo.request1; pr := false; ctx_conn := 0;
                 ctx_method := Method 0; ctx_units := 0; ctx_suspended := false;
                 ctx_reply := Running |})
    as [_ Hblocked].
  - apply demo_reachable. eexists. vm_compute. reflexivity.
  - vm_compute. reflexivity.
  - reflexivity.
  - reflexivity.
  - vm_compute. reflexivity.
  - reflexivity.
  - reflexivity.
  - reflexivity.
  - exact Hblocked.
Defined.


(** The same run: the semaphore is within its budget. *)
Lemma X13_memory_budget_is_never_overdrawn_witness :
  (0 ≤ sem_count (_memory (Demo.exec (Demo.arriving ++ [EvDispatch 0; EvReserve 0 100])
                             Demo.booted)) ≤ 1024)%Z.
Proof.
  refine (proj1 (X13_memory_budget_is_never_overdrawn Demo.header_size Demo.parse_header
                   Demo.config [Demo.echo; Demo.shadow] (λ _, true)
                   (Demo.arriving ++ [EvDispatch 0; EvReserve 0 100]) Demo.booted
                   (Demo.exec (Demo.arriving ++ [EvDispatch 0; EvReserve 0 100])
                      Demo.booted) _ _ _ _)).
  - reflexivity.
  - vm_compute. reflexivity.
  - repeat constructor. simpl. lia.
  - simpl. lia.
Defined.

(** The configured server listens on its one address. *)
Lemma X14_start_listens_on_every_address_witness :
  match start (λ _, true) (server_new Demo.config) with
  | Some s0 =>
      Forall (λ a, true = true) (addrs (cfg (server_new Demo.config)))
      ∧ _listeners s0
        = _listeners (server_new Demo.config)
          ++ ((λ a, {| l_addr := a; l_tls := _creds (server_new Demo.config);
                       l_aborted := false; l_accepting := true |})
                <$> addrs (cfg (server_new Demo.config)))
      ∧ g_count (_conn_gate s0)
        = g_count (_conn_gate (server_new Demo.config))
          + length (addrs (cfg (server_new Demo.config)))
  | None => Exists (λ a, true = false) (addrs (cfg (server_new Demo.config)))
  end.
Proof.
  apply (X14_start_listens_on_every_address (λ _, true) (server_new Demo.config)).
  reflexivity.
Defined.

(** The booted server, with no client, stops. *)
Lemma X15_idle_server_stops_witness :
  ∃ s',
    run Demo.header_size Demo.parse_header
      (EvStop :: accepts_aborted (length (_listeners Demo.booted)) ++ [EvGateClosed])
      Demo.booted = Some s'
    ∧ lifecycle s' = Stopped
    ∧ calls s'
      = calls Demo.booted
          ++ (CallAbortAccept <$> seq 0 (length (_listeners Demo.booted)))
          ++ [CallRequestAbort; CallGateClose].
Proof.
  apply (X15_idle_server_stops Demo.header_size Demo.parse_header Demo.booted).
  - apply (demo_reachable []). eexists. reflexivity.
  - reflexivity.
  - vm_compute. reflexivity.
Defined.

(** A handler asks for 2000 of the 1024 units, then [stop] is called. *)
Lemma X16_oversized_reservation_never_returns_witness :
  (∀ n, step Demo.header_size Demo.parse_header (EvResolve 0 n)
          (Demo.exec (Demo.arriving ++ [EvDispatch 0; EvReserve 0 2000; EvStop])
             Demo.booted) = None)
  ∧ lifecycle (Demo.exec (Demo.arriving ++ [EvDispatch 0; EvReserve 0 2000; EvStop])
                 Demo.booted) ≠ Stopped.
Proof.
  destruct (X16_oversized_reservation_never_returns Demo.header_size Demo.parse_header
              Demo.config [Demo.echo; Demo.shadow] (λ _, true)
              (Demo.arriving ++ [EvDispatch 0]) Demo.booted
              (Demo.exec (Demo.arriving ++ [EvDispatch 0]) Demo.booted)
              0 2000
              (Demo.exec (Demo.arriving ++ [EvDispatch 0; EvReserve 0 2000]) Demo.booted)
              [EvStop]
              (Demo.exec (Demo.arriving ++ [EvDispatch 0; EvReserve 0 2000; EvStop])
                 Demo.booted))
    as (_ & _ & Hresolve & _ & Hlife).
  - reflexivity.
  - vm_compute. reflexivity.
  - repeat constructor.
  - simpl. lia.
  - vm_compute. reflexivity.
  - vm_compute. reflexivity.
  - repeat constructor.
  - split; [exact Hresolve | exact Hlife].
Defined.

(** [stop] with the two handlers of the pipelined client in flight: the
    gate holds the accept loop, the dispatch fiber and both handlers. *)
Lemma X17_gate_counts_live_fibers_witness :
  g_count (_conn_gate (Demo.exec (Demo.pipelined ++ [EvStop]) Demo.booted))
  = countb l_accepting (_listeners (Demo.exec (Demo.pipelined ++ [EvStop]) Demo.booted))
    + countb (λ conn, is_open (c_dispatch conn))
        (_connections (Demo.exec (Demo.pipelined ++ [EvStop]) Demo.booted))
    + countb is_running (contexts (Demo.exec (Demo.pipelined ++ [EvStop]) Demo.booted)).
Proof.
  refine (proj1 (X17_gate_counts_live_fibers Demo.header_size Demo.parse_header
                   (Demo.exec (Demo.pipelined ++ [EvStop]) Demo.booted) _)).
  apply demo_reachable. eexists. vm_compute. reflexivity.
Defined.

(** The request of the arriving client, from its dispatch to its reply. *)
Lemma X18_request_keeps_header_and_signal_witness :
  ∃ x',
    contexts (Demo.exec (Demo.arriving ++ [EvDispatch 0; EvRead 0 1; EvSignal 0;
                                           EvResolve 0 Demo.reply1]) Demo.booted) !! 0
    = Some x'
    ∧ get_header x' = Demo.request1.
Proof.
  destruct (X18_request_keeps_header_and_signal Demo.header_size Demo.parse_header
              [EvRead 0 1; EvSignal 0; EvResolve 0 Demo.reply1]
              (Demo.exec (Demo.arriving ++ [EvDispatch 0]) Demo.booted)
              (Demo.exec (Demo.arriving ++ [EvDispatch 0; EvRead 0 1; EvSignal 0;
                                            EvResolve 0 Demo.reply1]) Demo.booted)
              0
              {| _h := Demo.request1; pr := false; ctx_conn := 0;
                 ctx_method := Method 0; ctx_units := 0; ctx_suspended := false;
                 ctx_reply := Running |})
    as (x' & Hx' & Hh & _); [vm_compute; reflexivity | vm_compute; reflexivity |].
  exists x'. split; [exact Hx' | exact Hh].
Defined.


(** The shard with room for two events, three offered. *)
Lemma X20_queue_full_after_enqueue_some_witness :
  Audit.enqueue_audit_event Audit.management Audit.event10
    (Audit.enqueue_some 10 [Audit.event10; Audit.event10; Audit.event10] Audit.shard).2
  = (false,
     (Audit.enqueue_some 10 [Audit.event10; Audit.event10; Audit.event10] Audit.shard).2)
  ∧ Audit.enqueue_audit_event Audit.describe Audit.event10
      (Audit.enqueue_some 10 [Audit.event10; Audit.event10; Audit.event10] Audit.shard).2
    = (true,
       (Audit.enqueue_some 10 [Audit.event10; Audit.event10; Audit.event10]
          Audit.shard).2).
Proof.
  destruct (X20_queue_full_after_enqueue_some 10
              [Audit.event10; Audit.event10; Audit.event10] Audit.event10 Audit.shard)
    as (_ & _ & _ & Hdescribe & Hmanagement);
    try reflexivity.
  - repeat constructor.
  - simpl. lia.
  - split; [exact Hmanagement | exact Hdescribe].
Defined.
